(** * Client-side lowering of [{#each}] blocks and of rune calls

    A shallow embedding of two visitors of the Svelte compiler's
    client transform (phase 3):

    - [EachBlock]      (visitors/EachBlock.js)
    - [CallExpression] (visitors/CallExpression.js)

    Both visitors build ESTree nodes through the builder module [b] and
    call back into the generic visitor.  The nodes are an inductive type,
    the mutable locals of the visitors ([flags], [uses_index],
    [key_uses_index], the [transform] tables) are threaded explicitly. *)

From Stdlib Require Import ZArith Lia.
From stdpp Require Import base strings gmap list.

Local Open Scope string_scope.
Local Open Scope list_scope.
Local Set Warnings "-register-all".

(** ** ESTree nodes *)

Module estree.

Inductive LiteralValue : Type :=
  | LString (s : string)
  | LNumber (n : Z)
  | LBoolean (v : bool)
  | LNull.

(** Expressions, patterns and statements are all plain objects with a
    [type] tag in the source; one inductive type holds them.  The node
    types the two visitors build or look into have a constructor of their
    own.  [OtherExpression] stands for an expression of any other type
    that binds no name, given by its type and the expressions it
    holds. *)
Inductive Node : Type :=
  | Identifier (name : string)
  | Literal (value : LiteralValue)
  | MemberExpression (object property : Node) (computed : bool)
  | CallExpression (callee : Node) (arguments : list Node)
  | ArrowFunctionExpression (params : list Node) (body : Node) (async : bool)
  | SequenceExpression (expressions : list Node)
  | AssignmentExpression (operator : string) (left right : Node)
  | UnaryExpression (operator : string) (argument : Node)
  | SpreadElement (argument : Node)
  | ArrayExpression (elements : list Node)
  | ObjectPattern (properties : list Node)
  | ArrayPattern (elements : list Node)
  | AssignmentPattern (left right : Node)
  | RestElement (argument : Node)
  | Property (key value : Node)
  | BlockStatement (body : list Node)
  | ExpressionStatement (expression : Node)
  | VariableDeclaration (kind : string) (id init : Node)
  | OtherExpression (type : string) (expressions : list Node).

(** Induction principle that also covers the nodes held in lists. *)
Section NodeInd.
Variable P : Node -> Prop.
Hypothesis HIdentifier : forall name, P (Identifier name).
Hypothesis HLiteral : forall v, P (Literal v).
Hypothesis HMember : forall o p c, P o -> P p -> P (MemberExpression o p c).
Hypothesis HCall : forall f args, P f -> Forall P args -> P (CallExpression f args).
Hypothesis HArrow : forall ps body a, Forall P ps -> P body ->
  P (ArrowFunctionExpression ps body a).
Hypothesis HSequence : forall es, Forall P es -> P (SequenceExpression es).
Hypothesis HAssignment : forall op l r, P l -> P r -> P (AssignmentExpression op l r).
Hypothesis HUnary : forall op a, P a -> P (UnaryExpression op a).
Hypothesis HSpread : forall a, P a -> P (SpreadElement a).
Hypothesis HArray : forall es, Forall P es -> P (ArrayExpression es).
Hypothesis HObjectPattern : forall ps, Forall P ps -> P (ObjectPattern ps).
Hypothesis HArrayPattern : forall es, Forall P es -> P (ArrayPattern es).
Hypothesis HAssignmentPattern : forall l r, P l -> P r -> P (AssignmentPattern l r).
Hypothesis HRest : forall a, P a -> P (RestElement a).
Hypothesis HProperty : forall k v, P k -> P v -> P (Property k v).
Hypothesis HBlock : forall body, Forall P body -> P (BlockStatement body).
Hypothesis HExpressionStatement : forall e, P e -> P (ExpressionStatement e).
Hypothesis HVariableDeclaration : forall kind i e, P i -> P e ->
  P (VariableDeclaration kind i e).
Hypothesis HOther : forall type es, Forall P es -> P (OtherExpression type es).

Fixpoint Node_nested_ind (n : Node) : P n :=
  let all := fix all (l : list Node) : Forall P l :=
    match l with
    | [] => @List.Forall_nil Node P
    | x :: l' => @List.Forall_cons Node P x l' (Node_nested_ind x) (all l')
    end in
  match n with
  | Identifier name => HIdentifier name
  | Literal v => HLiteral v
  | MemberExpression o p c => HMember o p c (Node_nested_ind o) (Node_nested_ind p)
  | CallExpression f args => HCall f args (Node_nested_ind f) (all args)
  | ArrowFunctionExpression ps body a =>
      HArrow ps body a (all ps) (Node_nested_ind body)
  | SequenceExpression es => HSequence es (all es)
  | AssignmentExpression op l r =>
      HAssignment op l r (Node_nested_ind l) (Node_nested_ind r)
  | UnaryExpression op a => HUnary op a (Node_nested_ind a)
  | SpreadElement a => HSpread a (Node_nested_ind a)
  | ArrayExpression es => HArray es (all es)
  | ObjectPattern ps => HObjectPattern ps (all ps)
  | ArrayPattern es => HArrayPattern es (all es)
  | AssignmentPattern l r =>
      HAssignmentPattern l r (Node_nested_ind l) (Node_nested_ind r)
  | RestElement a => HRest a (Node_nested_ind a)
  | Property k v => HProperty k v (Node_nested_ind k) (Node_nested_ind v)
  | BlockStatement body => HBlock body (all body)
  | ExpressionStatement e => HExpressionStatement e (Node_nested_ind e)
  | VariableDeclaration kind i e =>
      HVariableDeclaration kind i e (Node_nested_ind i) (Node_nested_ind e)
  | OtherExpression type es => HOther type es (all es)
  end.
End NodeInd.

(** [node.type === 'Identifier'] *)
Definition is_Identifier (n : Node) : bool :=
  match n with Identifier _ => true | _ => false end.

End estree.
Import estree.

(** ** The builder module [#compiler/builders]

    The builders lie outside the two visitors verified here; the spec has them as
    an external collaborator that "constructs output-language
    expression/statement nodes (calls, arrow functions, member access,
    sequences, blocks, literals)".  Each builder makes the node of its
    name. *)

Module b.

(** Modelled from the spec: [b.id] of the builders, an identifier node. *)
Definition id (name : string) : Node := Identifier name.

(** Modelled from the spec: [b.literal] of the builders, a literal node. *)
Definition literal (value : LiteralValue) : Node := Literal value.

(** Modelled from the spec: [b.true] of the builders, the literal [true]. *)
Definition true : Node := Literal (LBoolean Datatypes.true).

(** Modelled from the spec: [void0] of the builders, the expression [void 0]. *)
Definition void0 : Node := UnaryExpression "void" (Literal (LNumber 0)).

(** Modelled from the spec: the arguments [b.call] of the builders keeps.
    A call may be given missing ([undefined]) arguments: those at the
    end are dropped and the other ones become [void 0]. *)
Fixpoint call_arguments (args : list (option Node)) : list Node :=
  match args with
  | [] => []
  | arg :: rest =>
      match arg, call_arguments rest with
      | None, [] => []
      | None, rest' => void0 :: rest'
      | Some a, rest' => a :: rest'
      end
  end.

(** Modelled from the spec: [b.call] of the builders, a call node. *)
Definition call (callee : Node) (args : list (option Node)) : Node :=
  CallExpression callee (call_arguments args).

(** Modelled from the spec: [b.member] of the builders, a member access. *)
Definition member (object property : Node) (computed : bool) : Node :=
  MemberExpression object property computed.

(** Modelled from the spec: [b.arrow] of the builders, an arrow function. *)
Definition arrow (params : list Node) (body : Node) : Node :=
  ArrowFunctionExpression params body false.

(** Modelled from the spec: [b.thunk] of the builders, "a zero-argument
    function deferring evaluation of an expression"; [async] makes it an
    async function. *)
Definition thunk (expression : Node) (async : bool) : Node :=
  ArrowFunctionExpression [] expression async.

(** Modelled from the spec: [b.sequence] of the builders, a sequence
    expression. *)
Definition sequence (expressions : list Node) : Node :=
  SequenceExpression expressions.

(** Modelled from the spec: [b.assignment] of the builders, an assignment. *)
Definition assignment (operator : string) (left right : Node) : Node :=
  AssignmentExpression operator left right.

(** Modelled from the spec: [b.spread] of the builders, a spread element. *)
Definition spread (argument : Node) : Node := SpreadElement argument.

(** Modelled from the spec: [b.array] of the builders, an array expression. *)
Definition array (elements : list Node) : Node := ArrayExpression elements.

(** Modelled from the spec: [b.block] of the builders, a block statement. *)
Definition block (body : list Node) : Node := BlockStatement body.

(** Modelled from the spec: [b.stmt] of the builders, an expression
    statement. *)
Definition stmt (expression : Node) : Node := ExpressionStatement expression.

(** Modelled from the spec: [b.var] of the builders, a [var] declaration. *)
Definition var (id init : Node) : Node := VariableDeclaration "var" id init.

(** Modelled from the spec: [b.let] of the builders, a [let] declaration. *)
Definition let_ (id init : Node) : Node := VariableDeclaration "let" id init.

End b.

(** [b.call('$.get', ...)]: a string callee stands for the identifier of
    that name. *)
Coercion b.id : string >-> Node.

(** ** Scopes and bindings

    Scope analysis (scope.js) lies outside the two visitors verified here;
    the spec has it as a read-only service. *)

Module scope.

Inductive BindingKind : Type :=
  | normal | prop | bindable_prop | rest_prop | raw_state | state
  | derived | each | snippet | store_sub | legacy_reactive | template.

Definition kind_eqb (a c : BindingKind) : bool :=
  match a, c with
  | normal, normal | prop, prop | bindable_prop, bindable_prop
  | rest_prop, rest_prop | raw_state, raw_state | state, state
  | derived, derived | each, each | snippet, snippet
  | store_sub, store_sub | legacy_reactive, legacy_reactive
  | template, template => true
  | _, _ => false
  end.

(** An identifier object.  [ref] is the identity of the object: a
    JavaScript [Set] of nodes compares by identity, not by name. *)
Record IdentifierObject : Type := { ref : nat; name : string }.

(** Modelled from the spec: the [Binding] of scope.js, "an identifier's
    static classification", with its [kind], whether it was [reassigned],
    its identifier and the function depth of its declaring scope. *)
Record Binding : Type := {
  kind : BindingKind;
  reassigned : bool;
  node : IdentifierObject;
  (** [binding.scope.function_depth] *)
  scope_function_depth : Z
}.

(** Modelled from the spec: the [Scope] of scope.js, "hierarchical; has a
    parent, a set of declared bindings". *)
Inductive Scope : Type := {
  (** a [Map] from names to bindings, in insertion order *)
  declarations : list (string * Binding);
  parent : option Scope;
  function_depth : Z
}.

(** Modelled from the spec: [declarations.get(name)] on the [Map] of a
    scope. *)
Fixpoint lookup_declaration (decls : list (string * Binding)) (x : string)
  : option Binding :=
  match decls with
  | [] => None
  | (y, binding) :: rest =>
      if String.eqb y x then Some binding else lookup_declaration rest x
  end.

(** Modelled from the spec: [Scope.get] of scope.js.  A scope "has a
    parent, a set of declared bindings, and the ability to resolve a name
    by walking up": the binding declared here, else the one of the closest
    ancestor, else [null]. *)
Fixpoint get (s : Scope) (x : string) : option Binding :=
  match lookup_declaration (declarations s) x with
  | Some binding => Some binding
  | None =>
      match parent s with
      | Some p => get p x
      | None => None
      end
  end.

End scope.

(** ** State threaded through the visitors *)

Definition State (W A : Type) : Type := W -> A * W.

Definition ret {W A : Type} (a : A) : State W A := fun w => (a, w).

Definition bind {W A B : Type} (m : State W A) (k : A -> State W B) : State W B :=
  fun w => let '(a, w') := m w in k a w'.

Notation "'let*' x ':=' m 'in' k" := (bind m (fun x => k))
  (at level 10, x pattern, m at level 100, k at level 200).

(** [list.map(f)] with an effectful [f], left to right. *)
Fixpoint map_state {W A B : Type} (f : A -> State W B) (l : list A)
  : State W (list B) :=
  match l with
  | [] => ret []
  | x :: rest =>
      let* y := f x in
      let* ys := map_state f rest in
      ret (y :: ys)
  end.

(** ** visitors/CallExpression.js *)

Module CallExpressionVisitor.

(** The [CallExpression] node handed to the visitor. *)
Record CallNode : Type := { callee : Node; arguments : list Node }.

(** What the visitor does with the node: it returns a replacement, or
    it calls [context.next()] and returns nothing, or it hands
    [undefined] to [context.visit], which throws. *)
Inductive Outcome : Type :=
  | Return (replacement : Node)
  | Next
  | TypeError.

(** The cases of the [switch (rune)]. *)
Definition recognized_runes : list string :=
  [ "$host"; "$effect.tracking"; "$state"; "$state.raw"; "$derived";
    "$derived.by"; "$state.snapshot"; "$effect.root"; "$effect.pending";
    "$inspect"; "$inspect().with" ].

Definition logging_methods : list string :=
  [ "debug"; "dir"; "error"; "group"; "groupCollapsed"; "info"; "log";
    "trace"; "warn" ].

Definition rune_is (rune : option string) (name : string) : bool :=
  match rune with
  | Some r => String.eqb r name
  | None => false
  end.

Definition is_SpreadElement (n : Node) : bool :=
  match n with SpreadElement _ => true | _ => false end.

(** What the visitor takes from the rest of the compiler.  [O] is the
    state of the rest of the compiler, touched by [context.visit]. *)
Class Imports (O : Type) : Type := {
  (** [dev] of state.js *)
  dev : bool;
  (** [get_rune(node, scope)] of scope.js; [None] is [null] *)
  get_rune : CallNode -> scope.Scope -> option string;
  (** [context.visit(node)] and [context.visit(node, {...state, in_derived})] *)
  visit : Node -> State O Node;
  visit_in_derived : bool -> Node -> State O Node;
  (** [should_proxy(node, scope)] of ../utils.js *)
  should_proxy : Node -> scope.Scope -> bool;
  (** [is_ignored(node, code)] of state.js *)
  is_ignored : CallNode -> string -> bool;
  (** [transform_inspect_rune(node, context)] of ../../utils.js *)
  transform_inspect_rune : CallNode -> State O Node;
  (** [scope.evaluate(arg).has_unknown] *)
  has_unknown : scope.Scope -> Node -> bool
}.

Section Visitor.
Context {O : Type} `{Imports O}.

(** The test of the last [if]. *)
Definition logs_state (node : CallNode) (scope : scope.Scope) : option string :=
  if dev then
    match callee node with
    | MemberExpression (Identifier object_name) (Identifier property_name) _ =>
        if String.eqb object_name "console"
           && bool_decide (scope.get scope "console" = None)
           && bool_decide (property_name ∈ logging_methods)
           && existsb (fun arg => is_SpreadElement arg || has_unknown scope arg)
                (arguments node)
        then Some property_name
        else None
    | _ => None
    end
  else None.

Definition CallExpression (node : CallNode) (scope : scope.Scope)
  : State O Outcome :=
  let rune := get_rune node scope in
  if rune_is rune "$host" then
    ret (Return (b.id "$$props.$$host"))
  else if rune_is rune "$effect.tracking" then
    ret (Return (b.call "$.effect_tracking" []))
  else if rune_is rune "$state" || rune_is rune "$state.raw" then
    let arg := head (arguments node) in
    match arg with
    | Some arg =>
        let* value := visit arg in
        let value :=
          if rune_is rune "$state" && should_proxy arg scope
          then b.call "$.proxy" [Some value]
          else value in
        ret (Return (b.call "$.state" [Some value]))
    | None => ret (Return (b.call "$.state" [None]))
    end
  else if rune_is rune "$derived" || rune_is rune "$derived.by" then
    match head (arguments node) with
    | Some arg =>
        let* fn := visit_in_derived (rune_is rune "$derived") arg in
        ret (Return (b.call "$.derived"
               [Some (if rune_is rune "$derived" then b.thunk fn false else fn)]))
    | None => ret TypeError
    end
  else if rune_is rune "$state.snapshot" then
    match head (arguments node) with
    | Some arg =>
        let* value := visit arg in
        ret (Return (b.call "$.snapshot"
               [Some value;
                if is_ignored node "state_snapshot_uncloneable"
                then Some b.true else None]))
    | None => ret TypeError
    end
  else if rune_is rune "$effect.root" then
    let* args := map_state visit (arguments node) in
    ret (Return (b.call "$.effect_root" (Some <$> args)))
  else if rune_is rune "$effect.pending" then
    ret (Return (b.call "$.pending" []))
  else if rune_is rune "$inspect" || rune_is rune "$inspect().with" then
    let* replacement := transform_inspect_rune node in
    ret (Return replacement)
  else
    match logs_state node scope with
    | Some property_name =>
        let* args := map_state visit (arguments node) in
        ret (Return
          (b.call (callee node)
             [Some (b.spread
                (b.call "$.log_if_contains_state"
                   (Some (b.literal (LString property_name)) :: (Some <$> args))))]))
    | None => ret Next
    end.

End Visitor.

End CallExpressionVisitor.

(** ** 32-bit integers

    [flags |= X] and [flags & X] take their operands to signed 32-bit
    integers and give one back. *)

Module int32.

Definition to_int32 (x : Z) : Z := ((x + 2 ^ 31) mod 2 ^ 32 - 2 ^ 31)%Z.

Definition or (x y : Z) : Z := to_int32 (Z.lor (to_int32 x) (to_int32 y)).

Definition and (x y : Z) : Z := to_int32 (Z.land (to_int32 x) (to_int32 y)).

(** The non-negative numbers of 31 bits, on which [or] and [and] are
    [Z.lor] and [Z.land]. *)
Definition small (x : Z) : Prop := (0 <= x < 2 ^ 31)%Z.

End int32.

(** ** Template nodes *)

Module AST.

(** Attributes of an element; only the [type] tag is looked at. *)
Inductive Attribute : Type :=
  | Attribute_ (name : string)
  | SpreadAttribute
  | AnimateDirective (name : string)
  | BindDirective (name : string)
  | ClassDirective (name : string)
  | LetDirective (name : string)
  | OnDirective (name : string)
  | StyleDirective (name : string)
  | TransitionDirective (name : string)
  | UseDirective (name : string).

Inductive TemplateNode : Type :=
  | Text (data : string)
  | Comment (data : string)
  | ExpressionTag (expression : Node)
  | ConstTag (declaration : Node)
  | RegularElement (name : string) (attributes : list Attribute)
      (fragment : list TemplateNode)
  | SvelteElement (tag : Node) (attributes : list Attribute)
      (fragment : list TemplateNode)
  | Component (name : string) (attributes : list Attribute)
      (fragment : list TemplateNode)
  (** the other blocks and tags, which [EachBlock] does not look into *)
  | OtherBlock (type : string).

Record Fragment : Type := { nodes : list TemplateNode }.

(** [ExpressionMetadata]: what analysis recorded about an expression. *)
Record ExpressionMetadata : Type := {
  (** a [Set] of bindings, in insertion order *)
  dependencies : list scope.Binding;
  has_await : bool
}.

Record EachBlockMetadata : Type := {
  meta_expression : ExpressionMetadata;
  keyed : bool;
  contains_group_binding : bool;
  (** the unique identifier for the index *)
  meta_index : Node;
  is_controlled : bool;
  (** a [Set] of bindings, in insertion order *)
  transitive_deps : list scope.Binding
}.

Record EachBlock : Type := {
  expression : Node;
  (** the item pattern; [None] for [{#each x}] *)
  context : option Node;
  (** the name of the index, which is not the empty string; [None] when
      there is no index *)
  index : option string;
  key : option Node;
  body : Fragment;
  fallback : option Fragment;
  metadata : EachBlockMetadata
}.

(** An entry of [context.path]. *)
Inductive SvelteNode : Type :=
  | EachBlock_ (block : EachBlock)
  | OtherNode (type : string).

Definition is_animate (attr : Attribute) : bool :=
  match attr with AnimateDirective _ => true | _ => false end.

End AST.

(** ** Destructuring

    [extract_paths] belongs to utils/ast.js, outside the visitors verified
    here; its result is described by these records.  For every
    intermediate declaration it makes one identifier object, which the
    value of a later insert and the expressions of the paths may hold
    too, and it leaves the naming of that object to its caller
    ([id.name = ...], line 257).  Whoever reads such an expression sees
    the names the objects have at that moment: here an expression that
    may hold these objects is a function of their names, and an insert
    has the reference of its object. *)

Module destructuring.

(** The names of the identifier objects of the inserts, by reference. *)
Definition Names : Type := nat -> string.

(** The name the objects are made with. *)
Definition unnamed : Names := fun _ => "#".

(** [id.name = name] for the object [ref]. *)
Definition set_name (ref : nat) (name : string) (names : Names) : Names :=
  fun r => if Nat.eqb r ref then name else names r.

(** The objects named one after the other, the first of the list
    first. *)
Definition set_names (entries : list (nat * string)) (names : Names) : Names :=
  foldl (fun names entry => set_name entry.1 entry.2 names) names entries.

Record Insert : Type := { id : nat; value : Names -> Node }.

Record Path : Type := {
  node : Node;
  is_rest : bool;
  has_default_value : bool;
  expression : Names -> Node;
  update_expression : Names -> Node
}.

(** [node.name]; a node without a name gives [undefined], which as a
    property key is the string ["undefined"]. *)
Definition name_of (n : Node) : string :=
  match n with Identifier name => name | _ => "undefined" end.

End destructuring.

(** ** The binding strategy table and the generic visitor *)

Module transformers.

(** [{ read, assign, mutate }]; a strategy may lack any of the three. *)
Record Strategy (W : Type) : Type := {
  read : option (Node -> State W Node);
  assign : option (Node -> Node -> State W Node);
  mutate : option (Node -> Node -> State W Node)
}.
Arguments read {W} _.
Arguments assign {W} _.
Arguments mutate {W} _.

(** [{ read }] *)
Definition reader {W : Type} (f : Node -> State W Node) : Strategy W :=
  {| read := Some f; assign := None; mutate := None |}.

(** Modelled from the spec: [object] of utils/ast.js, outside the
    visitors verified here.  It gives the identifier a member access
    starts from ("a store-subscription identifier/member access"), if
    any. *)
Fixpoint object (expression : Node) : option string :=
  match expression with
  | MemberExpression o _ _ => object o
  | Identifier name => Some name
  | _ => None
  end.

(** Modelled from the spec: the names a pattern binds, as scope
    analysis has them (a scope has "a set of declared bindings"). *)
Fixpoint bound_names (pattern : Node) : list string :=
  match pattern with
  | Identifier name => [name]
  | ObjectPattern ps => List.flat_map bound_names ps
  | ArrayPattern es => List.flat_map bound_names es
  | AssignmentPattern l _ => bound_names l
  | RestElement a => bound_names a
  | Property _ v => bound_names v
  | _ => []
  end.

(** Modelled from the spec: the names the parameters of a function
    bind, and the names the declarations of a block bind. *)
Definition parameter_names (params : list Node) : list string :=
  List.flat_map bound_names params.

Definition declared_names (body : list Node) : list string :=
  List.flat_map
    (fun statement =>
       match statement with
       | VariableDeclaration _ i _ => bound_names i
       | _ => []
       end)
    body.

Section GenericVisitor.
Context {W : Type}.

(** [transform[name]?.read] and the like; [Object.hasOwn] first. *)
Definition lookup_strategy (table : gmap string (Strategy W)) {F : Type}
  (field : Strategy W -> option F) (name : string) : option F :=
  match table !! name with
  | Some strategy => field strategy
  | None => None
  end.

(** The table inside a region that binds [names] anew. *)
Definition shadow (names : list string) (table : gmap string (Strategy W))
  : gmap string (Strategy W) :=
  foldr delete table names.

(** Modelled from the spec: the generic expression visitor, outside the
    visitors verified here.  The binding strategy table is "consulted
    by the generic expression-lowering visitor whenever it encounters
    that identifier": a reference is replaced by what [read] gives,
    an assignment to the identifier by what [assign] gives for the
    lowered value, and an assignment to one of its members by what
    [mutate] gives for the lowered assignment.  The table is "keyed by
    name within a bounded lexical region": a name that is bound anew
    inside the expression, by a parameter of a function or by a
    declaration of a block, is another binding there, and inside that
    function or block the table has no strategy for it.  The property
    of a member access that is not computed is a name, not a reference.
    Every other node keeps its shape and has its children lowered
    ("visit children, preserve shape"). *)
Fixpoint visit_expression (table : gmap string (Strategy W)) (n : Node)
  {struct n} : State W Node :=
  let visit_all :=
    fix visit_all (table : gmap string (Strategy W)) (l : list Node)
      {struct l} : State W (list Node) :=
    match l with
    | [] => ret []
    | x :: rest =>
        let* x' := visit_expression table x in
        let* rest' := visit_all table rest in
        ret (x' :: rest')
    end in
  match n with
  | Identifier name =>
      match lookup_strategy table read name with
      | Some f => f n
      | None => ret n
      end
  | MemberExpression o p c =>
      let* o' := visit_expression table o in
      let* p' := (if c then visit_expression table p else ret p) in
      ret (MemberExpression o' p' c)
  | CallExpression f args =>
      let* f' := visit_expression table f in
      let* args' := visit_all table args in
      ret (CallExpression f' args')
  | ArrowFunctionExpression ps body a =>
      let* body' := visit_expression (shadow (parameter_names ps) table) body in
      ret (ArrowFunctionExpression ps body' a)
  | SequenceExpression es =>
      let* es' := visit_all table es in
      ret (SequenceExpression es')
  | AssignmentExpression op l r =>
      match l with
      | Identifier name =>
          let* value := visit_expression table r in
          match lookup_strategy table assign name with
          | Some f => f l value
          | None => ret (AssignmentExpression op l value)
          end
      | _ =>
          let* l' := visit_expression table l in
          let* r' := visit_expression table r in
          match object l with
          | Some name =>
              match lookup_strategy table mutate name with
              | Some f => f (Identifier name) (AssignmentExpression op l' r')
              | None => ret (AssignmentExpression op l' r')
              end
          | None => ret (AssignmentExpression op l' r')
          end
      end
  | UnaryExpression op a =>
      let* a' := visit_expression table a in
      ret (UnaryExpression op a')
  | SpreadElement a =>
      let* a' := visit_expression table a in
      ret (SpreadElement a')
  | ArrayExpression es =>
      let* es' := visit_all table es in
      ret (ArrayExpression es')
  | BlockStatement body =>
      let* body' := visit_all (shadow (declared_names body) table) body in
      ret (BlockStatement body')
  | ExpressionStatement e =>
      let* e' := visit_expression table e in
      ret (ExpressionStatement e')
  | VariableDeclaration kind i e =>
      let* e' := visit_expression table e in
      ret (VariableDeclaration kind i e')
  | OtherExpression type es =>
      let* es' := visit_all table es in
      ret (OtherExpression type es')
  | Literal _ | ObjectPattern _ | ArrayPattern _ | AssignmentPattern _ _
  | RestElement _ | Property _ _ => ret n
  end.

End GenericVisitor.

(** The generic visitor meets a reference to the binding of [x] in
    [n]: a reference to the name [x] that does not lie in a function or
    in a block that binds [x] anew. *)
Fixpoint reads (x : string) (n : Node) : bool :=
  match n with
  | Identifier name => String.eqb name x
  | MemberExpression o p c => reads x o || (c && reads x p)
  | CallExpression f args => reads x f || existsb (reads x) args
  | ArrowFunctionExpression ps body _ =>
      negb (existsb (String.eqb x) (parameter_names ps)) && reads x body
  | SequenceExpression es => existsb (reads x) es
  | AssignmentExpression _ l r =>
      match l with
      | Identifier _ => reads x r
      | _ => reads x l || reads x r
      end
  | UnaryExpression _ a => reads x a
  | SpreadElement a => reads x a
  | ArrayExpression es => existsb (reads x) es
  | BlockStatement body =>
      negb (existsb (String.eqb x) (declared_names body)) && existsb (reads x) body
  | ExpressionStatement e => reads x e
  | VariableDeclaration _ _ e => reads x e
  | OtherExpression _ es => existsb (reads x) es
  | Literal _ | ObjectPattern _ | ArrayPattern _ | AssignmentPattern _ _
  | RestElement _ | Property _ _ => false
  end.

End transformers.

(** ** The state handed to the client visitors *)

Module client.

(** [ComponentClientState], with the fields [EachBlock] reads.  [W] is
    the state the strategies of [transform] may change. *)
Record ClientState (W : Type) : Type := {
  scope : scope.Scope;
  (** [analysis.runes] *)
  runes : bool;
  transform : gmap string (transformers.Strategy W);
  store_to_invalidate : string;
  (** the anchor *)
  node : Node
}.
Arguments scope {W} _.
Arguments runes {W} _.
Arguments transform {W} _.
Arguments store_to_invalidate {W} _.
Arguments node {W} _.

Record ComponentContext (W : Type) : Type := {
  state : ClientState W;
  path : list AST.SvelteNode
}.
Arguments state {W} _.
Arguments path {W} _.

End client.

(** A visitor's result, or the [TypeError] it throws. *)
Inductive Result (A : Type) : Type :=
  | Ok (a : A)
  | Throws.
Arguments Ok {A} _.
Arguments Throws {A}.

Definition truthy {A : Type} (o : option A) : bool :=
  match o with Some _ => true | None => false end.

(** ** visitors/EachBlock.js *)

Module EachBlockVisitor.
Import transformers.

(** Modelled from the spec: [get_value] of shared/declarations.js,
    outside the visitors verified here; it is "the reactive-read form",
    the call [$.get(node)] that [EachBlock] itself writes out for
    [$$item]. *)
Definition get_value (node : Node) : Node := b.call "$.get" [Some node].

(** A strategy of the enclosing state, run in a state with one more
    cell ([uses_index] or [key_uses_index]), which it cannot touch. *)
Definition lift {O A : Type} (m : State O A) : State (O * bool) A :=
  fun '(o, cell) => let '(a, o') := m o in (a, (o', cell)).

Definition lift_strategy {O : Type} (s : Strategy O) : Strategy (O * bool) :=
  {| read := (fun f n => lift (f n)) <$> read s;
     assign := (fun f n v => lift (f n v)) <$> assign s;
     mutate := (fun f n v => lift (f n v)) <$> mutate s |}.

(** [uses_index = true] and [key_uses_index = true] *)
Definition set_cell {O : Type} : State (O * bool) unit :=
  fun '(o, _) => (tt, (o, true)).

(** [Set.add] on a set of identifier objects, in insertion order. *)
Definition set_add (s : list scope.IdentifierObject) (x : scope.IdentifierObject)
  : list scope.IdentifierObject :=
  if existsb (fun y => Nat.eqb (scope.ref y) (scope.ref x)) s then s else s ++ [x].

Definition collect_parent_each_blocks {W : Type} (context : client.ComponentContext W)
  : list AST.EachBlock :=
  omap (fun n => match n with AST.EachBlock_ block => Some block | _ => None end)
    (client.path context).

(** What [EachBlock] does to its context: whether it pushed a comment
    onto the template, and what it pushed onto [init]. *)
Record Effects : Type := {
  push_comment : bool;
  init : list Node
}.

(** What the visitor takes from the rest of the compiler.  [O] is the
    state of the rest of the compiler: what the visitors and the name
    generators called from here may change. *)
Class Imports (O : Type) : Type := {
  (** the constants of constants.js *)
  EACH_INDEX_REACTIVE : Z;
  EACH_IS_ANIMATED : Z;
  EACH_IS_CONTROLLED : Z;
  EACH_ITEM_IMMUTABLE : Z;
  EACH_ITEM_REACTIVE : Z;
  (** [dev] of state.js *)
  dev : bool;
  (** [extract_paths(param, initial)] of utils/ast.js *)
  extract_paths :
    Node -> Node -> list destructuring.Insert * list destructuring.Path;
  (** [build_expression(context, expression, metadata)] of shared/utils.js;
      the second argument is the scope that replaces the one of the state *)
  build_expression :
    client.ClientState O -> option scope.Scope -> Node ->
    AST.ExpressionMetadata -> State O Node;
  (** [context.visit(fragment, state)]: the body of the block that the
      template visitors make of a fragment *)
  visit_fragment :
    forall W : Type, client.ClientState W -> AST.Fragment -> State W (list Node);
  (** [scope.root.unique(name)] and [scope.generate(name)] *)
  unique : string -> State O scope.IdentifierObject;
  generate : string -> State O string;
  (** [add_svelte_meta(expression, node, type)] of shared/utils.js *)
  add_svelte_meta : Node -> AST.EachBlock -> string -> Node
}.

Section Visitor.
Context {O : Type} `{Imports O}.

(** [(flags & flag) !== 0] *)
Definition has_flag (flags flag : Z) : bool :=
  negb (int32.and flags flag =? 0)%Z.

(** *** The flags (lines 45-101) *)

Definition key_is_item (node : AST.EachBlock) : bool :=
  match AST.key node, AST.context node with
  | Some (Identifier key_name), Some (Identifier context_name) =>
      String.eqb context_name key_name
  | _, _ => false
  end.

Definition uses_store (node : AST.EachBlock) : bool :=
  existsb (fun binding => scope.kind_eqb (scope.kind binding) scope.store_sub)
    (AST.dependencies (AST.meta_expression (AST.metadata node))).

(** The second loop over the dependencies, with its [continue] and
    [break]; [reactive] is [!runes || !key_is_item || uses_store]. *)
Fixpoint mark_item_reactive (deps : list scope.Binding) (depth : Z)
  (reactive : bool) (flags : Z) : Z :=
  match deps with
  | [] => flags
  | binding :: rest =>
      if (depth <=? scope.scope_function_depth binding)%Z
      then mark_item_reactive rest depth reactive flags
      else if reactive
           then int32.or flags EACH_ITEM_REACTIVE
           else mark_item_reactive rest depth reactive flags
  end.

Definition carries_animate (child : AST.TemplateNode) : bool :=
  match child with
  | AST.RegularElement _ attributes _
  | AST.SvelteElement _ attributes _ => existsb AST.is_animate attributes
  | _ => false
  end.

Definition each_flags (node : AST.EachBlock) (state : client.ClientState O) : Z :=
  let meta := AST.metadata node in
  let flags := 0%Z in
  let flags :=
    if AST.keyed meta && truthy (AST.index node)
    then int32.or flags EACH_INDEX_REACTIVE else flags in
  let flags :=
    mark_item_reactive (AST.dependencies (AST.meta_expression meta))
      (scope.function_depth (client.scope state))
      (negb (client.runes state) || negb (key_is_item node) || uses_store node)
      flags in
  let flags :=
    if client.runes state && negb (uses_store node)
    then int32.or flags EACH_ITEM_IMMUTABLE else flags in
  let flags :=
    if truthy (AST.key node) && existsb carries_animate (AST.nodes (AST.body node))
    then int32.or flags EACH_IS_ANIMATED else flags in
  let flags :=
    if AST.is_controlled meta
    then int32.or flags EACH_IS_CONTROLLED else flags in
  flags.

(** *** The store to invalidate (lines 103-114) *)

Definition find_store_to_invalidate (node : AST.EachBlock)
  (state : client.ClientState O) : string :=
  match AST.expression node with
  | Identifier _ | MemberExpression _ _ _ =>
      match object (AST.expression node) with
      | Some id_name =>
          match scope.get (client.scope state) id_name with
          | Some binding =>
              if scope.kind_eqb (scope.kind binding) scope.store_sub
              then id_name else EmptyString
          | None => EmptyString
          end
      | None => EmptyString
      end
  | _ => EmptyString
  end.

(** *** The captured collection (lines 116-127) *)

(** [scope.parent?.get(name) != null] *)
Definition parent_resolves (s : scope.Scope) (name : string) : bool :=
  match scope.parent s with
  | Some p => truthy (scope.get p name)
  | None => false
  end.

Definition allocate_collection_id (s : scope.Scope)
  : State O (option scope.IdentifierObject) :=
  if existsb (fun entry => parent_resolves s entry.1) (scope.declarations s)
  then let* id := unique "$$array" in ret (Some id)
  else ret None.

(** *** The index (lines 143-164) *)

Definition index_of (node : AST.EachBlock) : Node :=
  match AST.index node with
  | Some name =>
      if AST.contains_group_binding (AST.metadata node)
      then AST.meta_index (AST.metadata node)
      else b.id name
  | None => AST.meta_index (AST.metadata node)
  end.

Definition item_of (node : AST.EachBlock) : Node :=
  match AST.context node with
  | Some (Identifier name) => Identifier name
  | _ => b.id "$$item"
  end.

Definition index_strategy (flags : Z) : Strategy (O * bool) :=
  reader (fun node =>
    let* _ := set_cell in
    ret (if has_flag flags EACH_INDEX_REACTIVE then get_value node else node)).

Definition key_index_strategy : Strategy (O * bool) :=
  reader (fun node => let* _ := set_cell in ret node).

Definition with_index (node : AST.EachBlock) (strategy : Strategy (O * bool))
  (table : gmap string (Strategy (O * bool))) : gmap string (Strategy (O * bool)) :=
  match AST.index node with
  | Some name => <[name := strategy]> table
  | None => table
  end.

(** *** The invalidation sequence (lines 166-213) *)

Definition invalidate_store (store_to_invalidate : string) : option Node :=
  if String.eqb store_to_invalidate EmptyString then None
  else Some (b.call "$.invalidate_store"
               [Some (b.id "$$stores");
                Some (b.literal (LString store_to_invalidate))]).

Definition add_bindings (s : list scope.IdentifierObject)
  (bindings : list scope.Binding) : list scope.IdentifierObject :=
  foldl (fun s binding => set_add s (scope.node binding)) s bindings.

Definition collect_transitive_deps (node : AST.EachBlock)
  (context : client.ComponentContext O)
  (collection_id : option scope.IdentifierObject) : list scope.IdentifierObject :=
  let own :=
    match collection_id with
    | Some id => set_add [] id
    | None => add_bindings [] (AST.transitive_deps (AST.metadata node))
    end in
  foldl (fun s block => add_bindings s (AST.transitive_deps (AST.metadata block)))
    own (collect_parent_each_blocks context).

(** The legacy branch: it may add the strategy of the captured
    collection to [child_state.transform], and it gives the
    [$.invalidate_inner_signals] call, if any. *)
Definition invalidate_inner_signals (node : AST.EachBlock)
  (context : client.ComponentContext O)
  (collection_id : option scope.IdentifierObject)
  (table : gmap string (Strategy (O * bool)))
  : State (O * bool) (gmap string (Strategy (O * bool)) * list Node) :=
  if client.runes (client.state context) then ret (table, [])
  else
    let table :=
      match collection_id with
      | Some id =>
          <[scope.name id := reader (fun node => ret (b.call node []))]> table
      | None => table
      end in
    let transitive_deps := collect_transitive_deps node context collection_id in
    if (0 <? length transitive_deps)%nat then
      let* visited :=
        map_state
          (fun dep => visit_expression table (Identifier (scope.name dep)))
          transitive_deps in
      ret (table,
           [b.call "$.invalidate_inner_signals"
              [Some (b.thunk (b.sequence visited) false)]])
    else ret (table, []).

Definition build_sequence (inner : list Node) (store_to_invalidate : string)
  : list Node :=
  match invalidate_store store_to_invalidate with
  | Some call => inner ++ [call]
  | None => inner
  end.

(** *** An identifier as item (lines 215-250) *)

(** [array[$$index]] *)
Definition indexed_collection (collection : Node)
  (collection_id : option scope.IdentifierObject) (flags : Z) (index : Node) : Node :=
  b.member
    (match collection_id with
     | Some id => b.call (b.id (scope.name id)) []
     | None => collection
     end)
    (if has_flag flags EACH_INDEX_REACTIVE then get_value index else index)
    true.

Definition item_strategy (binding : scope.Binding) (collection : Node)
  (collection_id : option scope.IdentifierObject) (flags : Z) (index : Node)
  (sequence : list Node) : Strategy (O * bool) :=
  {| read := Some (fun node =>
       ret (if scope.reassigned binding
            then indexed_collection collection collection_id flags index
            else if has_flag flags EACH_ITEM_REACTIVE then get_value node
            else node));
     assign := Some (fun _ value =>
       let* _ := set_cell in
       let left := indexed_collection collection collection_id flags index in
       ret (b.sequence (b.assignment "=" left value :: sequence)));
     mutate := Some (fun _ mutation =>
       let* _ := set_cell in
       ret (b.sequence (mutation :: sequence))) |}.

(** *** A destructuring pattern as item (lines 251-293) *)

(** The tables and the declarations the two loops work on. *)
Record Destructured : Type := {
  child_table : gmap string (Strategy (O * bool));
  key_table : gmap string (Strategy (O * bool));
  declared : list Node
}.

(** The first loop.  [names] holds the names the identifier objects
    of the inserts have so far: the objects are shared with the later
    inserts and with the paths, which are read with the names set by
    then. *)
Fixpoint declare_inserts (inserts : list destructuring.Insert)
  (names : destructuring.Names) (acc : Destructured)
  : State (O * bool) (destructuring.Names * Destructured) :=
  match inserts with
  | [] => ret (names, acc)
  | insert :: rest =>
      let* name := lift (generate "$$array") in
      let names := destructuring.set_name (destructuring.id insert) name names in
      let table :=
        <[name := reader (fun node => ret (get_value node))]> (child_table acc) in
      let* expression :=
        visit_expression table
          (b.thunk (destructuring.value insert names) false) in
      declare_inserts rest names
        {| child_table := table;
           key_table := key_table acc;
           declared := declared acc ++
             [b.var (Identifier name) (b.call "$.derived" [Some expression])] |}
  end.

Definition path_strategy (names : destructuring.Names) (path : destructuring.Path)
  (read : Node -> Node) (sequence : list Node) : Strategy (O * bool) :=
  {| read := Some (fun node => ret (read node));
     assign := Some (fun _ value =>
       let left := destructuring.update_expression path names in
       ret (b.sequence (b.assignment "=" left value :: sequence)));
     mutate := Some (fun _ mutation =>
       ret (b.sequence (mutation :: sequence))) |}.

(** The second loop; it runs when every insert has its name. *)
Fixpoint declare_paths (paths : list destructuring.Path)
  (names : destructuring.Names) (sequence : list Node)
  (acc : Destructured) : State (O * bool) Destructured :=
  match paths with
  | [] => ret acc
  | path :: rest =>
      let name := destructuring.name_of (destructuring.node path) in
      let needs_derived := destructuring.has_default_value path in
      let* visited :=
        visit_expression (child_table acc) (destructuring.expression path names) in
      let fn := b.thunk visited false in
      let declaration :=
        b.let_ (destructuring.node path)
          (if needs_derived then b.call "$.derived_safe_equal" [Some fn] else fn) in
      let read :=
        if needs_derived then get_value else (fun node => b.call node []) in
      declare_paths rest names sequence
        {| child_table :=
             <[name := path_strategy names path read sequence]> (child_table acc);
           key_table := delete name (key_table acc);
           declared := declared acc ++ [declaration] ++
             (if dev then [b.stmt (read (b.id name))] else []) |}
  end.

(** The strategies of the item.  For an identifier, the source takes
    the binding of the item for granted ([@type {Binding}]) and throws
    when a strategy first looks into a missing one; here the visitor
    throws at once. *)
Definition bind_item (node : AST.EachBlock) (state : client.ClientState O)
  (collection : Node) (collection_id : option scope.IdentifierObject)
  (flags : Z) (sequence : list Node) (acc : Destructured)
  : State (O * bool) (Result Destructured) :=
  match AST.context node with
  | Some (Identifier name) =>
      match scope.get (client.scope state) name with
      | Some binding =>
          ret (Ok
            {| child_table :=
                 <[name := item_strategy binding collection collection_id flags
                             (index_of node) sequence]> (child_table acc);
               key_table := delete name (key_table acc);
               declared := declared acc |})
      | None => ret Throws
      end
  | Some pattern =>
      let unwrapped :=
        if has_flag flags EACH_ITEM_REACTIVE
        then b.call "$.get" [Some (item_of node)] else item_of node in
      let '(inserts, paths) := extract_paths pattern unwrapped in
      let* (names, acc) := declare_inserts inserts destructuring.unnamed acc in
      let* acc := declare_paths paths names sequence acc in
      ret (Ok acc)
  | None => ret (Ok acc)
  end.

(** *** The body and the key (lines 129-139, 295-307) *)

Definition child_state (state : client.ClientState O)
  (table : gmap string (Strategy (O * bool))) (store_to_invalidate : string)
  : client.ClientState (O * bool) :=
  {| client.scope := client.scope state;
     client.runes := client.runes state;
     client.transform := table;
     client.store_to_invalidate := store_to_invalidate;
     client.node := client.node state |}.

(** Everything that runs with [uses_index] in reach: the strategies
    are installed and the body is lowered.  It gives the invalidation
    sequence, the tables, the declarations and the lowered body. *)
Definition lower_body (node : AST.EachBlock) (context : client.ComponentContext O)
  (collection : Node) (collection_id : option scope.IdentifierObject)
  (flags : Z) (store_to_invalidate : string)
  : State (O * bool) (Result (list Node * Destructured * list Node)) :=
  let state := client.state context in
  let inherited := lift_strategy <$> client.transform state in
  let child := with_index node (index_strategy flags) inherited in
  let key := with_index node key_index_strategy inherited in
  let* (child, inner) := invalidate_inner_signals node context collection_id child in
  let sequence := build_sequence inner store_to_invalidate in
  let* bound :=
    bind_item node state collection collection_id flags sequence
      {| child_table := child; key_table := key; declared := [] |} in
  match bound with
  | Ok acc =>
      let* block :=
        visit_fragment (O * bool)
          (child_state state (child_table acc) store_to_invalidate)
          (AST.body node) in
      ret (Ok (sequence, acc, block))
  | Throws => ret Throws
  end.

Definition get_cell : State (O * bool) bool :=
  fun '(o, cell) => (cell, (o, cell)).

(** The key function; it runs with [key_uses_index] in reach.  "Can only
    be keyed when a context is provided": a keyed block without a key or
    without an item does not give a function. *)
Definition build_key_function (node : AST.EachBlock)
  (key_table : gmap string (Strategy (O * bool))) (index : Node)
  : State (O * bool) (Result Node) :=
  if AST.keyed (AST.metadata node) then
    match AST.key node, AST.context node with
    | Some key, Some pattern =>
        let* expression := visit_expression key_table key in
        let* key_uses_index := get_cell in
        ret (Ok (b.arrow (if key_uses_index then [pattern; index] else [pattern])
                   expression))
    | _, _ => ret Throws
    end
  else ret (Ok (b.id "$.index")).

(** *** The call (lines 309-342) *)

(** The locals of [EachBlock] when it reaches its last statement. *)
Record Locals : Type := {
  collection : Node;
  flags : Z;
  store_to_invalidate : string;
  collection_id : option scope.IdentifierObject;
  index : Node;
  item : Node;
  sequence : list Node;
  child_transform : gmap string (Strategy (O * bool));
  key_transform : gmap string (Strategy (O * bool));
  uses_index : bool;
  key_uses_index : bool;
  declarations : list Node;
  block : list Node;
  key_function : Node;
  get_collection : Node;
  thunk : Node;
  render_args : list Node;
  args : list Node;
  statements : list Node
}.

Definition identifier_of (id : scope.IdentifierObject) : Node :=
  Identifier (scope.name id).

Definition build_render_args (item index : Node) (uses_index : bool)
  (collection_id : option scope.IdentifierObject) : list Node :=
  [b.id "$$anchor"; item]
  ++ (if uses_index || truthy collection_id then [index] else [])
  ++ (match collection_id with Some id => [identifier_of id] | None => [] end).

(** The fallback, lowered with the state of the context (lines 332-336). *)
Definition lower_fallback (node : AST.EachBlock) (state : client.ClientState O)
  : State O (list Node) :=
  match AST.fallback node with
  | Some fragment =>
      let* body := visit_fragment O state fragment in
      ret [b.arrow [b.id "$$anchor"] (b.block body)]
  | None => ret []
  end.

(** The arguments and the statements, once everything is lowered. *)
Definition assemble (node : AST.EachBlock) (state : client.ClientState O)
  (collection : Node) (collection_id : option scope.IdentifierObject)
  (sequence : list Node) (tables : Destructured) (block : list Node)
  (uses_index : bool) (key_function : Node) (key_uses_index : bool)
  (fallback : list Node) : Locals :=
  let meta := AST.metadata node in
  let flags := each_flags node state in
  let index := index_of node in
  let item := item_of node in
  let declarations :=
    declared tables ++
    match AST.index node with
    | Some name =>
        if AST.contains_group_binding meta
        then [b.let_ (b.id name) index] else []
    | None => []
    end in
  let has_await := AST.has_await (AST.meta_expression meta) in
  let get_collection := b.thunk collection has_await in
  let thunk :=
    if has_await
    then b.thunk (b.call "$.get" [Some (b.id "$$collection")]) false
    else get_collection in
  let render_args := build_render_args item index uses_index collection_id in
  let args :=
    [client.node state; b.literal (LNumber flags); thunk; key_function;
     b.arrow render_args (b.block (declarations ++ block))]
    ++ fallback in
  let statements :=
    (if dev && AST.keyed meta
     then [b.stmt (b.call "$.validate_each_keys" [Some thunk; Some key_function])]
     else [])
    ++ [add_svelte_meta (b.call "$.each" (Some <$> args)) node "each"] in
  {| collection := collection;
     flags := flags;
     store_to_invalidate := find_store_to_invalidate node state;
     collection_id := collection_id;
     index := index;
     item := item;
     sequence := sequence;
     child_transform := child_table tables;
     key_transform := key_table tables;
     uses_index := uses_index;
     key_uses_index := key_uses_index;
     declarations := declarations;
     block := block;
     key_function := key_function;
     get_collection := get_collection;
     thunk := thunk;
     render_args := render_args;
     args := args;
     statements := statements |}.

Definition lower (node : AST.EachBlock) (context : client.ComponentContext O)
  : State O (Result Locals) :=
  fun o =>
  let state := client.state context in
  let meta := AST.metadata node in
  let '(collection, o) :=
    build_expression state (scope.parent (client.scope state))
      (AST.expression node) (AST.meta_expression meta) o in
  let flags := each_flags node state in
  let store_to_invalidate := find_store_to_invalidate node state in
  let '(collection_id, o) := allocate_collection_id (client.scope state) o in
  let '(lowered, (o, uses_index)) :=
    lower_body node context collection collection_id flags store_to_invalidate
      (o, AST.contains_group_binding meta) in
  match lowered with
  | Throws => (Throws, o)
  | Ok (sequence, tables, block) =>
      let '(key_function, (o, key_uses_index)) :=
        build_key_function node (key_table tables) (index_of node) (o, false) in
      match key_function with
      | Throws => (Throws, o)
      | Ok key_function =>
          let '(fallback, o) := lower_fallback node state o in
          (Ok (assemble node state collection collection_id sequence tables block
                 uses_index key_function key_uses_index fallback), o)
      end
  end.

(** *** What is pushed (lines 41-43, 344-357) *)

Definition async_registration (state : client.ClientState O) (l : Locals) : Node :=
  b.stmt
    (b.call "$.async"
       [Some (client.node state);
        Some (b.array [get_collection l]);
        Some (b.arrow [client.node state; b.id "$$collection"]
                (b.block (statements l)))]).

Definition EachBlock (node : AST.EachBlock) (context : client.ComponentContext O)
  : State O (Result Effects) :=
  let* locals := lower node context in
  match locals with
  | Ok l =>
      ret (Ok
        {| push_comment := negb (AST.is_controlled (AST.metadata node));
           init :=
             if AST.has_await (AST.meta_expression (AST.metadata node))
             then [async_registration (client.state context) l]
             else statements l |})
  | Throws => ret Throws
  end.

End Visitor.

End EachBlockVisitor.

(** ** Notions the properties are stated with *)

Module Notions.
Import EachBlockVisitor.

(** The flag constants are bits of their own: positive 31-bit numbers,
    no two of which share a bit. *)
Fixpoint pairwise_disjoint (l : list Z) : bool :=
  match l with
  | [] => true
  | c :: rest => forallb (fun d => Z.land c d =? 0)%Z rest && pairwise_disjoint rest
  end.

Definition independent_flags {O : Type} `{Imports O} : bool :=
  let constants :=
    [EACH_ITEM_REACTIVE; EACH_INDEX_REACTIVE; EACH_IS_CONTROLLED;
     EACH_IS_ANIMATED; EACH_ITEM_IMMUTABLE] in
  forallb (fun c => (0 <? c)%Z && (c <? 2 ^ 31)%Z) constants
  && pairwise_disjoint constants.

(** The key expression is simply the item identifier itself. *)
Definition key_is_the_item (node : AST.EachBlock) : Prop :=
  exists name,
    AST.key node = Some (Identifier name)
    /\ AST.context node = Some (Identifier name).

(** The dependencies of the collection expression. *)
Definition collection_dependencies (node : AST.EachBlock) : list scope.Binding :=
  AST.dependencies (AST.meta_expression (AST.metadata node)).

(** What [lower] needs not to throw: a keyed block has a key and an
    item, and an item that is an identifier is declared in the scope of
    the block. *)
Definition well_formed {O : Type} (node : AST.EachBlock)
  (state : client.ClientState O) : bool :=
  implb (AST.keyed (AST.metadata node))
    (truthy (AST.key node) && truthy (AST.context node))
  && match AST.context node with
     | Some (Identifier name) => truthy (scope.get (client.scope state) name)
     | _ => true
     end.

(** The structural children of a body: every node but comments,
    [{@const}] tags and text that is only white space. *)
Definition is_white_space (c : Ascii.ascii) : bool :=
  let n := Ascii.nat_of_ascii c in
  Nat.eqb n 32 || (Nat.leb 9 n && Nat.leb n 13).

Fixpoint is_blank (data : string) : bool :=
  match data with
  | EmptyString => true
  | String c rest => is_white_space c && is_blank rest
  end.

Definition is_structural (child : AST.TemplateNode) : bool :=
  match child with
  | AST.Comment _ | AST.ConstTag _ => false
  | AST.Text data => negb (is_blank data)
  | _ => true
  end.

Definition structural_children (body : AST.Fragment) : list AST.TemplateNode :=
  List.filter is_structural (AST.nodes body).

(** What the analysis phase checks before [EachBlock] runs ("animate:
    can only appear on elements that are the sole child of a keyed each
    block"): a body with an [animate:] directive has one structural
    child. *)
Definition animate_on_sole_child (node : AST.EachBlock) : bool :=
  implb (existsb carries_animate (AST.nodes (AST.body node)))
    (Nat.eqb (length (structural_children (AST.body node))) 1).

(** An element with an [animate:] directive among its attributes. *)
Definition animated_element (child : AST.TemplateNode) : Prop :=
  exists attributes directive,
    ((exists name fragment, child = AST.RegularElement name attributes fragment)
     \/ (exists tag fragment, child = AST.SvelteElement tag attributes fragment))
    /\ In (AST.AnimateDirective directive) attributes.

(** The names of the leaves of a pattern. *)
Definition path_names (paths : list destructuring.Path) : list string :=
  (fun path => destructuring.name_of (destructuring.node path)) <$> paths.

(** The names the item pattern binds, as [EachBlock] takes them out of
    the key state. *)
Definition item_names {O : Type} `{Imports O} (node : AST.EachBlock)
  (state : client.ClientState O) : list string :=
  match AST.context node with
  | Some (Identifier name) => [name]
  | Some pattern =>
      let unwrapped :=
        if has_flag (each_flags node state) EACH_ITEM_REACTIVE
        then b.call "$.get" [Some (item_of node)] else item_of node in
      path_names (extract_paths pattern unwrapped).2
  | None => []
  end.

(** The index is a name of its own, not one of the item. *)
Definition index_is_distinct {O : Type} `{Imports O} (node : AST.EachBlock)
  (state : client.ClientState O) : bool :=
  match AST.index node with
  | Some i => negb (existsb (String.eqb i) (item_names node state))
  | None => true
  end.

(** The generic visitor meets a reference to the binding of the index,
    if there is one, in [n]. *)
Definition reads_index (index : option string) (n : Node) : bool :=
  match index with
  | Some i => transformers.reads i n
  | None => false
  end.

(** The key expression reads the index binding. *)
Definition key_reads_index (node : AST.EachBlock) : bool :=
  match AST.key node with
  | Some key => reads_index (AST.index node) key
  | None => false
  end.

(** A computation that sets the cell ([uses_index], [key_uses_index])
    exactly when [r] holds, and never clears it. *)
Definition adds {O A : Type} (m : State (O * bool) A) (r : bool) : Prop :=
  forall o cell, (m (o, cell)).2.2 = cell || r.

(** A strategy that leaves the cell as it is. *)
Definition keeps_cell {O : Type} (s : transformers.Strategy (O * bool)) : Prop :=
  (forall f, transformers.read s = Some f -> forall n, adds (f n) false)
  /\ (forall f, transformers.assign s = Some f -> forall n v, adds (f n v) false)
  /\ (forall f, transformers.mutate s = Some f -> forall n v, adds (f n v) false).

(** Some name declared in the scope also resolves in an ancestor scope. *)
Definition shadows_ancestor (s : scope.Scope) : Prop :=
  exists name binding p outer,
    In (name, binding) (scope.declarations s)
    /\ scope.parent s = Some p
    /\ scope.get p name = Some outer.

Definition is_declaration (n : Node) : bool :=
  match n with VariableDeclaration _ _ _ => true | _ => false end.

(** A declaration whose value is a call of the function named [f]. *)
Definition declares_call (f : string) (n : Node) : bool :=
  match n with
  | VariableDeclaration _ _ (CallExpression (Identifier g) _) => String.eqb g f
  | _ => false
  end.

(** A declaration of a derived value: [$.derived(...)] or
    [$.derived_safe_equal(...)]. *)
Definition is_derived_declaration (n : Node) : bool :=
  declares_call "$.derived" n || declares_call "$.derived_safe_equal" n.

(** [n] is a call of the function named [f]. *)
Definition is_call_of (f : string) (n : Node) : bool :=
  match n with
  | CallExpression (Identifier g) _ => String.eqb g f
  | _ => false
  end.

(** Where the first call of [f] stands in a list of expressions. *)
Fixpoint position_of_call (f : string) (expressions : list Node) : option nat :=
  match expressions with
  | [] => None
  | e :: rest =>
      if is_call_of f e then Some 0%nat
      else S <$> position_of_call f rest
  end.

(** Both calls are there, the one of [f] before the one of [g]. *)
Definition call_precedes (f g : string) (n : Node) : bool :=
  match n with
  | SequenceExpression expressions =>
      match position_of_call f expressions, position_of_call g expressions with
      | Some i, Some j => Nat.ltb i j
      | _, _ => false
      end
  | _ => false
  end.

(** The number of elements of [l] that satisfy [f]. *)
Definition count {A : Type} (f : A -> bool) (l : list A) : nat :=
  length (List.filter f l).

(** What the visitor pushes onto [init] is built from the locals [l]:
    the [$.each] call has the arguments of [l], the last of the first
    five being the item renderer, whose body is the declarations of [l]
    followed by the lowered body of the block; the call is pushed after
    the validation of the keys, if there is one, as it is or inside the
    [$.async] registration. *)
Definition pushes {O : Type} `{Imports O} (node : AST.EachBlock)
  (context : client.ComponentContext O) (l : @Locals O) (effects : Effects) : Prop :=
  (exists fallback,
     args l
     = [client.node (client.state context);
        b.literal (LNumber (flags l)); thunk l; key_function l;
        b.arrow (render_args l) (b.block (declarations l ++ block l))]
       ++ fallback)
  /\ statements l
     = (if dev && AST.keyed (AST.metadata node)
        then [b.stmt (b.call "$.validate_each_keys"
                        [Some (thunk l); Some (key_function l)])]
        else [])
       ++ [add_svelte_meta (b.call "$.each" (Some <$> args l)) node "each"]
  /\ init effects
     = if AST.has_await (AST.meta_expression (AST.metadata node))
       then [b.stmt
               (b.call "$.async"
                  [Some (client.node (client.state context));
                   Some (b.array [get_collection l]);
                   Some (b.arrow
                           [client.node (client.state context);
                            b.id "$$collection"]
                           (b.block (statements l)))])]
       else statements l.

End Notions.

(** ** The bits of the flags *)

Module FlagNotions.
Import EachBlockVisitor Notions.

Local Open Scope Z_scope.

(** [c] if [enabled], no bit otherwise. *)
Definition mask (enabled : bool) (c : Z) : Z := if enabled then c else 0.

Section Flags.
Context {O : Type} `{Imports O}.

(** What [independent_flags] says, fact by fact. *)
Record Independent : Prop := {
  item_pos : 0 < EACH_ITEM_REACTIVE;
  index_pos : 0 < EACH_INDEX_REACTIVE;
  controlled_pos : 0 < EACH_IS_CONTROLLED;
  animated_pos : 0 < EACH_IS_ANIMATED;
  immutable_pos : 0 < EACH_ITEM_IMMUTABLE;
  item_small : int32.small EACH_ITEM_REACTIVE;
  index_small : int32.small EACH_INDEX_REACTIVE;
  controlled_small : int32.small EACH_IS_CONTROLLED;
  animated_small : int32.small EACH_IS_ANIMATED;
  immutable_small : int32.small EACH_ITEM_IMMUTABLE;
  item_index : Z.land EACH_ITEM_REACTIVE EACH_INDEX_REACTIVE = 0;
  item_controlled : Z.land EACH_ITEM_REACTIVE EACH_IS_CONTROLLED = 0;
  item_animated : Z.land EACH_ITEM_REACTIVE EACH_IS_ANIMATED = 0;
  item_immutable : Z.land EACH_ITEM_REACTIVE EACH_ITEM_IMMUTABLE = 0;
  index_controlled : Z.land EACH_INDEX_REACTIVE EACH_IS_CONTROLLED = 0;
  index_animated : Z.land EACH_INDEX_REACTIVE EACH_IS_ANIMATED = 0;
  index_immutable : Z.land EACH_INDEX_REACTIVE EACH_ITEM_IMMUTABLE = 0;
  controlled_animated : Z.land EACH_IS_CONTROLLED EACH_IS_ANIMATED = 0;
  controlled_immutable : Z.land EACH_IS_CONTROLLED EACH_ITEM_IMMUTABLE = 0;
  animated_immutable : Z.land EACH_IS_ANIMATED EACH_ITEM_IMMUTABLE = 0
}.

(** A dependency declared at a shallower function depth than the
    scope of the block. *)
Definition shallower (depth : Z) (binding : scope.Binding) : bool :=
  scope.scope_function_depth binding <? depth.

(** The conditions under which [each_flags] sets each bit. *)
Definition index_reactive_when (node : AST.EachBlock) : bool :=
  AST.keyed (AST.metadata node) && truthy (AST.index node).

Definition item_reactive_when (node : AST.EachBlock)
  (state : client.ClientState O) : bool :=
  existsb (shallower (scope.function_depth (client.scope state)))
    (AST.dependencies (AST.meta_expression (AST.metadata node)))
  && (negb (client.runes state) || negb (key_is_item node) || uses_store node).

Definition immutable_when (node : AST.EachBlock)
  (state : client.ClientState O) : bool :=
  client.runes state && negb (uses_store node).

Definition animated_when (node : AST.EachBlock) : bool :=
  truthy (AST.key node) && existsb carries_animate (AST.nodes (AST.body node)).

End Flags.

End FlagNotions.

(** ** The calls that are logged *)

Module CallNotions.
Import CallExpressionVisitor.

Section Calls.
Context {O : Type} `{Imports O}.

(** What the last [if] tests. *)
Definition captures_log (node : CallNode) (scope : scope.Scope)
  (method : string) : Prop :=
  dev = true
  /\ (exists computed,
        callee node
        = MemberExpression (Identifier "console") (Identifier method) computed)
  /\ In method logging_methods
  /\ scope.get scope "console" = None
  /\ exists arg,
       In arg (arguments node)
       /\ (is_SpreadElement arg = true \/ has_unknown scope arg = true).

End Calls.

End CallNotions.

(** ** Concrete components and collaborators

    Small inputs on which the visitors can be run: the collaborators are
    instantiated with simple stand-ins and [O] with [unit]. *)

Module Sample.
Import EachBlockVisitor.

(** The constants as constants.js has them. *)
Definition INDEX_REACTIVE : Z := Z.shiftl 1 1.
Definition IS_ANIMATED : Z := Z.shiftl 1 3.
Definition IS_CONTROLLED : Z := Z.shiftl 1 2.
Definition ITEM_IMMUTABLE : Z := Z.shiftl 1 4.
Definition ITEM_REACTIVE : Z := 1.

Fixpoint expression_tags (nodes : list AST.TemplateNode) : list Node :=
  match nodes with
  | [] => []
  | AST.ExpressionTag e :: rest => e :: expression_tags rest
  | _ :: rest => expression_tags rest
  end.

(** A fragment visitor that lowers the expression tags of the fragment
    and makes a statement of each. *)
Definition visit_tags (W : Type) (state : client.ClientState W)
  (fragment : AST.Fragment) : State W (list Node) :=
  map_state
    (fun e =>
       let* e' := transformers.visit_expression (client.transform state) e in
       ret (b.stmt e'))
    (expression_tags (AST.nodes fragment)).

Definition imports (dev : bool)
  (extract_paths : Node -> Node -> list destructuring.Insert * list destructuring.Path)
  : Imports unit :=
  {| EACH_INDEX_REACTIVE := INDEX_REACTIVE;
     EACH_IS_ANIMATED := IS_ANIMATED;
     EACH_IS_CONTROLLED := IS_CONTROLLED;
     EACH_ITEM_IMMUTABLE := ITEM_IMMUTABLE;
     EACH_ITEM_REACTIVE := ITEM_REACTIVE;
     EachBlockVisitor.dev := dev;
     EachBlockVisitor.extract_paths := extract_paths;
     build_expression := fun state _ expression _ =>
       transformers.visit_expression (client.transform state) expression;
     visit_fragment := visit_tags;
     unique := fun name => ret {| scope.ref := 0; scope.name := name |};
     generate := fun name => ret name;
     add_svelte_meta := fun expression _ _ => b.stmt expression |}.

Definition no_paths (_ _ : Node)
  : list destructuring.Insert * list destructuring.Path := ([], []).

Definition binding (kind : scope.BindingKind) (reassigned : bool) (ref : nat)
  (name : string) (depth : Z) : scope.Binding :=
  {| scope.kind := kind;
     scope.reassigned := reassigned;
     scope.node := {| scope.ref := ref; scope.name := name |};
     scope.scope_function_depth := depth |}.

Definition items_binding : scope.Binding := binding scope.normal false 1 "items" 0.
Definition store_binding : scope.Binding := binding scope.store_sub false 2 "$items" 0.
Definition x_binding : scope.Binding := binding scope.normal true 3 "x" 0.

(** The scope of the component: [items], [$items] and [x]. *)
Definition instance_scope : scope.Scope :=
  {| scope.declarations :=
       [("items", items_binding); ("$items", store_binding); ("x", x_binding)];
     scope.parent := None;
     scope.function_depth := 0 |}.

(** The scope of an each block that declares [names]. *)
Definition each_scope (reassigned : bool) (names : list string) : scope.Scope :=
  {| scope.declarations :=
       (fun name => (name, binding scope.each reassigned 10 name 1)) <$> names;
     scope.parent := Some instance_scope;
     scope.function_depth := 1 |}.

(** The strategy of a store subscription: [$items] is read as [$items()]. *)
Definition inherited : gmap string (transformers.Strategy unit) :=
  {[ "$items" := transformers.reader (fun node => ret (b.call node [])) ]}.

Definition context (runes reassigned : bool) (names : list string)
  : client.ComponentContext unit :=
  {| client.state :=
       {| client.scope := each_scope reassigned names;
          client.runes := runes;
          client.transform := inherited;
          client.store_to_invalidate := EmptyString;
          client.node := b.id "node" |};
     client.path := [] |}.

Definition metadata (deps transitive : list scope.Binding) (keyed has_await : bool)
  : AST.EachBlockMetadata :=
  {| AST.meta_expression := {| AST.dependencies := deps; AST.has_await := has_await |};
     AST.keyed := keyed;
     AST.contains_group_binding := false;
     AST.meta_index := b.id "$$index";
     AST.is_controlled := false;
     AST.transitive_deps := transitive |}.

(** [{#each $items as item, i}{item = x}{item}{/each}] *)
Definition store_each : AST.EachBlock :=
  {| AST.expression := Identifier "$items";
     AST.context := Some (Identifier "item");
     AST.index := Some "i";
     AST.key := None;
     AST.body :=
       {| AST.nodes :=
            [AST.ExpressionTag (AssignmentExpression "=" (Identifier "item") (Identifier "x"));
             AST.ExpressionTag (Identifier "item")] |};
     AST.fallback := None;
     AST.metadata := metadata [store_binding] [store_binding] false false |}.

(** [{#each items as item, i (key(item, i))}<li animate:flip>{item}</li>{/each}] *)
Definition keyed_each (has_await : bool) : AST.EachBlock :=
  {| AST.expression := Identifier "items";
     AST.context := Some (Identifier "item");
     AST.index := Some "i";
     AST.key := Some (CallExpression (Identifier "key") [Identifier "item"; Identifier "i"]);
     AST.body :=
       {| AST.nodes :=
            [AST.Text " ";
             AST.RegularElement "li" [AST.AnimateDirective "flip"]
               [AST.ExpressionTag (Identifier "item")];
             AST.Comment "one item"] |};
     AST.fallback := None;
     AST.metadata := metadata [items_binding] [] true has_await |}.

(** [{#each items as { a, b = f() }}{b}{/each}] *)
Definition pattern : Node :=
  ObjectPattern
    [Property (Identifier "a") (Identifier "a");
     Property (Identifier "b")
       (AssignmentPattern (Identifier "b") (CallExpression (Identifier "f") []))].

Definition destructured_each : AST.EachBlock :=
  {| AST.expression := Identifier "items";
     AST.context := Some pattern;
     AST.index := None;
     AST.key := None;
     AST.body := {| AST.nodes := [AST.ExpressionTag (Identifier "b")] |};
     AST.fallback := None;
     AST.metadata := metadata [items_binding] [] false false |}.

(** What [extract_paths] makes of [{ a, b = f() }]: two leaves, the
    second with the default value in its expression, and no insert. *)
Definition pattern_paths (param initial : Node)
  : list destructuring.Insert * list destructuring.Path :=
  ([],
   [ {| destructuring.node := Identifier "a";
        destructuring.is_rest := false;
        destructuring.has_default_value := false;
        destructuring.expression := fun _ => b.member initial (b.id "a") false;
        destructuring.update_expression :=
          fun _ => b.member initial (b.id "a") false |};
     {| destructuring.node := Identifier "b";
        destructuring.is_rest := false;
        destructuring.has_default_value := true;
        destructuring.expression := fun _ =>
          b.call "$.fallback"
            [Some (b.member initial (b.id "b") false);
             Some (b.thunk (CallExpression (Identifier "f") []) false)];
        destructuring.update_expression :=
          fun _ => b.member initial (b.id "b") false |} ]).

(** [{#each items as [a]}{a}{/each}]: one insert for the array, one leaf. *)
Definition array_each : AST.EachBlock :=
  {| AST.expression := Identifier "items";
     AST.context := Some (ArrayPattern [Identifier "a"]);
     AST.index := None;
     AST.key := None;
     AST.body := {| AST.nodes := [AST.ExpressionTag (Identifier "a")] |};
     AST.fallback := None;
     AST.metadata := metadata [items_binding] [] false false |}.

Definition array_paths (param initial : Node)
  : list destructuring.Insert * list destructuring.Path :=
  ([ {| destructuring.id := 0%nat;
        destructuring.value := fun _ =>
          b.call "$.to_array" [Some initial; Some (b.literal (LNumber 1))] |} ],
   [ {| destructuring.node := Identifier "a";
        destructuring.is_rest := false;
        destructuring.has_default_value := false;
        destructuring.expression := fun names =>
          b.member (Identifier (names 0%nat)) (b.literal (LNumber 0)) true;
        destructuring.update_expression := fun names =>
          b.member (Identifier (names 0%nat)) (b.literal (LNumber 0)) true |} ]).

(** The collaborators and the contexts the blocks above are lowered with:
    [store_each] in legacy mode, with a reassigned item; the others in
    runes mode. *)
Definition legacy_imports : Imports unit := imports false no_paths.
Definition pattern_imports : Imports unit := imports false pattern_paths.
Definition array_imports : Imports unit := imports true array_paths.
Definition store_context : client.ComponentContext unit :=
  context false true ["item"; "i"].
Definition keyed_context : client.ComponentContext unit :=
  context true false ["item"; "i"].
Definition pattern_context : client.ComponentContext unit :=
  context true false ["a"; "b"].
Definition array_context : client.ComponentContext unit :=
  context true false ["a"].

(** [item = x], as it stands in the body of [store_each]. *)
Definition reassignment : Node :=
  AssignmentExpression "=" (Identifier "item") (Identifier "x").

(** A call node and the collaborators of [CallExpression]. *)
Definition known_runes : list string :=
  CallExpressionVisitor.recognized_runes ++ ["$props"; "$effect"; "$bindable"].

Fixpoint rune_name (callee : Node) : option string :=
  match callee with
  | Identifier name => Some name
  | MemberExpression o (Identifier p) false =>
      match rune_name o with
      | Some name => Some (name +:+ "." +:+ p)
      | None => None
      end
  | _ => None
  end.

Definition call_imports (dev : bool) : CallExpressionVisitor.Imports unit :=
  {| CallExpressionVisitor.dev := dev;
     CallExpressionVisitor.get_rune := fun node _ =>
       match rune_name (CallExpressionVisitor.callee node) with
       | Some name => if bool_decide (name ∈ known_runes) then Some name else None
       | None => None
       end;
     CallExpressionVisitor.visit := fun node => ret node;
     CallExpressionVisitor.visit_in_derived := fun _ node => ret node;
     CallExpressionVisitor.should_proxy := fun node _ =>
       match node with ArrayExpression _ => true | _ => false end;
     CallExpressionVisitor.is_ignored := fun _ _ => false;
     CallExpressionVisitor.transform_inspect_rune := fun node =>
       ret (CallExpression (CallExpressionVisitor.callee node)
              (CallExpressionVisitor.arguments node));
     CallExpressionVisitor.has_unknown := fun _ node =>
       match node with Literal _ => false | _ => true end |}.

(** [console.log(count)] *)
Definition console_log : CallExpressionVisitor.CallNode :=
  {| CallExpressionVisitor.callee :=
       MemberExpression (Identifier "console") (Identifier "log") false;
     CallExpressionVisitor.arguments := [Identifier "count"] |}.

(** [$state()] and [$state.raw()] *)
Definition state_call (raw : bool) (arguments : list Node)
  : CallExpressionVisitor.CallNode :=
  {| CallExpressionVisitor.callee :=
       if raw then MemberExpression (Identifier "$state") (Identifier "raw") false
       else Identifier "$state";
     CallExpressionVisitor.arguments := arguments |}.

End Sample.


(** ** Notions for the properties of the rest of the two visitors *)

Module MoreNotions.
Import EachBlockVisitor Notions.

(** The names at which the generic visitor looks a strategy up in [n]:
    the references, the identifiers assigned to and the identifiers
    whose members are assigned to. *)
Fixpoint references (n : Node) : list string :=
  match n with
  | Identifier name => [name]
  | MemberExpression o p c => references o ++ (if c then references p else [])
  | CallExpression f args => references f ++ List.flat_map references args
  | ArrowFunctionExpression _ body _ => references body
  | SequenceExpression es => List.flat_map references es
  | AssignmentExpression _ l r => references l ++ references r
  | UnaryExpression _ a => references a
  | SpreadElement a => references a
  | ArrayExpression es => List.flat_map references es
  | BlockStatement body => List.flat_map references body
  | ExpressionStatement e => references e
  | VariableDeclaration _ _ e => references e
  | OtherExpression _ es => List.flat_map references es
  | Literal _ | ObjectPattern _ | ArrayPattern _ | AssignmentPattern _ _
  | RestElement _ | Property _ _ => []
  end.

(** How a leaf of a destructuring pattern is read in the body:
    [$.get(name)] when the leaf has a default value, [name()] otherwise. *)
Definition leaf_read (path : destructuring.Path) (node : Node) : Node :=
  if destructuring.has_default_value path
  then get_value node else b.call node [].

Section Leaves.
Context {O : Type} `{Imports O}.

(** The statements a leaf of a destructuring pattern gives, for the
    thunk [fn] of its lowered expression: its declaration and, in a
    development build, the statement that reads it at once. *)
Definition leaf_statements (path : destructuring.Path) (fn : Node) : list Node :=
  [b.let_ (destructuring.node path)
     (if destructuring.has_default_value path
      then b.call "$.derived_safe_equal" [Some fn] else fn)]
  ++ (if dev
      then [b.stmt (leaf_read path
                      (b.id (destructuring.name_of (destructuring.node path))))]
      else []).

(** The alias of the index that a group binding asks for. *)
Definition index_alias (node : AST.EachBlock) : list Node :=
  match AST.index node with
  | Some name =>
      if AST.contains_group_binding (AST.metadata node)
      then [b.let_ (b.id name) (index_of node)] else []
  | None => []
  end.

End Leaves.

(** [{#each items as x, i}{x = 1}{:else}{x}{/each}], in a component that
    has an [x] of its own. *)
Definition shadow_each : AST.EachBlock :=
  {| AST.expression := Identifier "items";
     AST.context := Some (Identifier "x");
     AST.index := Some "i";
     AST.key := None;
     AST.body :=
       {| AST.nodes :=
            [AST.ExpressionTag
               (AssignmentExpression "=" (Identifier "x") (Literal (LNumber 1)))] |};
     AST.fallback := Some {| AST.nodes := [AST.ExpressionTag (Identifier "x")] |};
     AST.metadata := Sample.metadata [Sample.items_binding] [] false false |}.

Definition shadow_context : client.ComponentContext unit :=
  Sample.context false true ["x"; "i"].

(** [{#each items as item, i (item.id)}{/each}] inside the body of
    [Sample.store_each]. *)
Definition nested_each : AST.EachBlock :=
  {| AST.expression := Identifier "items";
     AST.context := Some (Identifier "item");
     AST.index := Some "i";
     AST.key := Some (MemberExpression (Identifier "item") (Identifier "id") false);
     AST.body := {| AST.nodes := [] |};
     AST.fallback := None;
     AST.metadata := Sample.metadata [Sample.items_binding] [Sample.items_binding] true false |}.

Definition nested_context : client.ComponentContext unit :=
  {| client.state := client.state Sample.store_context;
     client.path := [AST.OtherNode "Fragment"; AST.EachBlock_ Sample.store_each] |}.

(** [{#each items as item, i (((i) => i)(item.id))}{/each}]: the key
    holds a function whose parameter has the name of the index, and no
    reference to the index of the block. *)
Definition shadowing_key : Node :=
  CallExpression
    (ArrowFunctionExpression [Identifier "i"] (Identifier "i") false)
    [MemberExpression (Identifier "item") (Identifier "id") false].

Definition shadowing_key_each : AST.EachBlock :=
  {| AST.expression := Identifier "items";
     AST.context := Some (Identifier "item");
     AST.index := Some "i";
     AST.key := Some shadowing_key;
     AST.body := {| AST.nodes := [] |};
     AST.fallback := None;
     AST.metadata := Sample.metadata [Sample.items_binding] [] true false |}.

(** [{#each items as [[a], b]}{/each}]: two inserts, one for the item
    and one for the array inside it, whose value reads the identifier
    of the first; the names are generated with a counter. *)
Definition nested_pattern : Node :=
  ArrayPattern [ArrayPattern [Identifier "a"]; Identifier "b"].

Definition nested_pattern_each : AST.EachBlock :=
  {| AST.expression := Identifier "items";
     AST.context := Some nested_pattern;
     AST.index := None;
     AST.key := None;
     AST.body := {| AST.nodes := [] |};
     AST.fallback := None;
     AST.metadata := Sample.metadata [Sample.items_binding] [] false false |}.

Definition nested_pattern_paths (param initial : Node)
  : list destructuring.Insert * list destructuring.Path :=
  ([ {| destructuring.id := 0%nat;
        destructuring.value := fun _ =>
          b.call "$.to_array" [Some initial; Some (b.literal (LNumber 2))] |};
     {| destructuring.id := 1%nat;
        destructuring.value := fun names =>
          b.call "$.to_array"
            [Some (b.member (Identifier (names 0%nat)) (b.literal (LNumber 0)) true);
             Some (b.literal (LNumber 1))] |} ],
   [ {| destructuring.node := Identifier "a";
        destructuring.is_rest := false;
        destructuring.has_default_value := false;
        destructuring.expression := fun names =>
          b.member (Identifier (names 1%nat)) (b.literal (LNumber 0)) true;
        destructuring.update_expression := fun names =>
          b.member (Identifier (names 1%nat)) (b.literal (LNumber 0)) true |};
     {| destructuring.node := Identifier "b";
        destructuring.is_rest := false;
        destructuring.has_default_value := false;
        destructuring.expression := fun names =>
          b.member (Identifier (names 0%nat)) (b.literal (LNumber 1)) true;
        destructuring.update_expression := fun names =>
          b.member (Identifier (names 0%nat)) (b.literal (LNumber 1)) true |} ]).

Definition counting_imports : Imports nat :=
  {| EACH_INDEX_REACTIVE := Sample.INDEX_REACTIVE;
     EACH_IS_ANIMATED := Sample.IS_ANIMATED;
     EACH_IS_CONTROLLED := Sample.IS_CONTROLLED;
     EACH_ITEM_IMMUTABLE := Sample.ITEM_IMMUTABLE;
     EACH_ITEM_REACTIVE := Sample.ITEM_REACTIVE;
     EachBlockVisitor.dev := false;
     EachBlockVisitor.extract_paths := nested_pattern_paths;
     build_expression := fun state _ expression _ =>
       transformers.visit_expression (client.transform state) expression;
     visit_fragment := Sample.visit_tags;
     unique := fun name => ret {| scope.ref := 0; scope.name := name |};
     generate := fun name used =>
       (match used with
        | O => name
        | S O => name +:+ "_1"
        | _ => name +:+ "_n"
        end, S used);
     add_svelte_meta := fun expression _ _ => b.stmt expression |}.

Definition nested_pattern_context : client.ComponentContext nat :=
  {| client.state :=
       {| client.scope := Sample.each_scope false ["a"; "b"];
          client.runes := true;
          client.transform := ∅;
          client.store_to_invalidate := EmptyString;
          client.node := b.id "node" |};
     client.path := [] |}.

(** [$derived(count * 2)], [$derived.by(fn)], [$effect.root(a, b)] and
    [$state.snapshot(value)]. *)
Definition rune_call (callee : Node) (arguments : list Node)
  : CallExpressionVisitor.CallNode :=
  {| CallExpressionVisitor.callee := callee;
     CallExpressionVisitor.arguments := arguments |}.

Definition derived_call : CallExpressionVisitor.CallNode :=
  rune_call (Identifier "$derived") [Identifier "count"].

Definition effect_root_call : CallExpressionVisitor.CallNode :=
  rune_call (MemberExpression (Identifier "$effect") (Identifier "root") false)
    [Identifier "a"; Identifier "b"].

Definition snapshot_call : CallExpressionVisitor.CallNode :=
  rune_call (MemberExpression (Identifier "$state") (Identifier "snapshot") false)
    [Identifier "value"].

Definition host_call : CallExpressionVisitor.CallNode :=
  rune_call (Identifier "$host") [].

End MoreNotions.


(** * Properties *)

(** ** 32-bit arithmetic on small numbers *)

Module int32_facts.

Local Open Scope Z_scope.

Abbreviation small := int32.small.

Lemma small_shiftr x : small x <-> Z.shiftr x 31 = 0.
Proof.
  unfold int32.small. rewrite Z.shiftr_div_pow2 by lia. split.
  - intros Hx. apply Z.div_small. lia.
  - intros Hx. apply Z.div_small_iff in Hx; lia.
Qed.

Lemma to_int32_small x : small x -> int32.to_int32 x = x.
Proof.
  unfold int32.small, int32.to_int32. intros Hx.
  rewrite Z.mod_small; lia.
Qed.

Lemma lor_small x y : small x -> small y -> small (Z.lor x y).
Proof.
  rewrite !small_shiftr, Z.shiftr_lor. intros -> ->. reflexivity.
Qed.

Lemma land_small x y : small x -> small y -> small (Z.land x y).
Proof.
  rewrite !small_shiftr, Z.shiftr_land. intros -> ->. reflexivity.
Qed.

Lemma or_small x y : small x -> small y -> int32.or x y = Z.lor x y.
Proof.
  intros Hx Hy. unfold int32.or.
  rewrite (to_int32_small x), (to_int32_small y) by assumption.
  apply to_int32_small, lor_small; assumption.
Qed.

Lemma and_small x y : small x -> small y -> int32.and x y = Z.land x y.
Proof.
  intros Hx Hy. unfold int32.and.
  rewrite (to_int32_small x), (to_int32_small y) by assumption.
  apply to_int32_small, land_small; assumption.
Qed.

Lemma small_0 : small 0.
Proof. unfold int32.small. lia. Qed.

End int32_facts.

(** ** The flags *)

Module FlagProofs.
Import EachBlockVisitor Notions FlagNotions int32_facts.

Local Open Scope Z_scope.

Section Flags.
Context {O : Type} `{Imports O}.

Lemma independent_flags_facts : independent_flags = true -> Independent.
Proof.
  unfold independent_flags. cbn [forallb pairwise_disjoint].
  intros Hall.
  repeat match goal with
         | Hc : _ && _ = true |- _ => apply andb_prop in Hc; destruct Hc
         end.
  repeat match goal with
         | Hc : (_ <? _) = true |- _ => apply Z.ltb_lt in Hc
         | Hc : (_ =? _) = true |- _ => apply Z.eqb_eq in Hc
         end.
  constructor; unfold int32.small; first [assumption | lia].
Qed.

Lemma mask_small enabled c : small c -> small (mask enabled c).
Proof. destruct enabled; simpl; auto using small_0. Qed.

Lemma or_mask (flags : Z) (enabled : bool) (c : Z) :
  small flags -> small c ->
  (if enabled then int32.or flags c else flags) = Z.lor flags (mask enabled c).
Proof.
  intros Hf Hc. destruct enabled; simpl.
  - apply or_small; assumption.
  - rewrite Z.lor_0_r. reflexivity.
Qed.

Lemma mark_item_reactive_lor deps depth reactive flags :
  small flags -> small EACH_ITEM_REACTIVE ->
  mark_item_reactive deps depth reactive flags
  = Z.lor flags (mask (existsb (shallower depth) deps && reactive) EACH_ITEM_REACTIVE).
Proof.
  intros Hf Hc. induction deps as [|binding rest IH]; simpl.
  - rewrite Z.lor_0_r. reflexivity.
  - unfold shallower at 1. rewrite Z.ltb_antisym.
    destruct (depth <=? scope.scope_function_depth binding); simpl.
    + exact IH.
    + destruct reactive; simpl.
      * apply or_small; assumption.
      * rewrite IH, andb_false_r. reflexivity.
Qed.

Ltac solve_small :=
  repeat first [assumption | apply small_0 | apply mask_small | apply lor_small].

Lemma each_flags_lor node state :
  Independent ->
  each_flags node state
  = Z.lor (Z.lor (Z.lor (Z.lor
      (mask (index_reactive_when node) EACH_INDEX_REACTIVE)
      (mask (item_reactive_when node state) EACH_ITEM_REACTIVE))
      (mask (immutable_when node state) EACH_ITEM_IMMUTABLE))
      (mask (animated_when node) EACH_IS_ANIMATED))
      (mask (AST.is_controlled (AST.metadata node)) EACH_IS_CONTROLLED).
Proof.
  intros [].
  unfold each_flags, index_reactive_when, item_reactive_when, immutable_when,
    animated_when.
  rewrite (or_mask 0) by solve_small.
  rewrite Z.lor_0_l.
  rewrite mark_item_reactive_lor by solve_small.
  rewrite (or_mask (Z.lor (mask _ _) (mask _ _))) by solve_small.
  rewrite (or_mask (Z.lor (Z.lor (mask _ _) (mask _ _)) (mask _ _))) by solve_small.
  rewrite or_mask by solve_small.
  reflexivity.
Qed.

Lemma each_flags_small node state : Independent -> small (each_flags node state).
Proof.
  intros Hind. rewrite each_flags_lor by assumption.
  destruct Hind. solve_small.
Qed.

Lemma land_mask_same enabled c : Z.land (mask enabled c) c = mask enabled c.
Proof. destruct enabled; simpl; [apply Z.land_diag | reflexivity]. Qed.

Lemma land_mask_other enabled c d : Z.land c d = 0 -> Z.land (mask enabled c) d = 0.
Proof. destruct enabled; simpl; [auto | reflexivity]. Qed.

Lemma mask_nonzero enabled c : 0 < c -> negb (mask enabled c =? 0) = enabled.
Proof.
  intros Hc. destruct enabled; simpl; [| reflexivity].
  destruct (Z.eqb_spec c 0); [lia | reflexivity].
Qed.

Ltac flag_bit Hind :=
  unfold has_flag;
  rewrite and_small by (first [apply each_flags_small; assumption | destruct Hind; assumption]);
  rewrite each_flags_lor by assumption;
  destruct Hind;
  rewrite !Z.land_lor_distr_l;
  rewrite ?land_mask_same;
  rewrite ?land_mask_other by (assumption || (rewrite Z.land_comm; assumption));
  rewrite ?Z.lor_0_l, ?Z.lor_0_r;
  apply mask_nonzero; assumption.

Lemma has_item_reactive node state :
  Independent ->
  has_flag (each_flags node state) EACH_ITEM_REACTIVE = item_reactive_when node state.
Proof. intros Hind. flag_bit Hind. Qed.

Lemma has_index_reactive node state :
  Independent ->
  has_flag (each_flags node state) EACH_INDEX_REACTIVE = index_reactive_when node.
Proof. intros Hind. flag_bit Hind. Qed.

Lemma has_animated node state :
  Independent ->
  has_flag (each_flags node state) EACH_IS_ANIMATED = animated_when node.
Proof. intros Hind. flag_bit Hind. Qed.

Lemma has_immutable node state :
  Independent ->
  has_flag (each_flags node state) EACH_ITEM_IMMUTABLE = immutable_when node state.
Proof. intros Hind. flag_bit Hind. Qed.

End Flags.

End FlagProofs.

Module FlagClaims.
Import EachBlockVisitor Notions FlagNotions int32_facts FlagProofs.

Lemma kind_eqb_eq a c : scope.kind_eqb a c = true <-> a = c.
Proof. destruct a, c; simpl; split; congruence. Qed.

Lemma key_is_item_spec node : key_is_item node = true <-> key_is_the_item node.
Proof.
  unfold key_is_item, key_is_the_item. split.
  - destruct (AST.key node) as [[] |]; try discriminate.
    destruct (AST.context node) as [[] |]; try discriminate.
    intros Heq. apply String.eqb_eq in Heq. subst. eauto.
  - intros (name & -> & ->). apply String.eqb_refl.
Qed.

Lemma uses_store_spec node :
  uses_store node = true <->
  exists binding,
    In binding (collection_dependencies node)
    /\ scope.kind binding = scope.store_sub.
Proof.
  unfold uses_store, collection_dependencies. rewrite existsb_exists.
  split; intros (binding & Hin & Hkind); exists binding; split; auto;
    apply kind_eqb_eq; assumption.
Qed.

Lemma carries_animate_spec child :
  carries_animate child = true <-> animated_element child.
Proof.
  unfold animated_element. split.
  - destruct child; simpl; try discriminate; intros Hex;
      apply existsb_exists in Hex; destruct Hex as ([] & Hin & Hanimate);
      try discriminate; eauto 10.
  - intros (attributes & directive & [(name & fragment & ->) | (tag & fragment & ->)] & Hin);
      simpl; apply existsb_exists; eexists; split; eauto.
Qed.

Lemma carries_animate_structural child :
  carries_animate child = true -> is_structural child = true.
Proof. destruct child; simpl; intros; congruence. Qed.

(** C4: the item-is-reactive flag is set if and only if some dependency
    of the collection expression is declared at a shallower function
    depth than the scope of the block and, besides, legacy mode is
    active or the key is not simply the item identifier or some
    dependency is a store subscription.  In runes mode, without a store
    dependency and with the item itself as key, the flag is clear. *)
Theorem item_reactive_flag {O : Type} `{Imports O}
  (node : AST.EachBlock) (state : client.ClientState O) :
  independent_flags = true ->
  (has_flag (each_flags node state) EACH_ITEM_REACTIVE = true <->
     (exists binding,
        In binding (collection_dependencies node)
        /\ (scope.scope_function_depth binding
            < scope.function_depth (client.scope state))%Z)
     /\ (client.runes state = false
         \/ ~ key_is_the_item node
         \/ exists binding,
              In binding (collection_dependencies node)
              /\ scope.kind binding = scope.store_sub))
  /\ (client.runes state = true ->
      (forall binding,
         In binding (collection_dependencies node) ->
         scope.kind binding <> scope.store_sub) ->
      key_is_the_item node ->
      has_flag (each_flags node state) EACH_ITEM_REACTIVE = false).
Proof.
  intros Hind. apply independent_flags_facts in Hind.
  rewrite has_item_reactive by assumption.
  unfold item_reactive_when.
  assert (Hiff :
    existsb (shallower (scope.function_depth (client.scope state)))
      (AST.dependencies (AST.meta_expression (AST.metadata node)))
    && (negb (client.runes state) || negb (key_is_item node) || uses_store node) = true
    <-> (exists binding,
           In binding (collection_dependencies node)
           /\ (scope.scope_function_depth binding
               < scope.function_depth (client.scope state))%Z)
        /\ (client.runes state = false
            \/ ~ key_is_the_item node
            \/ exists binding,
                 In binding (collection_dependencies node)
                 /\ scope.kind binding = scope.store_sub)).
  { rewrite andb_true_iff, !orb_true_iff, !negb_true_iff, existsb_exists.
    rewrite uses_store_spec, <- key_is_item_spec.
    rewrite not_true_iff_false.
    unfold shallower, collection_dependencies.
    setoid_rewrite Z.ltb_lt. tauto. }
  split; [exact Hiff |].
  intros Hrunes Hstore Hkey.
  apply not_true_iff_false. rewrite Hiff.
  intros (_ & [Hlegacy | [Hnot | (binding & Hin & Hkind)]]).
  - congruence.
  - exact (Hnot Hkey).
  - exact (Hstore binding Hin Hkind).
Qed.

Lemma item_reactive_flag_witness :
  @independent_flags unit (Sample.imports false Sample.no_paths) = true
  /\ has_flag
       (@each_flags unit (Sample.imports false Sample.no_paths) Sample.store_each
          (client.state (Sample.context false true ["item"; "i"])))
       Sample.ITEM_REACTIVE = true.
Proof.
  split; [reflexivity |].
  apply (@item_reactive_flag unit (Sample.imports false Sample.no_paths)
           Sample.store_each
           (client.state (Sample.context false true ["item"; "i"]))).
  - reflexivity.
  - split.
    + exists Sample.store_binding. split; [left; reflexivity | reflexivity].
    + left. reflexivity.
Defined.

(** C3: for a body that passed the placement check of [animate:], the
    animated flag is set if and only if the block has a key and the one
    structural child of its body is an element with the [animate:]
    directive; a body with no or with several structural children never
    sets the flag. *)
Theorem animated_flag {O : Type} `{Imports O}
  (node : AST.EachBlock) (state : client.ClientState O) :
  independent_flags = true ->
  animate_on_sole_child node = true ->
  (has_flag (each_flags node state) EACH_IS_ANIMATED = true <->
     (exists key, AST.key node = Some key)
     /\ exists child,
          structural_children (AST.body node) = [child]
          /\ animated_element child)
  /\ (length (structural_children (AST.body node)) <> 1%nat ->
      has_flag (each_flags node state) EACH_IS_ANIMATED = false).
Proof.
  intros Hind Hsole. apply independent_flags_facts in Hind.
  rewrite has_animated by assumption.
  unfold animated_when, animate_on_sole_child, structural_children in *.
  split; [split |].
  - intros Hset. apply andb_prop in Hset. destruct Hset as [Hkey Hsome].
    rewrite Hsome in Hsole. simpl in Hsole. apply Nat.eqb_eq in Hsole.
    split.
    + destruct (AST.key node) as [key |]; [eauto | discriminate].
    + apply existsb_exists in Hsome. destruct Hsome as (animated & Hin & Hcarries).
      assert (Hfiltered : In animated (List.filter is_structural (AST.nodes (AST.body node)))).
      { apply filter_In. auto using carries_animate_structural. }
      destruct (List.filter is_structural (AST.nodes (AST.body node)))
        as [| child [| other rest]]; try discriminate.
      exists child. split; [reflexivity |].
      destruct Hfiltered as [-> | []]. apply carries_animate_spec. assumption.
  - intros ((key & Hkey) & child & Hchildren & Hanimated).
    rewrite Hkey. simpl. apply existsb_exists. exists child. split.
    + assert (Hin : In child (List.filter is_structural (AST.nodes (AST.body node)))).
      { rewrite Hchildren. left. reflexivity. }
      apply filter_In in Hin. tauto.
    + apply carries_animate_spec. assumption.
  - intros Hlength.
    destruct (existsb carries_animate (AST.nodes (AST.body node))).
    + simpl in Hsole. apply Nat.eqb_eq in Hsole. contradiction.
    + apply andb_false_r.
Qed.

Lemma animated_flag_witness :
  @independent_flags unit (Sample.imports false Sample.no_paths) = true
  /\ animate_on_sole_child (Sample.keyed_each false) = true
  /\ has_flag
       (@each_flags unit (Sample.imports false Sample.no_paths) (Sample.keyed_each false)
          (client.state (Sample.context true false ["item"; "i"])))
       Sample.IS_ANIMATED = true.
Proof.
  split; [reflexivity |]. split; [reflexivity |].
  apply (@animated_flag unit (Sample.imports false Sample.no_paths)
           (Sample.keyed_each false)
           (client.state (Sample.context true false ["item"; "i"]))).
  - reflexivity.
  - reflexivity.
  - split; [eexists; reflexivity |].
    eexists. split; [reflexivity |].
    exists [AST.AnimateDirective "flip"], "flip". split.
    + left. eexists _, _. reflexivity.
    + left. reflexivity.
Defined.

End FlagClaims.

(** ** How [lower] runs *)

Module LowerProofs.
Import transformers EachBlockVisitor Notions.

Section Lower.
Context {O : Type} `{Imports O}.

Lemma well_formed_keyed node (state : client.ClientState O) :
  well_formed node state = true ->
  AST.keyed (AST.metadata node) = true ->
  exists key pattern, AST.key node = Some key /\ AST.context node = Some pattern.
Proof.
  unfold well_formed. intros Hwf Hkeyed. rewrite Hkeyed in Hwf.
  destruct (AST.key node) as [key |]; [| discriminate].
  destruct (AST.context node) as [pattern |]; [| discriminate].
  eauto.
Qed.

Lemma well_formed_item node (state : client.ClientState O) name :
  well_formed node state = true ->
  AST.context node = Some (Identifier name) ->
  exists binding, scope.get (client.scope state) name = Some binding.
Proof.
  unfold well_formed. intros Hwf Hcontext. rewrite Hcontext in Hwf.
  apply andb_prop in Hwf. destruct Hwf as [_ Hget].
  destruct (scope.get (client.scope state) name) as [binding |]; [eauto | discriminate].
Qed.

Lemma bind_item_identifier node state collection collection_id flags sequence
  acc name binding w :
  AST.context node = Some (Identifier name) ->
  scope.get (client.scope state) name = Some binding ->
  bind_item node state collection collection_id flags sequence acc w
  = (Ok {| child_table :=
             <[name := item_strategy binding collection collection_id flags
                         (index_of node) sequence]> (child_table acc);
           key_table := delete name (key_table acc);
           declared := declared acc |}, w).
Proof.
  intros Hcontext Hget. unfold bind_item. rewrite Hcontext, Hget. reflexivity.
Qed.

Lemma bind_item_ok node state collection collection_id flags sequence acc w :
  well_formed node state = true ->
  exists tables w',
    bind_item node state collection collection_id flags sequence acc w
    = (Ok tables, w').
Proof.
  intros Hwf. unfold bind_item.
  destruct (AST.context node) as [pattern |] eqn:Hcontext; [| eexists _, _; reflexivity].
  destruct pattern;
    try (destruct (extract_paths _ _) as [inserts paths]; unfold bind;
         destruct (declare_inserts _ _ _ _) as [[names acc'] w'];
         destruct (declare_paths _ _ _ _ _) as [acc'' w''];
         eexists _, _; reflexivity).
  destruct (well_formed_item _ _ _ Hwf Hcontext) as [binding ->].
  eexists _, _; reflexivity.
Qed.

Lemma build_key_function_unkeyed node
  (table : gmap string (Strategy (O * bool))) index w :
  AST.keyed (AST.metadata node) = false ->
  build_key_function node table index w = (Ok (b.id "$.index"), w).
Proof. intros Hkeyed. unfold build_key_function. rewrite Hkeyed. reflexivity. Qed.

Lemma build_key_function_keyed node
  (table : gmap string (Strategy (O * bool))) index o key pattern :
  AST.keyed (AST.metadata node) = true ->
  AST.key node = Some key ->
  AST.context node = Some pattern ->
  build_key_function node table index (o, false)
  = let '(expression, (o', key_uses_index)) :=
      visit_expression table key (o, false) in
    (Ok (b.arrow (if key_uses_index then [pattern; index] else [pattern]) expression),
     (o', key_uses_index)).
Proof.
  intros Hkeyed Hkey Hcontext. unfold build_key_function.
  rewrite Hkeyed, Hkey, Hcontext. unfold bind.
  destruct (visit_expression table key (o, false)) as [expression [o' cell]].
  reflexivity.
Qed.

Lemma build_key_function_ok node (state : client.ClientState O)
  (table : gmap string (Strategy (O * bool))) index o :
  well_formed node state = true ->
  exists key_function o' key_uses_index,
    build_key_function node table index (o, false)
    = (Ok key_function, (o', key_uses_index)).
Proof.
  intros Hwf. destruct (AST.keyed (AST.metadata node)) eqn:Hkeyed.
  - destruct (well_formed_keyed _ _ Hwf Hkeyed) as (key & pattern & Hkey & Hcontext).
    rewrite (build_key_function_keyed _ _ _ _ key pattern) by assumption.
    destruct (visit_expression table key (o, false)) as [expression [o' cell]].
    eexists _, _, _. reflexivity.
  - rewrite build_key_function_unkeyed by assumption.
    eexists _, _, _. reflexivity.
Qed.

(** A well-formed block is lowered without a throw; the steps of
    [lower] are named. *)
Lemma lower_run node context o :
  let state := client.state context in
  let inherited := lift_strategy <$> client.transform state in
  let store := find_store_to_invalidate node state in
  let flags := each_flags node state in
  well_formed node state = true ->
  exists collection o1 collection_id o2 child inner w1 tables w2 block o3
         uses_index key_function o4 key_uses_index fallback o5,
    build_expression state (scope.parent (client.scope state))
      (AST.expression node) (AST.meta_expression (AST.metadata node)) o
    = (collection, o1)
    /\ allocate_collection_id (client.scope state) o1 = (collection_id, o2)
    /\ invalidate_inner_signals node context collection_id
         (with_index node (index_strategy flags) inherited)
         (o2, AST.contains_group_binding (AST.metadata node))
       = ((child, inner), w1)
    /\ bind_item node state collection collection_id flags
         (build_sequence inner store)
         {| child_table := child;
            key_table := with_index node key_index_strategy inherited;
            declared := [] |} w1
       = (Ok tables, w2)
    /\ visit_fragment (O * bool) (child_state state (child_table tables) store)
         (AST.body node) w2
       = (block, (o3, uses_index))
    /\ build_key_function node (key_table tables) (index_of node) (o3, false)
       = (Ok key_function, (o4, key_uses_index))
    /\ lower_fallback node state o4 = (fallback, o5)
    /\ lower node context o
       = (Ok (assemble node state collection collection_id
                (build_sequence inner store) tables block uses_index
                key_function key_uses_index fallback), o5).
Proof.
  intros state inherited store flags Hwf. unfold lower, lower_body, bind.
  fold state. fold inherited. fold store. fold flags.
  destruct (build_expression _ _ _ _ o) as [collection o1] eqn:Hcollection.
  destruct (allocate_collection_id _ o1) as [collection_id o2] eqn:Hid.
  destruct (invalidate_inner_signals _ _ _ _ _) as [[child inner] w1] eqn:Hinner.
  destruct (bind_item_ok node state collection collection_id flags
              (build_sequence inner store)
              {| child_table := child;
                 key_table := with_index node key_index_strategy inherited;
                 declared := [] |} w1 Hwf) as (tables & w2 & Hbind).
  rewrite Hbind.
  destruct (visit_fragment _ _ _ w2) as [block [o3 uses_index]] eqn:Hblock.
  unfold ret.
  destruct (build_key_function_ok node state (key_table tables) (index_of node) o3 Hwf)
    as (key_function & o4 & key_uses_index & Hkey).
  rewrite Hkey.
  destruct (lower_fallback node state o4) as [fallback o5] eqn:Hfallback.
  eexists _, _, _, _, _, _, _, _, _, _, _, _, _, _, _, _, _.
  repeat (split; [first [eassumption | reflexivity] |]).
  reflexivity.
Qed.

(** What is pushed is built from the locals. *)
Lemma lower_pushes node (context : client.ComponentContext O) o l o' :
  lower node context o = (Ok l, o') ->
  (forall collection collection_id sequence tables block uses_index key_function
          key_uses_index fallback,
     l = assemble node (client.state context) collection collection_id sequence
           tables block uses_index key_function key_uses_index fallback ->
     exists effects,
       EachBlock node context o = (Ok effects, o')
       /\ pushes node context l effects).
Proof.
  intros Hlower collection collection_id sequence tables block uses_index
    key_function key_uses_index fallback ->.
  eexists. split; [unfold EachBlock, bind; rewrite Hlower; reflexivity |].
  unfold pushes, assemble, async_registration. simpl.
  split; [eexists; reflexivity |]. split; reflexivity.
Qed.

End Lower.

End LowerProofs.

(** ** What the generic visitor does to the cell *)

Module VisitorProofs.
Import transformers EachBlockVisitor Notions.

Section Cell.
Context {O : Type}.

Lemma adds_ret {A : Type} (a : A) : adds (O := O) (ret a) false.
Proof. intros o cell. simpl. rewrite orb_false_r. reflexivity. Qed.

Lemma adds_bind {A B : Type} (m : State (O * bool) A)
  (k : A -> State (O * bool) B) (r1 r2 r : bool) :
  adds m r1 -> (forall a, adds (k a) r2) -> r = r1 || r2 -> adds (bind m k) r.
Proof.
  intros Hm Hk -> o cell. unfold bind. specialize (Hm o cell).
  destruct (m (o, cell)) as [a [o' cell']]. simpl in Hm. subst cell'.
  rewrite (Hk a o'). symmetry. apply orb_assoc.
Qed.

Lemma adds_ext {A : Type} (m m' : State (O * bool) A) (r : bool) :
  (forall w, m' w = m w) -> adds m r -> adds m' r.
Proof. intros Heq Hm o cell. rewrite Heq. apply Hm. Qed.

Lemma adds_map_state {A B : Type} (f : A -> State (O * bool) B)
  (R : A -> bool) (l : list A) :
  Forall (fun a => adds (f a) (R a)) l -> adds (map_state f l) (existsb R l).
Proof.
  induction 1 as [| a l Ha Hl IH]; simpl.
  - apply adds_ret.
  - eapply adds_bind; [exact Ha | | reflexivity].
    intros b. eapply adds_bind; [exact IH | | ].
    + intros bs. apply adds_ret.
    + rewrite orb_false_r. reflexivity.
Qed.

Lemma adds_lift {A : Type} (m : State O A) : adds (lift m) false.
Proof.
  intros o cell. unfold lift. destruct (m o) as [a o']. simpl.
  rewrite orb_false_r. reflexivity.
Qed.

Lemma adds_set_cell : adds (O := O) set_cell true.
Proof. intros o cell. simpl. rewrite orb_true_r. reflexivity. Qed.

Lemma lift_strategy_keeps (s : Strategy O) : keeps_cell (lift_strategy s).
Proof.
  unfold keeps_cell, lift_strategy. simpl. repeat split.
  - destruct (read s); simpl; intros f Hf; inversion Hf; subst.
    intros n. apply adds_lift.
  - destruct (assign s); simpl; intros f Hf; inversion Hf; subst.
    intros n v. apply adds_lift.
  - destruct (mutate s); simpl; intros f Hf; inversion Hf; subst.
    intros n v. apply adds_lift.
Qed.

(** The visitor on the nodes that hold lists of nodes. *)
Lemma visit_all_map_state (table : gmap string (Strategy (O * bool))) l w :
  (fix visit_all (table : gmap string (Strategy (O * bool))) (l : list Node)
     {struct l} : State (O * bool) (list Node) :=
     match l with
     | [] => ret []
     | x :: rest =>
         let* x' := visit_expression table x in
         let* rest' := visit_all table rest in
         ret (x' :: rest')
     end) table l w
  = map_state (visit_expression table) l w.
Proof.
  revert w. induction l as [| x rest IH]; intros w; [reflexivity |].
  simpl. unfold bind. destruct (visit_expression table x w) as [x' w'].
  rewrite IH. reflexivity.
Qed.

Lemma bind_ext_l {A B : Type} (m m' : State (O * bool) A)
  (k : A -> State (O * bool) B) w :
  (forall w, m w = m' w) -> bind m k w = bind m' k w.
Proof. intros Heq. unfold bind. rewrite Heq. reflexivity. Qed.

Lemma bind_ext_r {A B : Type} (m : State (O * bool) A)
  (k k' : A -> State (O * bool) B) w :
  (forall a w, k a w = k' a w) -> bind m k w = bind m k' w.
Proof. intros Heq. unfold bind. destruct (m w). apply Heq. Qed.

Lemma visit_expression_call table f args (w : O * bool) :
  visit_expression table (CallExpression f args) w
  = (let* f' := visit_expression table f in
     let* args' := map_state (visit_expression table) args in
     ret (CallExpression f' args')) w.
Proof.
  simpl. apply bind_ext_r. intros f' w'. apply bind_ext_l.
  apply visit_all_map_state.
Qed.

Lemma visit_expression_sequence table es (w : O * bool) :
  visit_expression table (SequenceExpression es) w
  = (let* es' := map_state (visit_expression table) es in
     ret (SequenceExpression es')) w.
Proof. simpl. apply bind_ext_l. apply visit_all_map_state. Qed.

Lemma visit_expression_array table es (w : O * bool) :
  visit_expression table (ArrayExpression es) w
  = (let* es' := map_state (visit_expression table) es in
     ret (ArrayExpression es')) w.
Proof. simpl. apply bind_ext_l. apply visit_all_map_state. Qed.

Lemma visit_expression_other table type es (w : O * bool) :
  visit_expression table (OtherExpression type es) w
  = (let* es' := map_state (visit_expression table) es in
     ret (OtherExpression type es')) w.
Proof. simpl. apply bind_ext_l. apply visit_all_map_state. Qed.

Lemma visit_expression_block table body (w : O * bool) :
  visit_expression table (BlockStatement body) w
  = (let* body' :=
       map_state (visit_expression (shadow (declared_names body) table)) body in
     ret (BlockStatement body')) w.
Proof. simpl. apply bind_ext_l. apply visit_all_map_state. Qed.

(** Inside a region that binds [names] anew, the table has lost the
    strategies of [names] and kept the other ones. *)
Lemma lookup_shadow (table : gmap string (Strategy (O * bool))) names name :
  shadow names table !! name
  = if existsb (String.eqb name) names then None else table !! name.
Proof.
  unfold shadow. induction names as [| x names IH]; [reflexivity |].
  simpl. destruct (String.eqb_spec name x) as [-> | Hne]; simpl.
  - apply lookup_delete_eq.
  - rewrite lookup_delete_ne by congruence. exact IH.
Qed.

Lemma reads_index_existsb (index : option string) es :
  reads_index index (SequenceExpression es) = existsb (reads_index index) es.
Proof.
  unfold reads_index. destruct index; simpl; [reflexivity |].
  induction es; simpl; auto.
Qed.

Lemma reads_index_call (index : option string) f es :
  reads_index index (CallExpression f es)
  = reads_index index f || existsb (reads_index index) es.
Proof.
  unfold reads_index. destruct index; simpl; [reflexivity |].
  induction es; simpl; auto.
Qed.

Section Table.
(** A table in which the strategy of the index, if there is an
    index, is the one of the key state, and every other strategy
    leaves the cell alone. *)
Variable table : gmap string (Strategy (O * bool)).
Variable index : option string.
Hypothesis index_strategy_installed :
  forall i, index = Some i -> table !! i = Some key_index_strategy.
Hypothesis others_keep_cell :
  forall name s, table !! name = Some s -> index <> Some name -> keeps_cell s.

Lemma reads_index_other name :
  index <> Some name -> reads_index index (Identifier name) = false.
Proof.
  unfold reads_index. destruct index as [i |]; [| reflexivity].
  intros Hne. simpl. apply String.eqb_neq. congruence.
Qed.

Lemma read_adds name f :
  lookup_strategy table read name = Some f ->
  forall n, adds (f n) (reads_index index (Identifier name)).
Proof.
  unfold lookup_strategy. intros Hf n.
  destruct (table !! name) as [s |] eqn:Hs; [| discriminate].
  destruct (decide (index = Some name)) as [Hindex | Hother].
  - rewrite (index_strategy_installed _ Hindex) in Hs.
    inversion Hs; subst s. simpl in Hf. inversion Hf; subst f.
    rewrite Hindex. simpl. rewrite String.eqb_refl.
    eapply adds_bind; [apply adds_set_cell | | reflexivity].
    intros _. apply adds_ret.
  - rewrite reads_index_other by assumption.
    destruct (others_keep_cell _ _ Hs Hother) as (Hread & _ & _). auto.
Qed.

Lemma read_none name :
  lookup_strategy table read name = None ->
  reads_index index (Identifier name) = false.
Proof.
  unfold lookup_strategy. intros Hnone.
  destruct (decide (index = Some name)) as [Hindex | Hother].
  - rewrite (index_strategy_installed _ Hindex) in Hnone. discriminate.
  - apply reads_index_other. assumption.
Qed.

(** A reference to [name], held by the node [n]. *)
Lemma reference_adds name n :
  adds
    (match lookup_strategy table read name with
     | Some f => f n
     | None => ret n
     end)
    (reads_index index (Identifier name)).
Proof.
  destruct (lookup_strategy table read name) as [f |] eqn:Hf.
  - eapply read_adds. eassumption.
  - rewrite read_none by assumption. apply adds_ret.
Qed.

Lemma assign_adds name f :
  lookup_strategy table assign name = Some f ->
  forall n v, adds (f n v) false.
Proof.
  unfold lookup_strategy. intros Hf.
  destruct (table !! name) as [s |] eqn:Hs; [| discriminate].
  destruct (decide (index = Some name)) as [Hindex | Hother].
  - rewrite (index_strategy_installed _ Hindex) in Hs.
    inversion Hs; subst s. discriminate.
  - destruct (others_keep_cell _ _ Hs Hother) as (_ & Hassign & _). auto.
Qed.

Lemma mutate_adds name f :
  lookup_strategy table mutate name = Some f ->
  forall n v, adds (f n v) false.
Proof.
  unfold lookup_strategy. intros Hf.
  destruct (table !! name) as [s |] eqn:Hs; [| discriminate].
  destruct (decide (index = Some name)) as [Hindex | Hother].
  - rewrite (index_strategy_installed _ Hindex) in Hs.
    inversion Hs; subst s. discriminate.
  - destruct (others_keep_cell _ _ Hs Hother) as (_ & _ & Hmutate). auto.
Qed.

(** The assignment to an identifier: the value is lowered, then
    [assign] has the last word. *)
Lemma assignment_adds op name l r :
  adds (visit_expression table r) (reads_index index r) ->
  adds
    (let* value := visit_expression table r in
     match lookup_strategy table assign name with
     | Some f => f l value
     | None => ret (AssignmentExpression op l value)
     end)
    (reads_index index r).
Proof.
  intros Hr.
  eapply adds_bind; [exact Hr | | symmetry; apply orb_false_r].
  intros value.
  destruct (lookup_strategy table assign name) as [f |] eqn:Hf; [| apply adds_ret].
  eapply assign_adds. eassumption.
Qed.

(** The mutation of a member: both sides are lowered, then [mutate]
    wraps the assignment. *)
Lemma mutation_adds op l r :
  adds (visit_expression table l) (reads_index index l) ->
  adds (visit_expression table r) (reads_index index r) ->
  adds
    (let* l' := visit_expression table l in
     let* r' := visit_expression table r in
     match object l with
     | Some name =>
         match lookup_strategy table mutate name with
         | Some f => f (Identifier name) (AssignmentExpression op l' r')
         | None => ret (AssignmentExpression op l' r')
         end
     | None => ret (AssignmentExpression op l' r')
     end)
    (reads_index index l || reads_index index r).
Proof.
  intros Hl Hr.
  eapply adds_bind; [exact Hl | | reflexivity]. intros l'.
  eapply adds_bind; [exact Hr | | symmetry; apply orb_false_r]. intros r'.
  destruct (object l) as [name |]; [| apply adds_ret].
  destruct (lookup_strategy table mutate name) as [f |] eqn:Hf; [| apply adds_ret].
  eapply mutate_adds. eassumption.
Qed.

(** The table inside a region that binds [names] anew is a table of
    the same kind, for the index if it is not among [names] and for no
    index if it is. *)
Lemma shadow_index_strategy_installed names i :
  match index with
  | Some i => if existsb (String.eqb i) names then None else Some i
  | None => None
  end = Some i ->
  shadow names table !! i = Some key_index_strategy.
Proof.
  intros Hinner. rewrite lookup_shadow.
  destruct index as [i' |]; [| discriminate].
  destruct (existsb (String.eqb i') names) eqn:Hbound; [discriminate |].
  inversion Hinner; subst i'. rewrite Hbound.
  apply index_strategy_installed. reflexivity.
Qed.

Lemma shadow_others_keep_cell names name s :
  shadow names table !! name = Some s ->
  match index with
  | Some i => if existsb (String.eqb i) names then None else Some i
  | None => None
  end <> Some name ->
  keeps_cell s.
Proof.
  rewrite lookup_shadow.
  destruct (existsb (String.eqb name) names) eqn:Hbound; [discriminate |].
  intros Hs Hinner. apply (others_keep_cell _ _ Hs).
  intros Hindex. apply Hinner. rewrite Hindex, Hbound. reflexivity.
Qed.

End Table.

Lemma reads_index_shadow index names (n : Node) (whole : Node) :
  (forall i, reads i whole = negb (existsb (String.eqb i) names) && reads i n) ->
  reads_index index whole
  = reads_index
      match index with
      | Some i => if existsb (String.eqb i) names then None else Some i
      | None => None
      end n.
Proof.
  intros Hwhole. unfold reads_index. destruct index as [i |]; [| reflexivity].
  rewrite Hwhole. destruct (existsb (String.eqb i) names); reflexivity.
Qed.

(** Lowering [n] sets the cell exactly when [n] reads the binding of
    the index. *)
Lemma visit_expression_adds n :
  forall (index : option string) (table : gmap string (Strategy (O * bool))),
    (forall i, index = Some i -> table !! i = Some key_index_strategy) ->
    (forall name s, table !! name = Some s -> index <> Some name -> keeps_cell s) ->
    adds (visit_expression table n) (reads_index index n).
Proof.
  induction n using Node_nested_ind; intros index table Hinstalled Hothers.
  - apply reference_adds; assumption.
  - replace (reads_index index (Literal v)) with false
      by (unfold reads_index; destruct index; reflexivity).
    apply adds_ret.
  - simpl. eapply adds_bind; [exact (IHn1 _ _ Hinstalled Hothers) | |].
    + intros o'. eapply adds_bind with (r1 := c && reads_index index n2).
      * destruct c; [exact (IHn2 _ _ Hinstalled Hothers) | apply adds_ret].
      * intros p'. apply adds_ret.
      * reflexivity.
    + unfold reads_index. destruct index; simpl;
        rewrite ?andb_false_r, ?orb_false_r; reflexivity.
  - eapply adds_ext; [intros w; apply visit_expression_call |].
    eapply adds_bind; [exact (IHn _ _ Hinstalled Hothers) | |].
    + intros f'. eapply adds_bind; [apply adds_map_state | |].
      * eapply Forall_impl; [eassumption |]. intros a Ha. exact (Ha _ _ Hinstalled Hothers).
      * intros args'. apply adds_ret.
      * reflexivity.
    + rewrite reads_index_call, orb_false_r. reflexivity.
  - rewrite (reads_index_shadow index (parameter_names ps) n) by reflexivity.
    simpl. eapply adds_bind; [| | symmetry; apply orb_false_r].
    + apply (IHn _ (shadow (parameter_names ps) table)).
      * intros i Hi. eapply shadow_index_strategy_installed; eassumption.
      * intros name s Hs Hname. eapply shadow_others_keep_cell; eassumption.
    + intros body'. apply adds_ret.
  - eapply adds_ext; [intros w; apply visit_expression_sequence |].
    eapply adds_bind; [apply adds_map_state | |].
    + eapply Forall_impl; [eassumption |]. intros a Ha. exact (Ha _ _ Hinstalled Hothers).
    + intros es'. apply adds_ret.
    + rewrite reads_index_existsb, orb_false_r. reflexivity.
  - assert (Hwhole :
      reads_index index (AssignmentExpression op n1 n2)
      = if is_Identifier n1 then reads_index index n2
        else reads_index index n1 || reads_index index n2).
    { unfold reads_index. destruct index; destruct n1; reflexivity. }
    rewrite Hwhole.
    destruct n1;
      first [ apply mutation_adds; solve [auto]
            | apply assignment_adds; solve [auto] ].
  - simpl. eapply adds_bind; [exact (IHn _ _ Hinstalled Hothers) | |].
    + intros a'. apply adds_ret.
    + unfold reads_index. destruct index; simpl;
        rewrite ?andb_false_r, ?orb_false_r; reflexivity.
  - simpl. eapply adds_bind; [exact (IHn _ _ Hinstalled Hothers) | |].
    + intros a'. apply adds_ret.
    + unfold reads_index. destruct index; simpl;
        rewrite ?andb_false_r, ?orb_false_r; reflexivity.
  - eapply adds_ext; [intros w; apply visit_expression_array |].
    eapply adds_bind; [apply adds_map_state | |].
    + eapply Forall_impl; [eassumption |]. intros a Ha. exact (Ha _ _ Hinstalled Hothers).
    + intros es'. apply adds_ret.
    + rewrite <- reads_index_existsb, orb_false_r.
      unfold reads_index. destruct index; reflexivity.
  - replace (reads_index index (ObjectPattern ps)) with false
      by (unfold reads_index; destruct index; reflexivity).
    apply adds_ret.
  - replace (reads_index index (ArrayPattern es)) with false
      by (unfold reads_index; destruct index; reflexivity).
    apply adds_ret.
  - replace (reads_index index (AssignmentPattern n1 n2)) with false
      by (unfold reads_index; destruct index; reflexivity).
    apply adds_ret.
  - replace (reads_index index (RestElement n)) with false
      by (unfold reads_index; destruct index; reflexivity).
    apply adds_ret.
  - replace (reads_index index (Property n1 n2)) with false
      by (unfold reads_index; destruct index; reflexivity).
    apply adds_ret.
  - rewrite (reads_index_shadow index (declared_names body)
               (SequenceExpression body)) by reflexivity.
    eapply adds_ext; [intros w; apply visit_expression_block |].
    eapply adds_bind; [apply adds_map_state | |].
    + eapply Forall_impl; [eassumption |]. intros a Ha.
      apply (Ha match index with
                | Some i =>
                    if existsb (String.eqb i) (declared_names body)
                    then None else Some i
                | None => None
                end
               (shadow (declared_names body) table)).
      * intros i Hi. eapply shadow_index_strategy_installed; eassumption.
      * intros name s Hs Hname. eapply shadow_others_keep_cell; eassumption.
    + intros es'. apply adds_ret.
    + rewrite reads_index_existsb, orb_false_r. reflexivity.
  - simpl. eapply adds_bind; [exact (IHn _ _ Hinstalled Hothers) | |].
    + intros e'. apply adds_ret.
    + unfold reads_index. destruct index; simpl;
        rewrite ?andb_false_r, ?orb_false_r; reflexivity.
  - simpl. eapply adds_bind; [exact (IHn2 _ _ Hinstalled Hothers) | |].
    + intros e'. apply adds_ret.
    + unfold reads_index. destruct index; simpl;
        rewrite ?andb_false_r, ?orb_false_r; reflexivity.
  - eapply adds_ext; [intros w; apply visit_expression_other |].
    eapply adds_bind; [apply adds_map_state | |].
    + eapply Forall_impl; [eassumption |]. intros a Ha. exact (Ha _ _ Hinstalled Hothers).
    + intros es'. apply adds_ret.
    + rewrite <- reads_index_existsb, orb_false_r.
      unfold reads_index. destruct index; reflexivity.
Qed.

End Cell.

End VisitorProofs.

(** ** The tables and the declarations *)

Module TableProofs.
Import transformers EachBlockVisitor Notions MoreNotions VisitorProofs.

Section Tables.
Context {O : Type} `{Imports O}.

Lemma allocate_collection_id_spec (s : scope.Scope) o collection_id o' :
  allocate_collection_id s o = (collection_id, o') ->
  (exists id, collection_id = Some id) <-> shadows_ancestor s.
Proof.
  unfold allocate_collection_id, shadows_ancestor, parent_resolves.
  destruct (existsb _ (scope.declarations s)) eqn:Hshadow.
  - unfold bind. destruct (unique "$$array" o) as [id o'']. simpl.
    intros Hrun. inversion Hrun; subst. split; [intros _ | eauto].
    apply existsb_exists in Hshadow.
    destruct Hshadow as ([name binding] & Hin & Hresolves). simpl in Hresolves.
    destruct (scope.parent s) as [p |]; [| discriminate].
    destruct (scope.get p name) as [outer |] eqn:Hget; [| discriminate].
    eauto 10.
  - intros Hrun. inversion Hrun; subst. split.
    + intros [id Hid]. discriminate.
    + intros (name & binding & p & outer & Hin & Hparent & Hget).
      assert (Hex : existsb
                (fun entry : string * scope.Binding =>
                   match scope.parent s with
                   | Some p => truthy (scope.get p entry.1)
                   | None => false
                   end) (scope.declarations s) = true).
      { apply existsb_exists. exists (name, binding). split; [assumption |].
        simpl. rewrite Hparent, Hget. reflexivity. }
      congruence.
Qed.

(** The legacy branch gives at most one call, and none in runes mode. *)
Lemma invalidate_inner_signals_spec node (context : client.ComponentContext O)
  collection_id table w child inner w' :
  invalidate_inner_signals node context collection_id table w = ((child, inner), w') ->
  (inner = []
   \/ exists visited,
        inner = [b.call "$.invalidate_inner_signals"
                   [Some (b.thunk (b.sequence visited) false)]])
  /\ (client.runes (client.state context) = true -> inner = []).
Proof.
  unfold invalidate_inner_signals.
  destruct (client.runes (client.state context)).
  - intros Hrun. inversion Hrun; subst. auto.
  - destruct (0 <? length _)%nat.
    + unfold bind. destruct (map_state _ _ w) as [visited w''].
      intros Hrun. inversion Hrun; subst. split; [eauto | discriminate].
    + intros Hrun. inversion Hrun; subst. split; [auto | discriminate].
Qed.

(** The legacy branch, in full: the table it leaves and the call it
    gives. *)
Lemma invalidate_inner_signals_run node (context : client.ComponentContext O)
  collection_id table w child inner w' :
  invalidate_inner_signals node context collection_id table w = ((child, inner), w') ->
  (client.runes (client.state context) = true -> child = table /\ inner = [])
  /\ (client.runes (client.state context) = false ->
      child
      = match collection_id with
        | Some id =>
            <[scope.name id := reader (fun node => ret (b.call node []))]> table
        | None => table
        end
      /\ (collect_transitive_deps node context collection_id = [] -> inner = [])
      /\ (collect_transitive_deps node context collection_id <> [] ->
          inner
          = [b.call "$.invalidate_inner_signals"
               [Some (b.thunk
                  (b.sequence
                     (map_state
                        (fun dep => visit_expression child (Identifier (scope.name dep)))
                        (collect_transitive_deps node context collection_id) w).1)
                  false)]])).
Proof.
  unfold invalidate_inner_signals.
  destruct (client.runes (client.state context)).
  { intros Hrun. inversion Hrun; subst. split; [auto | discriminate]. }
  intros Hrun. split; [discriminate |]. intros _.
  destruct (collect_transitive_deps node context collection_id) as [| dep deps].
  - inversion Hrun; subst. split; [reflexivity |]. split; [reflexivity | congruence].
  - cbn [length Nat.ltb Nat.leb] in Hrun. unfold bind in Hrun.
    destruct (map_state _ (dep :: deps) w) as [visited w''] eqn:Hvisited.
    inversion Hrun; subst. split; [reflexivity |]. split; [discriminate |].
    intros _. rewrite Hvisited. reflexivity.
Qed.

(** *** What the two loops over a pattern leave behind *)

Lemma declare_inserts_spec inserts :
  forall names acc w names' acc' w',
    declare_inserts inserts names acc w = ((names', acc'), w') ->
    key_table acc' = key_table acc
    /\ exists added,
         declared acc' = declared acc ++ added
         /\ length added = length inserts
         /\ Forall (fun d => is_declaration d = true
                             /\ declares_call "$.derived" d = true
                             /\ declares_call "$.derived_safe_equal" d = false) added.
Proof.
  induction inserts as [| insert rest IH]; intros names acc w names' acc' w' Hrun.
  - inversion Hrun; subst. split; [reflexivity |].
    exists []. rewrite app_nil_r. auto.
  - simpl in Hrun. unfold bind in Hrun.
    destruct (lift (generate "$$array") w) as [name w1].
    destruct (visit_expression _ _ w1) as [expression w2].
    apply IH in Hrun. simpl in Hrun.
    destruct Hrun as (Hkey & added & Hdeclared & Hlength & Hall).
    split; [assumption |].
    rewrite Hdeclared, <- app_assoc. simpl.
    eexists (_ :: added).
    split; [reflexivity |]. split; [simpl; f_equal; assumption |].
    constructor; [| assumption]. auto.
Qed.

Lemma declare_paths_spec paths names sequence :
  forall acc w acc' w',
    declare_paths paths names sequence acc w = (acc', w') ->
    (forall name,
       key_table acc' !! name
       = if bool_decide (name ∈ path_names paths) then None
         else key_table acc !! name)
    /\ exists added,
         declared acc' = declared acc ++ added
         /\ count is_declaration added = length paths
         /\ count (declares_call "$.derived") added = 0%nat
         /\ count (declares_call "$.derived_safe_equal") added
            = count destructuring.has_default_value paths.
Proof.
  induction paths as [| path rest IH]; intros acc w acc' w' Hrun.
  - inversion Hrun; subst. split.
    + intros name. rewrite bool_decide_eq_false_2; [reflexivity |].
      unfold path_names. simpl. apply not_elem_of_nil.
    + exists []. rewrite app_nil_r. auto.
  - simpl in Hrun. unfold bind in Hrun.
    destruct (visit_expression _ _ w) as [visited w1].
    apply IH in Hrun. simpl in Hrun.
    destruct Hrun as (Hkey & added & Hdeclared & Hcount & Hderived & Hsafe).
    split.
    + intros name. rewrite Hkey. unfold path_names. simpl.
      destruct (decide (name = destructuring.name_of (destructuring.node path)))
        as [-> | Hne].
      * rewrite lookup_delete_eq.
        rewrite (bool_decide_eq_true_2 (_ ∈ _ :: _)) by apply list_elem_of_here.
        destruct (bool_decide _); reflexivity.
      * rewrite lookup_delete_ne by congruence.
        destruct (bool_decide (name ∈ _ <$> rest)) eqn:Hrest.
        -- apply bool_decide_eq_true_1 in Hrest.
           rewrite bool_decide_eq_true_2; [reflexivity |].
           apply list_elem_of_further. assumption.
        -- apply bool_decide_eq_false_1 in Hrest.
           rewrite bool_decide_eq_false_2; [reflexivity |].
           rewrite elem_of_cons. tauto.
    + rewrite Hdeclared, <- app_assoc.
      eexists. split; [reflexivity |].
      unfold count in *. rewrite !List.filter_app, !length_app.
      rewrite Hcount, Hderived, Hsafe.
      destruct (destructuring.has_default_value path) eqn:Hdefault, dev;
        simpl; rewrite ?Hdefault; simpl; auto.
Qed.

(** The key state loses the names of the item, and nothing else. *)
Lemma bind_item_key_table node state collection collection_id sequence acc w tables w' :
  bind_item node state collection collection_id (each_flags node state) sequence acc w
  = (Ok tables, w') ->
  forall name,
    key_table tables !! name
    = if bool_decide (name ∈ item_names node state) then None
      else key_table acc !! name.
Proof.
  unfold bind_item, item_names.
  destruct (AST.context node) as [pattern |].
  2:{ intros Hrun name. inversion Hrun; subst.
      rewrite bool_decide_eq_false_2; [reflexivity | apply not_elem_of_nil]. }
  destruct pattern;
    try (destruct (extract_paths _ _) as [inserts paths]; unfold bind;
         destruct (declare_inserts _ _ _ _) as [[names acc1] w1] eqn:Hinserts;
         destruct (declare_paths _ _ _ _ _) as [acc2 w2] eqn:Hpaths;
         intros Hrun name; inversion Hrun; subst;
         apply declare_inserts_spec in Hinserts; destruct Hinserts as [Hsame _];
         apply declare_paths_spec in Hpaths; destruct Hpaths as [Hkey _];
         rewrite Hkey, Hsame; reflexivity).
  destruct (scope.get (client.scope state) name) as [binding |]; [| discriminate].
  intros Hrun x. inversion Hrun; subst. simpl.
  destruct (decide (x = name)) as [-> | Hne].
  - rewrite lookup_delete_eq, bool_decide_eq_true_2; [reflexivity |].
    apply list_elem_of_here.
  - rewrite lookup_delete_ne by congruence.
    rewrite bool_decide_eq_false_2; [reflexivity |].
    rewrite elem_of_cons, elem_of_nil. tauto.
Qed.

Lemma index_is_distinct_spec node (state : client.ClientState O) i :
  index_is_distinct node state = true ->
  AST.index node = Some i ->
  i ∉ item_names node state.
Proof.
  unfold index_is_distinct. intros Hdistinct Hindex. rewrite Hindex in Hdistinct.
  apply negb_true_iff in Hdistinct. intros Hin.
  apply list_elem_of_In in Hin.
  assert (Hex : existsb (String.eqb i) (item_names node state) = true).
  { apply existsb_exists. exists i. split; [assumption | apply String.eqb_refl]. }
  congruence.
Qed.

(** The table the key is lowered with: the index, if there is one,
    has the strategy of the key state, and every other strategy
    leaves [key_uses_index] alone. *)
Lemma key_table_strategies node state collection collection_id sequence child
  w tables w' :
  index_is_distinct node state = true ->
  bind_item node state collection collection_id (each_flags node state) sequence
    {| child_table := child;
       key_table :=
         with_index node key_index_strategy (lift_strategy <$> client.transform state);
       declared := [] |} w
  = (Ok tables, w') ->
  (forall i, AST.index node = Some i ->
             key_table tables !! i = Some key_index_strategy)
  /\ (forall name s, key_table tables !! name = Some s ->
                     AST.index node <> Some name -> keeps_cell s).
Proof.
  intros Hdistinct Hrun.
  pose proof (bind_item_key_table _ _ _ _ _ _ _ _ _ Hrun) as Hlookup.
  simpl in Hlookup. split.
  - intros i Hindex. rewrite Hlookup.
    rewrite bool_decide_eq_false_2
      by (eapply index_is_distinct_spec; eassumption).
    unfold with_index. rewrite Hindex. apply lookup_insert_eq.
  - intros name s Hs Hother. rewrite Hlookup in Hs.
    destruct (bool_decide _); [discriminate |].
    unfold with_index in Hs.
    assert (Hinherited :
      (lift_strategy <$> client.transform state) !! name = Some s).
    { destruct (AST.index node) as [i |]; [| assumption].
      rewrite lookup_insert_ne in Hs by congruence. assumption. }
    rewrite lookup_fmap in Hinherited.
    destruct (client.transform state !! name) as [s0 |]; [| discriminate].
    inversion Hinherited; subst. apply lift_strategy_keeps.
Qed.

(** The first loop, in full: the names it gives to the identifier
    objects of the inserts, and a [$.derived] variable of that name for
    each insert. *)
Lemma declare_inserts_names inserts :
  forall names acc w names' acc' w',
    declare_inserts inserts names acc w = ((names', acc'), w') ->
    exists given inits,
      length given = length inserts
      /\ length inits = length inserts
      /\ names'
         = destructuring.set_names (zip (destructuring.id <$> inserts) given) names
      /\ declared acc'
         = declared acc
           ++ zip_with
                (fun name e => b.var (Identifier name) (b.call "$.derived" [Some e]))
                given inits.
Proof.
  induction inserts as [| insert rest IH]; intros names acc w names' acc' w' Hrun.
  - inversion Hrun; subst. exists [], []. simpl. rewrite app_nil_r. auto.
  - cbn [declare_inserts] in Hrun. unfold bind in Hrun.
    destruct (lift (generate "$$array") w) as [name w1].
    destruct (visit_expression _ (b.thunk _ _) w1) as [init w2].
    apply IH in Hrun.
    destruct Hrun as (given & inits & Hgiven & Hinits & Hnames & Hdeclared).
    exists (name :: given), (init :: inits).
    split; [simpl; congruence |]. split; [simpl; congruence |]. split.
    + rewrite Hnames. reflexivity.
    + rewrite Hdeclared. cbn [declared]. rewrite <- app_assoc. reflexivity.
Qed.

(** The second loop: the statements of the leaves, in the order of the
    paths. *)
Lemma declare_paths_declared paths names sequence :
  forall acc w acc' w',
    declare_paths paths names sequence acc w = (acc', w') ->
    exists visited,
      length visited = length paths
      /\ declared acc'
         = declared acc
           ++ concat (zip_with (fun path v => leaf_statements path (b.thunk v false))
                        paths visited).
Proof.
  induction paths as [| path rest IH]; intros acc w acc' w' Hrun.
  - inversion Hrun; subst. exists []. simpl. rewrite app_nil_r. auto.
  - simpl in Hrun. unfold bind in Hrun.
    destruct (visit_expression _ _ w) as [v w1].
    apply IH in Hrun. destruct Hrun as (visited & Hlength & Hdeclared).
    exists (v :: visited). split; [simpl; congruence |].
    rewrite Hdeclared. cbn [declared zip_with concat].
    unfold leaf_statements, leaf_read.
    destruct (destructuring.has_default_value path), dev;
      rewrite <- !app_assoc; reflexivity.
Qed.

(** Both loops: what a destructuring pattern declares. *)
Lemma bind_item_statements node state collection collection_id flags sequence acc w
  tables w' pattern inserts paths :
  AST.context node = Some pattern ->
  is_Identifier pattern = false ->
  extract_paths pattern
    (if has_flag flags EACH_ITEM_REACTIVE
     then b.call "$.get" [Some (item_of node)] else item_of node)
  = (inserts, paths) ->
  bind_item node state collection collection_id flags sequence acc w
  = (Ok tables, w') ->
  exists names expressions visited,
    length names = length inserts
    /\ length expressions = length inserts
    /\ length visited = length paths
    /\ declared tables
       = declared acc
         ++ zip_with
              (fun name e => b.var (Identifier name) (b.call "$.derived" [Some e]))
              names expressions
         ++ concat (zip_with (fun path v => leaf_statements path (b.thunk v false))
                      paths visited).
Proof.
  intros Hcontext Hpattern Hextract. unfold bind_item. rewrite Hcontext.
  destruct pattern; try discriminate;
    rewrite Hextract; unfold bind;
    destruct (declare_inserts _ _ _ _) as [[names acc1] w1] eqn:Hinserts;
    destruct (declare_paths _ _ _ _ _) as [acc2 w2] eqn:Hpaths;
    intros Hrun; inversion Hrun; subst;
    apply declare_inserts_names in Hinserts;
    destruct Hinserts as (given & inits & Hgiven & Hinits & _ & Hdeclared1);
    apply declare_paths_declared in Hpaths;
    destruct Hpaths as (visited & Hvisited & Hdeclared2);
    exists given, inits, visited;
    (split; [assumption |]); (split; [assumption |]); (split; [assumption |]);
    rewrite Hdeclared2, Hdeclared1, <- app_assoc; reflexivity.
Qed.

(** The declarations among the statements of the leaves. *)
Lemma filter_leaf_statements paths :
  forall visited,
    List.filter is_declaration
      (concat (zip_with (fun path v => leaf_statements path (b.thunk v false))
                 paths visited))
    = zip_with
        (fun path v =>
           b.let_ (destructuring.node path)
             (if destructuring.has_default_value path
              then b.call "$.derived_safe_equal" [Some (b.thunk v false)]
              else b.thunk v false))
        paths visited.
Proof.
  induction paths as [| path rest IH]; intros [| v visited]; try reflexivity.
  cbn [zip_with concat]. rewrite List.filter_app, IH.
  unfold leaf_statements. destruct dev; reflexivity.
Qed.

Lemma filter_derived_variables names :
  forall expressions,
    List.filter is_declaration
      (zip_with
         (fun name e => b.var (Identifier name) (b.call "$.derived" [Some e]))
         names expressions)
    = zip_with
        (fun name e => b.var (Identifier name) (b.call "$.derived" [Some e]))
        names expressions.
Proof.
  induction names as [| name rest IH]; intros [| e expressions]; try reflexivity.
  cbn [zip_with List.filter is_declaration b.var]. rewrite IH. reflexivity.
Qed.

End Tables.

End TableProofs.

(** ** The item, the declarations and the emitted call *)

Module EachBlockClaims.
Import transformers EachBlockVisitor Notions LowerProofs VisitorProofs TableProofs.

Ltac run_lower Hwf :=
  match goal with
  | |- context [lower ?node ?c ?o] => destruct (lower_run node c o Hwf)
    as (collection & o1 & collection_id & o2 & child & inner & w1 & tables & w2
        & block & o3 & uses_index & key_function & o4 & key_uses_index
        & fallback & o5 & Hcollection & Hid & Hinner & Hbind & Hblock & Hkey
        & Hfallback & Hlower)
  end.

Section Claims.
Context {O : Type} `{Imports O}.

Lemma visit_identifier (table : gmap string (Strategy (O * bool))) name :
  visit_expression table (Identifier name)
  = match lookup_strategy table read name with
    | Some f => f (Identifier name)
    | None => ret (Identifier name)
    end.
Proof. reflexivity. Qed.

Lemma visit_assignment (table : gmap string (Strategy (O * bool))) op name value :
  visit_expression table (AssignmentExpression op (Identifier name) value)
  = let* value' := visit_expression table value in
    match lookup_strategy table assign name with
    | Some f => f (Identifier name) value'
    | None => ret (AssignmentExpression op (Identifier name) value')
    end.
Proof. reflexivity. Qed.

Lemma count_all {A : Type} (f : A -> bool) (l : list A) :
  Forall (fun a => f a = true) l -> count f l = length l.
Proof.
  unfold count. induction 1 as [| a l Ha Hl IH]; simpl; [reflexivity |].
  rewrite Ha. simpl. congruence.
Qed.

Lemma count_none {A : Type} (f : A -> bool) (l : list A) :
  Forall (fun a => f a = false) l -> count f l = 0%nat.
Proof.
  unfold count. induction 1 as [| a l Ha Hl IH]; simpl; [reflexivity |].
  rewrite Ha. assumption.
Qed.

Lemma count_app {A : Type} (f : A -> bool) (l1 l2 : list A) :
  count f (l1 ++ l2) = (count f l1 + count f l2)%nat.
Proof. unfold count. rewrite List.filter_app, length_app. reflexivity. Qed.

(** The declarations a destructuring pattern gives. *)
Lemma bind_item_pattern node state collection collection_id flags sequence acc w
  tables w' pattern inserts paths :
  AST.context node = Some pattern ->
  is_Identifier pattern = false ->
  extract_paths pattern
    (if has_flag flags EACH_ITEM_REACTIVE
     then b.call "$.get" [Some (item_of node)] else item_of node)
  = (inserts, paths) ->
  bind_item node state collection collection_id flags sequence acc w
  = (Ok tables, w') ->
  exists added,
    declared tables = declared acc ++ added
    /\ count is_declaration added = (length inserts + length paths)%nat
    /\ count (declares_call "$.derived") added = length inserts
    /\ count (declares_call "$.derived_safe_equal") added
       = count destructuring.has_default_value paths.
Proof.
  intros Hcontext Hpattern Hextract. unfold bind_item. rewrite Hcontext.
  destruct pattern; try discriminate;
    rewrite Hextract; unfold bind;
    destruct (declare_inserts _ _ _ _) as [[names acc1] w1] eqn:Hinserts;
    destruct (declare_paths _ _ _ _ _) as [acc2 w2] eqn:Hpaths;
    intros Hrun; inversion Hrun; subst;
    apply declare_inserts_spec in Hinserts;
    destruct Hinserts as (_ & added1 & Hdeclared1 & Hlength & Hall);
    apply declare_paths_spec in Hpaths;
    destruct Hpaths as (_ & added2 & Hdeclared2 & Hcount & Hderived & Hsafe);
    exists (added1 ++ added2);
    rewrite Hdeclared2, Hdeclared1, <- app_assoc, !count_app;
    rewrite Hcount, Hderived, Hsafe;
    rewrite (count_all is_declaration added1)
      by (eapply Forall_impl; [exact Hall | tauto]);
    rewrite (count_all (declares_call "$.derived") added1)
      by (eapply Forall_impl; [exact Hall | tauto]);
    rewrite (count_none (declares_call "$.derived_safe_equal") added1)
      by (eapply Forall_impl; [exact Hall | tauto]);
    rewrite Hlength; repeat split; lia.
Qed.

Lemma item_of_pattern node pattern :
  AST.context node = Some pattern ->
  is_Identifier pattern = false ->
  item_of node = b.id "$$item".
Proof.
  unfold item_of. intros ->. destruct pattern; [discriminate | reflexivity ..].
Qed.

(** C6: an identifier that captures the collection is allocated if and
    only if some name declared in the scope of the block also resolves
    in an ancestor scope; without such a name, the parameters of the
    emitted item renderer are the anchor, the item and, if it is
    used, the index, and no captured collection. *)
Theorem shadow_capture (node : AST.EachBlock)
  (context : client.ComponentContext O) (o : O) :
  well_formed node (client.state context) = true ->
  exists l o',
    lower node context o = (Ok l, o')
    /\ ((exists id, collection_id l = Some id)
         <-> shadows_ancestor (client.scope (client.state context)))
    /\ (collection_id l = None ->
         render_args l
         = [b.id "$$anchor"; item_of node]
           ++ (if uses_index l then [index_of node] else []))
    /\ (forall id, collection_id l = Some id ->
         render_args l
         = [b.id "$$anchor"; item_of node; index_of node;
            Identifier (scope.name id)])
    /\ (exists fallback,
          args l
          = [client.node (client.state context);
             b.literal (LNumber (flags l)); thunk l; key_function l;
             b.arrow (render_args l) (b.block (declarations l ++ block l))]
            ++ fallback)
    /\ In (add_svelte_meta (b.call "$.each" (Some <$> args l)) node "each")
         (statements l).
Proof.
  intros Hwf. run_lower Hwf.
  eexists _, _. split; [exact Hlower |]. simpl.
  split; [eapply allocate_collection_id_spec; eassumption |].
  split; [intros ->; unfold build_render_args; simpl;
          rewrite orb_false_r, app_nil_r; reflexivity |].
  split; [intros id ->; unfold build_render_args; simpl;
          rewrite orb_true_r; reflexivity |].
  split; [eexists; reflexivity |].
  apply in_or_app. right. left. reflexivity.
Qed.

(** C8: when the collection expression is asynchronous, what is pushed
    is one [$.async] registration, whose function holds the statements
    that build the list, and the list reads the resolved collection
    through the thunk [() => $.get($$collection)]; when it is not, the
    statements are pushed as they are, with the thunk of the
    collection itself. *)
Theorem async_collection (node : AST.EachBlock)
  (context : client.ComponentContext O) (o : O) :
  well_formed node (client.state context) = true ->
  exists l effects o',
    lower node context o = (Ok l, o')
    /\ EachBlock node context o = (Ok effects, o')
    /\ statements l
        = (if dev && AST.keyed (AST.metadata node)
           then [b.stmt (b.call "$.validate_each_keys"
                           [Some (thunk l); Some (key_function l)])]
           else [])
          ++ [add_svelte_meta (b.call "$.each" (Some <$> args l)) node "each"]
    /\ (exists rest,
          args l
          = client.node (client.state context)
            :: b.literal (LNumber (flags l)) :: thunk l :: rest)
    /\ (AST.has_await (AST.meta_expression (AST.metadata node)) = true ->
         thunk l = b.thunk (b.call "$.get" [Some (b.id "$$collection")]) false
         /\ init effects
             = [b.stmt
                  (b.call "$.async"
                     [Some (client.node (client.state context));
                      Some (b.array [b.thunk (collection l) true]);
                      Some (b.arrow
                              [client.node (client.state context);
                               b.id "$$collection"]
                              (b.block (statements l)))])])
    /\ (AST.has_await (AST.meta_expression (AST.metadata node)) = false ->
         thunk l = b.thunk (collection l) false
         /\ init effects = statements l).
Proof.
  intros Hwf. run_lower Hwf.
  eexists _, _, _. split; [exact Hlower |].
  split; [unfold EachBlock, bind; rewrite Hlower; reflexivity |].
  split; [reflexivity |].
  split; [eexists; reflexivity |].
  split; intros Hawait; unfold async_registration; simpl; rewrite Hawait;
    split; reflexivity.
Qed.

(** C7: for a keyed block whose index is a name of its own, the key
    function that is handed to [$.each] and, in a development build,
    to [$.validate_each_keys], has as parameters the item pattern and,
    if and only if the key expression reads the binding of the index,
    the index; its body is the key, lowered with the key state.  For a
    block that is not keyed (the [metadata.keyed] of line 300) the key
    function is [$.index].  The call of [$.each] is what the visitor
    pushes, inside the [$.async] registration if the collection is
    awaited. *)
Theorem key_function_parameters (node : AST.EachBlock)
  (context : client.ComponentContext O) (o : O) :
  well_formed node (client.state context) = true ->
  index_is_distinct node (client.state context) = true ->
  exists l effects o',
    lower node context o = (Ok l, o')
    /\ EachBlock node context o = (Ok effects, o')
    /\ (AST.keyed (AST.metadata node) = false ->
         key_function l = b.id "$.index")
    /\ (AST.keyed (AST.metadata node) = true ->
         exists key pattern w,
           AST.key node = Some key
           /\ AST.context node = Some pattern
           /\ key_function l
               = b.arrow
                   (pattern :: (if key_reads_index node then [index_of node] else []))
                   (visit_expression (key_transform l) key w).1)
    /\ (exists fallback,
          args l
          = [client.node (client.state context);
             b.literal (LNumber (flags l)); thunk l; key_function l;
             b.arrow (render_args l) (b.block (declarations l ++ block l))]
            ++ fallback)
    /\ statements l
        = (if dev && AST.keyed (AST.metadata node)
           then [b.stmt (b.call "$.validate_each_keys"
                           [Some (thunk l); Some (key_function l)])]
           else [])
          ++ [add_svelte_meta (b.call "$.each" (Some <$> args l)) node "each"]
    /\ init effects
        = if AST.has_await (AST.meta_expression (AST.metadata node))
          then [b.stmt
                  (b.call "$.async"
                     [Some (client.node (client.state context));
                      Some (b.array [get_collection l]);
                      Some (b.arrow
                              [client.node (client.state context);
                               b.id "$$collection"]
                              (b.block (statements l)))])]
          else statements l.
Proof.
  intros Hwf Hdistinct. run_lower Hwf.
  eexists _, _, _. split; [exact Hlower |].
  split; [unfold EachBlock, bind; rewrite Hlower; reflexivity |].
  unfold assemble.
  cbn [EachBlockVisitor.key_function EachBlockVisitor.key_transform
         EachBlockVisitor.args EachBlockVisitor.statements
         EachBlockVisitor.flags EachBlockVisitor.thunk
         EachBlockVisitor.render_args EachBlockVisitor.declarations
         EachBlockVisitor.block EachBlockVisitor.get_collection init].
  split; [| split; [| split; [eexists; reflexivity | split; reflexivity]]].
  - intros Hkeyed. rewrite build_key_function_unkeyed in Hkey by assumption.
    inversion Hkey. reflexivity.
  - intros Hkeyed.
    destruct (well_formed_keyed _ _ Hwf Hkeyed) as (key & pattern & Hsome & Hcontext).
    rewrite (build_key_function_keyed _ _ _ _ key pattern) in Hkey by assumption.
    destruct (key_table_strategies _ _ _ _ _ _ _ _ _ Hdistinct Hbind)
      as [Hinstalled Hothers].
    pose proof (visit_expression_adds key (AST.index node) (key_table tables)
                  Hinstalled Hothers o3 false) as Hcell.
    exists key, pattern, (o3, false).
    destruct (visit_expression (key_table tables) key (o3, false))
      as [expression [o' cell]].
    simpl in Hcell. subst cell. inversion Hkey; subst.
    repeat split; try assumption.
    unfold key_reads_index. rewrite Hsome.
    destruct (reads_index (AST.index node) key); reflexivity.
Qed.

(** C1, as the code has it: an assignment to an item that is a plain
    identifier is lowered to a sequence that starts with the write
    [collection[index] = value], into the lowered collection expression
    or through the captured collection if there is one, followed by the
    invalidation of the inner signals and then by the invalidation of
    the store, in that order.  The inner signals are invalidated in
    legacy mode when there is an identifier to invalidate, and the call
    holds those identifiers, lowered, in their order; in runes mode and
    when there is none, there is no such call.  The store is invalidated
    if the collection is a store subscription.  The body of the block
    is lowered with this strategy and is the body of the item renderer
    that is handed to [$.each]. *)
Theorem reassignment_lowering (node : AST.EachBlock)
  (context : client.ComponentContext O) (o : O) (name : string) :
  well_formed node (client.state context) = true ->
  AST.context node = Some (Identifier name) ->
  exists l effects o' inner,
    lower node context o = (Ok l, o')
    /\ EachBlock node context o = (Ok effects, o')
    /\ pushes node context l effects
    /\ collection l
        = (build_expression (client.state context)
             (scope.parent (client.scope (client.state context)))
             (AST.expression node) (AST.meta_expression (AST.metadata node)) o).1
    /\ sequence l
        = inner
          ++ (if String.eqb (store_to_invalidate l) EmptyString then []
              else [b.call "$.invalidate_store"
                      [Some (b.id "$$stores");
                       Some (b.literal (LString (store_to_invalidate l)))]])
    /\ (client.runes (client.state context) = true -> inner = [])
    /\ (client.runes (client.state context) = false ->
         collect_transitive_deps node context (collection_id l) = [] ->
         inner = [])
    /\ (client.runes (client.state context) = false ->
         collect_transitive_deps node context (collection_id l) <> [] ->
         exists w,
           inner
           = [b.call "$.invalidate_inner_signals"
                [Some (b.thunk
                   (b.sequence
                      (map_state
                         (fun dep =>
                            visit_expression
                              match collection_id l with
                              | Some id =>
                                  <[scope.name id :=
                                      reader (fun node => ret (b.call node []))]>
                                    (with_index node (index_strategy (flags l))
                                       (lift_strategy
                                          <$> client.transform (client.state context)))
                              | None =>
                                  with_index node (index_strategy (flags l))
                                    (lift_strategy
                                       <$> client.transform (client.state context))
                              end
                              (Identifier (scope.name dep)))
                         (collect_transitive_deps node context (collection_id l))
                         w).1)
                   false)]])
    /\ (forall value w,
          visit_expression (child_transform l)
            (AssignmentExpression "=" (Identifier name) value) w
          = let '(value', (o'', _)) :=
              visit_expression (child_transform l) value w in
            (b.sequence
               (b.assignment "="
                  (b.member
                     (match collection_id l with
                      | Some id => b.call (Identifier (scope.name id)) []
                      | None => collection l
                      end)
                     (if has_flag (flags l) EACH_INDEX_REACTIVE
                      then get_value (index l) else index l)
                     true)
                  value'
                :: sequence l),
             (o'', true)))
    /\ (exists w,
          block l
          = (visit_fragment (O * bool)
               (child_state (client.state context) (child_transform l)
                  (store_to_invalidate l))
               (AST.body node) w).1).
Proof.
  intros Hwf Hcontext. run_lower Hwf.
  destruct (well_formed_item _ _ _ Hwf Hcontext) as [binding Hget].
  rewrite (bind_item_identifier _ _ _ _ _ _ _ _ _ _ Hcontext Hget) in Hbind.
  inversion Hbind; subst tables. clear Hbind.
  destruct (invalidate_inner_signals_run _ _ _ _ _ _ _ _ Hinner) as [Hrunes Hlegacy].
  destruct (lower_pushes _ _ _ _ _ Hlower _ _ _ _ _ _ _ _ _ eq_refl)
    as (effects & Heach & Hpushes).
  eexists _, effects, _, inner. split; [exact Hlower |].
  split; [exact Heach |]. split; [exact Hpushes |].
  unfold assemble.
  cbn [EachBlockVisitor.sequence EachBlockVisitor.store_to_invalidate
         EachBlockVisitor.child_transform EachBlockVisitor.collection_id
         EachBlockVisitor.collection EachBlockVisitor.flags
         EachBlockVisitor.index EachBlockVisitor.block EachBlockVisitor.args
         EachBlockVisitor.statements EachBlockVisitor.thunk
         EachBlockVisitor.key_function EachBlockVisitor.render_args
         EachBlockVisitor.declarations child_table].
  split; [rewrite Hcollection; reflexivity |].
  split.
  { unfold build_sequence, invalidate_store.
    destruct (String.eqb _ EmptyString); [symmetry; apply app_nil_r | reflexivity]. }
  split; [intros Hmode; apply Hrunes; assumption |].
  split; [intros Hmode; apply Hlegacy; assumption |].
  split.
  { intros Hmode Hdeps. destruct (Hlegacy Hmode) as (Hchild & _ & Hcall).
    eexists. rewrite (Hcall Hdeps), Hchild.
    destruct collection_id; reflexivity. }
  split.
  { intros value w. rewrite visit_assignment. unfold bind, lookup_strategy.
    rewrite lookup_insert_eq. cbn [assign item_strategy].
    destruct (visit_expression _ value w) as [value' [o'' cell]].
    reflexivity. }
  cbn [child_table] in Hblock.
  match type of Hblock with
  | visit_fragment _ _ _ ?w = _ => exists w
  end.
  rewrite Hblock. reflexivity.
Qed.

(** C5, as the code has it: for an item that is a plain identifier, a
    read of the item is lowered to [collection[index]] when the
    binding of the item is reassigned somewhere; when it is not, to
    the identifier itself if the item-is-reactive flag is clear and to
    [$.get(item)] if the flag is set. *)
Theorem item_read (node : AST.EachBlock)
  (context : client.ComponentContext O) (o : O) (name : string) :
  well_formed node (client.state context) = true ->
  AST.context node = Some (Identifier name) ->
  exists l o' binding,
    lower node context o = (Ok l, o')
    /\ scope.get (client.scope (client.state context)) name = Some binding
    /\ forall w,
         visit_expression (child_transform l) (Identifier name) w
         = (if scope.reassigned binding
            then b.member
                   (match collection_id l with
                    | Some id => b.call (Identifier (scope.name id)) []
                    | None => collection l
                    end)
                   (if has_flag (flags l) EACH_INDEX_REACTIVE
                    then get_value (index l) else index l)
                   true
            else if has_flag (flags l) EACH_ITEM_REACTIVE
                 then get_value (Identifier name)
                 else Identifier name,
            w).
Proof.
  intros Hwf Hcontext. run_lower Hwf.
  destruct (well_formed_item _ _ _ Hwf Hcontext) as [binding Hget].
  rewrite (bind_item_identifier _ _ _ _ _ _ _ _ _ _ Hcontext Hget) in Hbind.
  inversion Hbind; subst tables. clear Hbind.
  eexists _, _, binding. split; [exact Hlower |]. split; [exact Hget |].
  intros w. unfold assemble.
  cbn [EachBlockVisitor.child_transform EachBlockVisitor.collection_id
         EachBlockVisitor.collection EachBlockVisitor.flags
         EachBlockVisitor.index child_table].
  rewrite visit_identifier. unfold lookup_strategy.
  rewrite lookup_insert_eq. reflexivity.
Qed.

(** C2, as the code has it: for an item that is a destructuring
    pattern, the declarations are, in this order, one [$.derived]
    variable for each insert that [extract_paths] reports and one
    declaration for each leaf binding, under the name of the leaf; the
    declaration of a leaf is [$.derived_safe_equal] of a thunk exactly
    when the leaf has a default value, and the thunk itself otherwise.
    No declaration is added for a default value. *)
Theorem destructured_declarations (node : AST.EachBlock)
  (context : client.ComponentContext O) (o : O) (pattern : Node)
  (inserts : list destructuring.Insert) (paths : list destructuring.Path) :
  well_formed node (client.state context) = true ->
  AST.context node = Some pattern ->
  is_Identifier pattern = false ->
  extract_paths pattern
    (if has_flag (each_flags node (client.state context)) EACH_ITEM_REACTIVE
     then b.call "$.get" [Some (b.id "$$item")] else b.id "$$item")
  = (inserts, paths) ->
  exists l effects o' destructured names inits visited,
    lower node context o = (Ok l, o')
    /\ EachBlock node context o = (Ok effects, o')
    /\ pushes node context l effects
    /\ declarations l
        = destructured
          ++ match AST.index node with
             | Some i =>
                 if AST.contains_group_binding (AST.metadata node)
                 then [b.let_ (b.id i) (index_of node)] else []
             | None => []
             end
    /\ length names = length inserts
    /\ length inits = length inserts
    /\ length visited = length paths
    /\ List.filter is_declaration destructured
        = zip_with
            (fun name e => b.var (Identifier name) (b.call "$.derived" [Some e]))
            names inits
          ++ zip_with
               (fun path v =>
                  b.let_ (destructuring.node path)
                    (if destructuring.has_default_value path
                     then b.call "$.derived_safe_equal" [Some (b.thunk v false)]
                     else b.thunk v false))
               paths visited
    /\ count is_declaration destructured = (length inserts + length paths)%nat
    /\ count (declares_call "$.derived") destructured = length inserts
    /\ count (declares_call "$.derived_safe_equal") destructured
        = count destructuring.has_default_value paths.
Proof.
  intros Hwf Hcontext Hpattern Hextract. run_lower Hwf.
  rewrite <- (item_of_pattern _ _ Hcontext Hpattern) in Hextract.
  destruct (bind_item_pattern _ _ _ _ _ _ _ _ _ _ _ _ _
              Hcontext Hpattern Hextract Hbind)
    as (added & Hdeclared & Hcount & Hderived & Hsafe).
  destruct (bind_item_statements _ _ _ _ _ _ _ _ _ _ _ _ _
              Hcontext Hpattern Hextract Hbind)
    as (names & inits & visited & Hnames & Hinits & Hvisited & Hstatements).
  cbn [declared app] in Hdeclared, Hstatements.
  destruct (lower_pushes _ _ _ _ _ Hlower _ _ _ _ _ _ _ _ _ eq_refl)
    as (effects & Heach & Hpushes).
  eexists _, effects, _, added, names, inits, visited. split; [exact Hlower |].
  split; [exact Heach |]. split; [exact Hpushes |].
  unfold assemble. cbn [EachBlockVisitor.declarations].
  split; [rewrite Hdeclared; reflexivity |].
  repeat (split; [assumption |]).
  split; [| auto].
  rewrite <- Hdeclared, Hstatements, List.filter_app.
  rewrite filter_derived_variables, filter_leaf_statements. reflexivity.
Qed.

End Claims.

Lemma shadow_capture_witness :
  well_formed Sample.store_each (client.state Sample.store_context) = true
  /\ exists l o',
       @lower unit Sample.legacy_imports Sample.store_each Sample.store_context tt
       = (Ok l, o')
       /\ ((exists id, collection_id l = Some id)
            <-> shadows_ancestor (client.scope (client.state Sample.store_context))).
Proof.
  split; [reflexivity |].
  destruct (@shadow_capture unit Sample.legacy_imports Sample.store_each
              Sample.store_context tt eq_refl)
    as (l & o' & Hlower & Hiff & _).
  exists l, o'. split; assumption.
Defined.

Lemma async_collection_witness :
  well_formed (Sample.keyed_each true) (client.state Sample.keyed_context) = true
  /\ exists (l : @Locals unit) effects o',
       @EachBlock unit Sample.legacy_imports (Sample.keyed_each true)
         Sample.keyed_context tt = (Ok effects, o')
       /\ init effects
           = [b.stmt
                (b.call "$.async"
                   [Some (b.id "node");
                    Some (b.array [b.thunk (collection l) true]);
                    Some (b.arrow [b.id "node"; b.id "$$collection"]
                            (b.block (statements l)))])].
Proof.
  split; [reflexivity |].
  destruct (@async_collection unit Sample.legacy_imports (Sample.keyed_each true)
              Sample.keyed_context tt eq_refl)
    as (l & effects & o' & _ & Heach & _ & _ & Hasync & _).
  exists l, effects, o'. split; [assumption |].
  apply Hasync. reflexivity.
Defined.

Lemma key_function_parameters_witness :
  well_formed (Sample.keyed_each false) (client.state Sample.keyed_context) = true
  /\ @index_is_distinct unit Sample.legacy_imports (Sample.keyed_each false)
       (client.state Sample.keyed_context) = true
  /\ exists l o' w,
       @lower unit Sample.legacy_imports (Sample.keyed_each false)
         Sample.keyed_context tt = (Ok l, o')
       /\ key_function l
          = b.arrow [Identifier "item"; b.id "i"]
              (visit_expression (key_transform l)
                 (estree.CallExpression (Identifier "key")
                    [Identifier "item"; Identifier "i"]) w).1.
Proof.
  split; [reflexivity |]. split; [reflexivity |].
  destruct (@key_function_parameters unit Sample.legacy_imports
              (Sample.keyed_each false) Sample.keyed_context tt eq_refl eq_refl)
    as (l & effects & o' & Hlower & _ & _ & Hkeyed & _).
  destruct (Hkeyed eq_refl) as (key & pattern & w & Hkey & Hcontext & Hfunction).
  exists l, o', w. split; [assumption |].
  inversion Hcontext. subst pattern. inversion Hkey. subst key. exact Hfunction.
Defined.

Lemma reassignment_lowering_witness :
  well_formed Sample.store_each (client.state Sample.store_context) = true
  /\ AST.context Sample.store_each = Some (Identifier "item")
  /\ exists l o' inner,
       @lower unit Sample.legacy_imports Sample.store_each Sample.store_context tt
       = (Ok l, o')
       /\ sequence l
           = inner
             ++ (if String.eqb (store_to_invalidate l) EmptyString then []
                 else [b.call "$.invalidate_store"
                         [Some (b.id "$$stores");
                          Some (b.literal (LString (store_to_invalidate l)))]]).
Proof.
  split; [reflexivity |]. split; [reflexivity |].
  destruct (@reassignment_lowering unit Sample.legacy_imports Sample.store_each
              Sample.store_context tt "item" eq_refl eq_refl)
    as (l & effects & o' & inner & Hlower & _ & _ & _ & Hsequence & _).
  exists l, o', inner. split; assumption.
Defined.

Lemma item_read_witness :
  well_formed Sample.store_each (client.state Sample.store_context) = true
  /\ AST.context Sample.store_each = Some (Identifier "item")
  /\ exists l o' binding,
       @lower unit Sample.legacy_imports Sample.store_each Sample.store_context tt
       = (Ok l, o')
       /\ scope.get (client.scope (client.state Sample.store_context)) "item"
           = Some binding.
Proof.
  split; [reflexivity |]. split; [reflexivity |].
  destruct (@item_read unit Sample.legacy_imports Sample.store_each
              Sample.store_context tt "item" eq_refl eq_refl)
    as (l & o' & binding & Hlower & Hget & _).
  exists l, o', binding. split; assumption.
Defined.

Lemma destructured_declarations_witness :
  well_formed Sample.array_each (client.state Sample.array_context) = true
  /\ AST.context Sample.array_each = Some (ArrayPattern [Identifier "a"])
  /\ exists l o' destructured (names : list string) (inits visited : list Node),
       @lower unit Sample.array_imports Sample.array_each Sample.array_context tt
       = (Ok l, o')
       /\ declarations l = destructured ++ []
       /\ List.filter is_declaration destructured
           = zip_with
               (fun name e => b.var (Identifier name) (b.call "$.derived" [Some e]))
               names inits
             ++ zip_with
                  (fun path v =>
                     b.let_ (destructuring.node path)
                       (if destructuring.has_default_value path
                        then b.call "$.derived_safe_equal" [Some (b.thunk v false)]
                        else b.thunk v false))
                  (Sample.array_paths (ArrayPattern [Identifier "a"])
                     (b.call "$.get" [Some (b.id "$$item")])).2
                  visited
       /\ count is_declaration destructured = 2%nat
       /\ count (declares_call "$.derived") destructured = 1%nat
       /\ count (declares_call "$.derived_safe_equal") destructured = 0%nat.
Proof.
  split; [reflexivity |]. split; [reflexivity |].
  destruct (@destructured_declarations unit Sample.array_imports Sample.array_each
              Sample.array_context tt (ArrayPattern [Identifier "a"])
              (Sample.array_paths (ArrayPattern [Identifier "a"])
                 (b.call "$.get" [Some (b.id "$$item")])).1
              (Sample.array_paths (ArrayPattern [Identifier "a"])
                 (b.call "$.get" [Some (b.id "$$item")])).2
              eq_refl eq_refl eq_refl eq_refl)
    as (l & effects & o' & destructured & names & inits & visited & Hlower & _ & _
        & Hdeclarations & _ & _ & _ & Hfilter & Hcounts).
  exists l, o', destructured, names, inits, visited.
  split; [assumption |]. split; [assumption |]. split; [assumption |].
  exact Hcounts.
Defined.

(** A parameter of a function in the key that has the name of the
    index is another binding: the key function of
    [{#each items as item, i (((i) => i)(item.id))}] takes the item
    alone. *)
Lemma shadowed_index_is_not_read :
  key_reads_index MoreNotions.shadowing_key_each = false
  /\ exists l,
       (@lower unit Sample.legacy_imports MoreNotions.shadowing_key_each
          Sample.keyed_context tt).1 = Ok l
       /\ key_function l = b.arrow [Identifier "item"] MoreNotions.shadowing_key.
Proof.
  split; [reflexivity |].
  eexists. split; [vm_compute; reflexivity |].
  vm_compute. reflexivity.
Qed.

(** C1, as it is stated, fails: for [{#each $items as item, i}] in
    legacy mode, [item = x] is lowered to a sequence in which the store
    is invalidated after the inner signals, not before. *)
Lemma reassignment_order_counterexample :
  exists l,
    (@lower unit Sample.legacy_imports Sample.store_each Sample.store_context tt).1
    = Ok l
    /\ let lowered :=
         (visit_expression (child_transform l) Sample.reassignment (tt, false)).1 in
       lowered
       = b.sequence
           [b.assignment "=" (b.member (b.call "$items" []) (b.id "i") true)
              (Identifier "x");
            b.call "$.invalidate_inner_signals"
              [Some (b.thunk (b.sequence [b.call "$items" []]) false)];
            b.call "$.invalidate_store"
              [Some (b.id "$$stores"); Some (b.literal (LString "$items"))]]
       /\ call_precedes "$.invalidate_store" "$.invalidate_inner_signals" lowered
           = false
       /\ call_precedes "$.invalidate_inner_signals" "$.invalidate_store" lowered
           = true.
Proof.
  eexists. split; [vm_compute; reflexivity |].
  vm_compute. repeat split.
Qed.

(** C5, as it is stated, fails: in [{#each $items as item, i}] the item
    is reassigned, and a read of it is lowered to [$items()[i]] although
    the item-is-reactive flag is set. *)
Lemma item_read_counterexample :
  exists l,
    (@lower unit Sample.legacy_imports Sample.store_each Sample.store_context tt).1
    = Ok l
    /\ has_flag (flags l) Sample.ITEM_REACTIVE = true
    /\ (visit_expression (child_transform l) (Identifier "item") (tt, false)).1
        = b.member (b.call "$items" []) (b.id "i") true
    /\ (visit_expression (child_transform l) (Identifier "item") (tt, false)).1
        <> get_value (Identifier "item").
Proof.
  eexists. split; [vm_compute; reflexivity |].
  vm_compute. repeat split. discriminate.
Qed.

(** C2, as it is stated, fails: [{ a, b = f() }] has two leaves and one
    default value, and the declarations are two, one of them of a
    derived value; the claim counts three declarations of derived
    values. *)
Lemma destructured_declarations_counterexample :
  exists l,
    (@lower unit Sample.pattern_imports Sample.destructured_each
       Sample.pattern_context tt).1 = Ok l
    /\ let paths :=
         (Sample.pattern_paths Sample.pattern
            (b.call "$.get" [Some (b.id "$$item")])).2 in
       declarations l
       = [b.let_ (Identifier "a")
            (b.thunk (b.member (get_value (b.id "$$item")) (b.id "a") false) false);
          b.let_ (Identifier "b")
            (b.call "$.derived_safe_equal"
               [Some (b.thunk
                  (b.call "$.fallback"
                     [Some (b.member (get_value (b.id "$$item")) (b.id "b") false);
                      Some (b.thunk (CallExpression (Identifier "f") []) false)])
                  false)])]
       /\ count is_derived_declaration (declarations l) = 1%nat
       /\ count is_declaration (declarations l) = 2%nat
       /\ (length paths + count destructuring.has_default_value paths = 3)%nat
       /\ count is_derived_declaration (declarations l)
           <> (length paths + count destructuring.has_default_value paths)%nat.
Proof.
  eexists. split; [vm_compute; reflexivity |].
  vm_compute. repeat split. discriminate.
Qed.

End EachBlockClaims.

(** ** Calls *)

Module CallExpressionClaims.
Import CallExpressionVisitor CallNotions.

Section Claims.
Context {O : Type} `{Imports O}.

Lemma rune_is_unrecognized (rune : option string) (name : string) :
  (forall r, rune = Some r -> ~ In r recognized_runes) ->
  In name recognized_runes ->
  rune_is rune name = false.
Proof.
  intros Hnot Hin. destruct rune as [r |]; [| reflexivity]. simpl.
  apply String.eqb_neq. intros ->. exact (Hnot name eq_refl Hin).
Qed.

(** A call that matches no case of the [switch] reaches the last [if]. *)
Lemma unrecognized_call node scope :
  (forall r, get_rune node scope = Some r -> ~ In r recognized_runes) ->
  CallExpression node scope
  = match logs_state node scope with
    | Some property_name =>
        let* args := map_state visit (arguments node) in
        ret (Return
          (b.call (callee node)
             [Some (b.spread
                (b.call "$.log_if_contains_state"
                   (Some (b.literal (LString property_name)) :: (Some <$> args))))]))
    | None => ret Next
    end.
Proof.
  intros Hnot. unfold CallExpression.
  rewrite !(rune_is_unrecognized _ _ Hnot) by (simpl; tauto).
  reflexivity.
Qed.

Lemma logs_state_spec node scope method :
  logs_state node scope = Some method <-> captures_log node scope method.
Proof.
  unfold logs_state, captures_log. split.
  - destruct dev; [| discriminate].
    destruct (callee node) as [| | object property computed | | | | | | | | | | | | | | | |];
      try discriminate.
    destruct object as [object_name | | | | | | | | | | | | | | | | | |];
      try discriminate.
    destruct property as [property_name | | | | | | | | | | | | | | | | | |];
      try discriminate.
    destruct (_ && _) eqn:Htest; [| discriminate].
    intros Hsome. inversion Hsome; subst.
    apply andb_prop in Htest. destruct Htest as [Htest Hargs].
    apply andb_prop in Htest. destruct Htest as [Htest Hmethod].
    apply andb_prop in Htest. destruct Htest as [Hconsole Hscope].
    apply String.eqb_eq in Hconsole. subst.
    apply bool_decide_eq_true_1 in Hscope.
    apply bool_decide_eq_true_1 in Hmethod.
    apply existsb_exists in Hargs. destruct Hargs as (arg & Hin & Harg).
    apply orb_prop in Harg.
    repeat split; eauto. apply list_elem_of_In. assumption.
  - intros (-> & (computed & ->) & Hmethod & Hscope & arg & Hin & Harg).
    simpl.
    rewrite (bool_decide_eq_true_2 _ Hscope).
    rewrite bool_decide_eq_true_2 by (apply list_elem_of_In; assumption).
    assert (Hargs : existsb (fun arg => is_SpreadElement arg || has_unknown scope arg)
                      (arguments node) = true).
    { apply existsb_exists. exists arg. split; [assumption |].
      apply orb_true_iff. assumption. }
    rewrite Hargs. reflexivity.
Qed.

(** C9: a call that matches no recognized rune is rewritten to pass
    its arguments through [$.log_if_contains_state] if and only if
    the build is a development build, the callee is a member of
    [console] named by one of the logging methods, [console] does not
    resolve in scope, and some argument is a spread element or is not
    known to be free of state; otherwise the visitor hands the call
    on with [context.next()]. *)
Theorem console_capture (node : CallNode) (scope : scope.Scope) (o : O) :
  (forall r, get_rune node scope = Some r -> ~ In r recognized_runes) ->
  ((exists replacement, (CallExpression node scope o).1 = Return replacement)
   <-> exists method, captures_log node scope method)
  /\ (forall method,
        captures_log node scope method ->
        CallExpression node scope o
        = let '(args, o') := map_state visit (arguments node) o in
          (Return
             (b.call (callee node)
                [Some (b.spread
                   (b.call "$.log_if_contains_state"
                      (Some (b.literal (LString method)) :: (Some <$> args))))]),
           o'))
  /\ ((~ exists method, captures_log node scope method) ->
       CallExpression node scope o = (Next, o)).
Proof.
  intros Hnot. rewrite (unrecognized_call _ _ Hnot).
  destruct (logs_state node scope) as [found |] eqn:Hlogs.
  - pose proof (proj1 (logs_state_spec _ _ _) Hlogs) as Hfound.
    unfold bind, ret.
    destruct (map_state visit (arguments node) o) as [args o'].
    split; [split; eauto |]. split.
    + intros method Hmethod. apply logs_state_spec in Hmethod.
      rewrite Hlogs in Hmethod. inversion Hmethod. reflexivity.
    + intros Hnone. exfalso. eauto.
  - assert (Hnone : ~ exists method, captures_log node scope method).
    { intros [method Hmethod]. apply logs_state_spec in Hmethod. congruence. }
    split; [split |]; [| | split].
    + intros [replacement Hreturn]. discriminate.
    + intros Hsome. contradiction.
    + intros method Hmethod. exfalso. eauto.
    + reflexivity.
Qed.

(** C10: [$state()] and [$state.raw()] without an argument are lowered
    to [$.state] called with an undefined initial value, and nothing
    is wrapped in a proxy; with an argument, the lowered argument is
    wrapped in [$.proxy] exactly when the rune is [$state] and the
    argument needs a proxy. *)
Theorem state_declaration (node : CallNode) (scope : scope.Scope) (o : O) :
  get_rune node scope = Some "$state"
  \/ get_rune node scope = Some "$state.raw" ->
  (arguments node = [] ->
   CallExpression node scope o = (Return (b.call "$.state" [None]), o))
  /\ (forall arg rest,
        arguments node = arg :: rest ->
        get_rune node scope = Some "$state" ->
        should_proxy arg scope = true ->
        CallExpression node scope o
        = let '(value, o') := visit arg o in
          (Return (b.call "$.state" [Some (b.call "$.proxy" [Some value])]), o'))
  /\ (forall arg rest,
        arguments node = arg :: rest ->
        get_rune node scope = Some "$state.raw"
        \/ should_proxy arg scope = false ->
        CallExpression node scope o
        = let '(value, o') := visit arg o in
          (Return (b.call "$.state" [Some value]), o')).
Proof.
  intros Hrune. unfold CallExpression, bind, ret.
  split; [| split].
  - intros Hnone. rewrite Hnone. destruct Hrune as [-> | ->]; reflexivity.
  - intros arg rest Hsome Hplain Hproxy. rewrite Hsome, Hplain. simpl.
    rewrite Hproxy. destruct (visit arg o). reflexivity.
  - intros arg rest Hsome Hcase. rewrite Hsome.
    destruct Hrune as [Hplain | Hraw].
    + destruct Hcase as [Hraw | Hproxy]; [congruence |].
      rewrite Hplain. simpl. rewrite Hproxy. destruct (visit arg o). reflexivity.
    + rewrite Hraw. simpl. destruct (visit arg o). reflexivity.
Qed.

End Claims.

Lemma console_capture_witness :
  (forall r,
     @get_rune unit (Sample.call_imports true) Sample.console_log Sample.instance_scope
     = Some r -> ~ In r recognized_runes)
  /\ (@CallExpression unit (Sample.call_imports true) Sample.console_log
        Sample.instance_scope tt).1
      = Return
          (b.call (MemberExpression (Identifier "console") (Identifier "log") false)
             [Some (b.spread
                (b.call "$.log_if_contains_state"
                   [Some (b.literal (LString "log")); Some (Identifier "count")]))]).
Proof.
  assert (Hnot : forall r,
    @get_rune unit (Sample.call_imports true) Sample.console_log Sample.instance_scope
    = Some r -> ~ In r recognized_runes) by (intros r Hr; discriminate).
  split; [exact Hnot |].
  destruct (@console_capture unit (Sample.call_imports true) Sample.console_log
              Sample.instance_scope tt Hnot) as (_ & Hshape & _).
  rewrite (Hshape "log"); [reflexivity |].
  repeat split; simpl; eauto 10.
Defined.

Lemma state_declaration_witness :
  @get_rune unit (Sample.call_imports true) (Sample.state_call true [])
    Sample.instance_scope = Some "$state.raw"
  /\ @CallExpression unit (Sample.call_imports true) (Sample.state_call true [])
       Sample.instance_scope tt
     = (Return (estree.CallExpression (Identifier "$.state") []), tt).
Proof.
  split; [reflexivity |].
  apply (@state_declaration unit (Sample.call_imports true)
           (Sample.state_call true []) Sample.instance_scope tt).
  - right. reflexivity.
  - reflexivity.
Defined.

End CallExpressionClaims.

(** * Further properties of the two visitors *)

(** ** The other bits of the flags *)

Module FlagFacts.
Import EachBlockVisitor Notions FlagNotions int32_facts FlagProofs FlagClaims.

Local Open Scope Z_scope.

Section Facts.
Context {O : Type} `{Imports O}.

Lemma has_controlled node state :
  Independent ->
  has_flag (each_flags node state) EACH_IS_CONTROLLED
  = AST.is_controlled (AST.metadata node).
Proof.
  intros Hind. unfold has_flag.
  rewrite and_small
    by (first [apply each_flags_small; assumption | destruct Hind; assumption]).
  rewrite each_flags_lor by assumption.
  destruct Hind.
  rewrite !Z.land_lor_distr_l.
  rewrite ?land_mask_same.
  rewrite ?land_mask_other by (assumption || (rewrite Z.land_comm; assumption)).
  rewrite ?Z.lor_0_l, ?Z.lor_0_r.
  apply mask_nonzero; assumption.
Qed.

(** X1: the index-is-reactive flag is set if and only if the block is
    keyed and has an index. *)
Theorem index_reactive_flag (node : AST.EachBlock) (state : client.ClientState O) :
  independent_flags = true ->
  has_flag (each_flags node state) EACH_INDEX_REACTIVE = true
  <-> AST.keyed (AST.metadata node) = true /\ exists i, AST.index node = Some i.
Proof.
  intros Hind. apply independent_flags_facts in Hind.
  rewrite has_index_reactive by assumption.
  unfold index_reactive_when. rewrite andb_true_iff.
  destruct (AST.index node) as [i |]; simpl; split.
  - intros [Hkeyed _]. eauto.
  - intros [Hkeyed _]. auto.
  - intros [_ Hfalse]. discriminate.
  - intros [_ [i Hi]]. discriminate.
Qed.

(** X2: the item-is-immutable flag is set if and only if the component
    is in runes mode and no dependency of the collection expression is a
    store subscription; in legacy mode it is never set. *)
Theorem immutable_flag (node : AST.EachBlock) (state : client.ClientState O) :
  independent_flags = true ->
  (has_flag (each_flags node state) EACH_ITEM_IMMUTABLE = true
   <-> client.runes state = true
       /\ forall binding,
            In binding (collection_dependencies node) ->
            scope.kind binding <> scope.store_sub)
  /\ (client.runes state = false ->
      has_flag (each_flags node state) EACH_ITEM_IMMUTABLE = false).
Proof.
  intros Hind. apply independent_flags_facts in Hind.
  rewrite has_immutable by assumption.
  unfold immutable_when. split.
  - rewrite andb_true_iff, negb_true_iff, <- not_true_iff_false, uses_store_spec.
    split; intros [Hrunes Hstore]; split; try assumption.
    + intros binding Hin Hkind. apply Hstore. eauto.
    + intros (binding & Hin & Hkind). exact (Hstore binding Hin Hkind).
  - intros ->. reflexivity.
Qed.

(** X3: the number handed to the runtime is the bitwise or of the
    constants whose condition holds, and of nothing else; it is a
    non-negative number of 31 bits, and it is zero exactly when no
    condition holds. *)
Theorem flags_are_the_applicable_constants (node : AST.EachBlock)
  (state : client.ClientState O) :
  independent_flags = true ->
  each_flags node state
  = Z.lor (Z.lor (Z.lor (Z.lor
      (mask (index_reactive_when node) EACH_INDEX_REACTIVE)
      (mask (item_reactive_when node state) EACH_ITEM_REACTIVE))
      (mask (immutable_when node state) EACH_ITEM_IMMUTABLE))
      (mask (animated_when node) EACH_IS_ANIMATED))
      (mask (AST.is_controlled (AST.metadata node)) EACH_IS_CONTROLLED)
  /\ 0 <= each_flags node state < 2 ^ 31
  /\ (each_flags node state = 0
      <-> index_reactive_when node = false
          /\ item_reactive_when node state = false
          /\ immutable_when node state = false
          /\ animated_when node = false
          /\ AST.is_controlled (AST.metadata node) = false).
Proof.
  intros Hind. apply independent_flags_facts in Hind.
  split; [apply each_flags_lor; assumption |].
  split; [apply each_flags_small; assumption |].
  rewrite each_flags_lor by assumption.
  rewrite !Z.lor_eq_0_iff.
  assert (Hmask : forall enabled c, 0 < c -> mask enabled c = 0 <-> enabled = false).
  { intros [] c Hc; simpl; split; intros; try reflexivity; try discriminate; lia. }
  destruct Hind.
  rewrite !Hmask by assumption. tauto.
Qed.

End Facts.

Lemma index_reactive_flag_witness :
  @independent_flags unit Sample.legacy_imports = true
  /\ has_flag
       (@each_flags unit Sample.legacy_imports (Sample.keyed_each false)
          (client.state Sample.keyed_context))
       Sample.INDEX_REACTIVE = true.
Proof.
  split; [reflexivity |].
  apply (@index_reactive_flag unit Sample.legacy_imports (Sample.keyed_each false)
           (client.state Sample.keyed_context)); [reflexivity |].
  split; [reflexivity | exists "i"; reflexivity].
Defined.

Lemma immutable_flag_witness :
  @independent_flags unit Sample.legacy_imports = true
  /\ has_flag
       (@each_flags unit Sample.legacy_imports Sample.store_each
          (client.state Sample.store_context))
       Sample.ITEM_IMMUTABLE = false.
Proof.
  split; [reflexivity |].
  apply (@immutable_flag unit Sample.legacy_imports Sample.store_each
           (client.state Sample.store_context)); reflexivity.
Defined.

Lemma flags_are_the_applicable_constants_witness :
  @independent_flags unit Sample.legacy_imports = true
  /\ (0 <= @each_flags unit Sample.legacy_imports (Sample.keyed_each false)
             (client.state Sample.keyed_context) < 2 ^ 31).
Proof.
  split; [reflexivity |].
  apply (@flags_are_the_applicable_constants unit Sample.legacy_imports
           (Sample.keyed_each false) (client.state Sample.keyed_context)).
  reflexivity.
Defined.

End FlagFacts.

(** ** The store, the transitive dependencies and the captured collection *)

Module InvalidationFacts.
Import transformers EachBlockVisitor Notions FlagNotions MoreNotions.
Import LowerProofs VisitorProofs TableProofs FlagProofs FlagFacts.

Ltac run_lower Hwf :=
  match goal with
  | |- context [lower ?node ?c ?o] => destruct (lower_run node c o Hwf)
    as (collection & o1 & collection_id & o2 & child & inner & w1 & tables & w2
        & block & o3 & uses_index & key_function & o4 & key_uses_index
        & fallback & o5 & Hcollection & Hid & Hinner & Hbind & Hblock & Hkey
        & Hfallback & Hlower)
  end.

Section Facts.
Context {O : Type} `{Imports O}.

(** X4: the comment that anchors the block is pushed onto the template
    exactly when the controlled flag is clear, and the flag is set
    exactly for a controlled block. *)
Theorem comment_unless_controlled (node : AST.EachBlock)
  (context : client.ComponentContext O) (o : O) :
  well_formed node (client.state context) = true ->
  independent_flags = true ->
  exists l effects o',
    lower node context o = (Ok l, o')
    /\ EachBlock node context o = (Ok effects, o')
    /\ push_comment effects = negb (has_flag (flags l) EACH_IS_CONTROLLED)
    /\ (has_flag (flags l) EACH_IS_CONTROLLED = true
        <-> AST.is_controlled (AST.metadata node) = true).
Proof.
  intros Hwf Hind. apply independent_flags_facts in Hind. run_lower Hwf.
  eexists _, _, _. split; [exact Hlower |].
  split; [unfold EachBlock, bind; rewrite Hlower; reflexivity |].
  unfold assemble. cbn [push_comment EachBlockVisitor.flags].
  rewrite has_controlled by assumption. split; reflexivity.
Qed.

Lemma find_store_to_invalidate_object node (state : client.ClientState O) :
  find_store_to_invalidate node state
  = match object (AST.expression node) with
    | Some id_name =>
        match scope.get (client.scope state) id_name with
        | Some binding =>
            if scope.kind_eqb (scope.kind binding) scope.store_sub
            then id_name else EmptyString
        | None => EmptyString
        end
    | None => EmptyString
    end.
Proof.
  unfold find_store_to_invalidate. destruct (AST.expression node); reflexivity.
Qed.

(** X5: the store that is invalidated is the identifier the collection
    expression starts from, when that identifier resolves, in the scope
    of the block, to a store subscription, and no store otherwise; the
    sequence of invalidations holds a [$.invalidate_store] call exactly
    when there is such a store. *)
Theorem store_to_invalidate_is_the_root (node : AST.EachBlock)
  (context : client.ComponentContext O) (o : O) :
  well_formed node (client.state context) = true ->
  exists l o',
    lower node context o = (Ok l, o')
    /\ (forall name,
          name <> EmptyString ->
          store_to_invalidate l = name
          <-> object (AST.expression node) = Some name
              /\ exists binding,
                   scope.get (client.scope (client.state context)) name = Some binding
                   /\ scope.kind binding = scope.store_sub)
    /\ existsb (is_call_of "$.invalidate_store") (sequence l)
       = negb (String.eqb (store_to_invalidate l) EmptyString).
Proof.
  intros Hwf. run_lower Hwf.
  eexists _, _. split; [exact Hlower |].
  unfold assemble.
  cbn [EachBlockVisitor.store_to_invalidate EachBlockVisitor.sequence].
  split.
  - intros name Hname. rewrite find_store_to_invalidate_object.
    destruct (object (AST.expression node)) as [id_name |].
    2:{ split; [intros Heq; congruence | intros [Hnone _]; discriminate]. }
    destruct (scope.get (client.scope (client.state context)) id_name)
      as [binding |] eqn:Hget.
    2:{ split; [intros Heq; congruence |].
        intros [Hsome (binding & Hbinding & _)]. congruence. }
    destruct (scope.kind_eqb (scope.kind binding) scope.store_sub) eqn:Hkind.
    + apply FlagClaims.kind_eqb_eq in Hkind. split.
      * intros ->. eauto.
      * intros [Hsome _]. congruence.
    + split; [intros Heq; congruence |].
      intros [Hsome (binding' & Hbinding & Hstore)].
      assert (binding' = binding) by congruence. subst.
      apply FlagClaims.kind_eqb_eq in Hstore. congruence.
  - destruct (invalidate_inner_signals_spec _ _ _ _ _ _ _ _ Hinner) as [Hshape _].
    unfold build_sequence, invalidate_store.
    destruct (String.eqb _ EmptyString); simpl.
    + destruct Hshape as [-> | [visited ->]]; reflexivity.
    + rewrite existsb_app. simpl. apply orb_true_r.
Qed.

(** *** The set of identifiers to invalidate *)

Lemma set_add_refs s x r :
  In r (List.map scope.ref (set_add s x))
  <-> In r (List.map scope.ref s) \/ r = scope.ref x.
Proof.
  unfold set_add.
  destruct (existsb _ s) eqn:Hex.
  - apply existsb_exists in Hex. destruct Hex as (y & Hin & Heq).
    apply Nat.eqb_eq in Heq. split; [auto |].
    intros [Hr | ->]; [assumption |].
    rewrite <- Heq. apply in_map. assumption.
  - rewrite List.map_app, in_app_iff. simpl. intuition.
Qed.

Lemma NoDup_snoc (l : list nat) (a : nat) :
  List.NoDup l -> ~ In a l -> List.NoDup (l ++ [a]).
Proof.
  induction 1 as [| r rs Hr Hrs IH]; simpl; intros Hnew.
  - constructor; [intros [] | constructor].
  - constructor.
    + rewrite in_app_iff. simpl. intros [Hin | [Heq | []]]; [contradiction |].
      apply Hnew. left. congruence.
    + apply IH. intros Hin. apply Hnew. right. assumption.
Qed.

Lemma set_add_NoDup s x :
  List.NoDup (List.map scope.ref s) -> List.NoDup (List.map scope.ref (set_add s x)).
Proof.
  intros Hs. unfold set_add.
  destruct (existsb _ s) eqn:Hex; [assumption |].
  rewrite List.map_app. simpl. apply NoDup_snoc; [assumption |].
  intros Hin. apply in_map_iff in Hin. destruct Hin as (y & Heq & Hin).
  assert (Htrue : existsb (fun y => Nat.eqb (scope.ref y) (scope.ref x)) s = true).
  { apply existsb_exists. exists y. split; [assumption |].
    apply Nat.eqb_eq. assumption. }
  congruence.
Qed.

Lemma add_bindings_refs bindings :
  forall s r,
    In r (List.map scope.ref (add_bindings s bindings))
    <-> In r (List.map scope.ref s)
        \/ exists binding, In binding bindings /\ scope.ref (scope.node binding) = r.
Proof.
  unfold add_bindings.
  induction bindings as [| binding rest IH]; intros s r; simpl.
  - split; [auto | intros [Hin | (binding & [] & _)]; assumption].
  - rewrite IH, set_add_refs. split.
    + intros [[Hin | ->] | (other & Hin & Heq)]; eauto 6.
    + intros [Hin | (other & [-> | Hin] & Heq)]; eauto 6.
Qed.

Lemma add_bindings_NoDup bindings :
  forall s,
    List.NoDup (List.map scope.ref s) ->
    List.NoDup (List.map scope.ref (add_bindings s bindings)).
Proof.
  unfold add_bindings.
  induction bindings as [| binding rest IH]; intros s Hs; simpl; [assumption |].
  apply IH, set_add_NoDup. assumption.
Qed.

Lemma add_blocks_refs blocks :
  forall s r,
    In r (List.map scope.ref
            (foldl (fun s block =>
                      add_bindings s (AST.transitive_deps (AST.metadata block)))
               s blocks))
    <-> In r (List.map scope.ref s)
        \/ exists block binding,
             In block blocks
             /\ In binding (AST.transitive_deps (AST.metadata block))
             /\ scope.ref (scope.node binding) = r.
Proof.
  induction blocks as [| block rest IH]; intros s r; simpl.
  - split; [auto | intros [Hin | (block & binding & [] & _)]; assumption].
  - rewrite IH, add_bindings_refs. split.
    + intros [[Hin | (binding & Hin & Heq)] | (other & binding & Hin & Hdep & Heq)];
        eauto 8.
    + intros [Hin | (other & binding & [-> | Hin] & Hdep & Heq)]; eauto 8.
Qed.

Lemma add_blocks_NoDup blocks :
  forall s,
    List.NoDup (List.map scope.ref s) ->
    List.NoDup (List.map scope.ref
             (foldl (fun s block =>
                       add_bindings s (AST.transitive_deps (AST.metadata block)))
                s blocks)).
Proof.
  induction blocks as [| block rest IH]; intros s Hs; simpl; [assumption |].
  apply IH, add_bindings_NoDup. assumption.
Qed.

Lemma collect_parent_each_blocks_spec (context : client.ComponentContext O) block :
  In block (collect_parent_each_blocks context)
  <-> In (AST.EachBlock_ block) (client.path context).
Proof.
  unfold collect_parent_each_blocks.
  rewrite <- !list_elem_of_In, list_elem_of_omap. split.
  - intros (n & Hin & Hsome). destruct n; inversion Hsome; subst. assumption.
  - intros Hin. eexists. split; [exact Hin | reflexivity].
Qed.

(** X6: the identifiers whose signals are invalidated form a set: no
    identifier object occurs twice.  They are the captured collection, if
    there is one, and the transitive dependencies of the block itself
    otherwise, together with the transitive dependencies of every each
    block on the path to the block. *)
Theorem transitive_deps_are_a_set (node : AST.EachBlock)
  (context : client.ComponentContext O)
  (collection_id : option scope.IdentifierObject) :
  List.NoDup (List.map scope.ref (collect_transitive_deps node context collection_id))
  /\ forall r,
       In r (List.map scope.ref (collect_transitive_deps node context collection_id))
       <-> match collection_id with
           | Some id => r = scope.ref id
           | None =>
               exists binding,
                 In binding (AST.transitive_deps (AST.metadata node))
                 /\ scope.ref (scope.node binding) = r
           end
           \/ exists block binding,
                In (AST.EachBlock_ block) (client.path context)
                /\ In binding (AST.transitive_deps (AST.metadata block))
                /\ scope.ref (scope.node binding) = r.
Proof.
  unfold collect_transitive_deps. split.
  - apply add_blocks_NoDup.
    destruct collection_id as [id |].
    + apply set_add_NoDup. constructor.
    + apply add_bindings_NoDup. constructor.
  - intros r. rewrite add_blocks_refs.
    assert (Hparents :
      (exists block binding,
         In block (collect_parent_each_blocks context)
         /\ In binding (AST.transitive_deps (AST.metadata block))
         /\ scope.ref (scope.node binding) = r)
      <-> exists block binding,
            In (AST.EachBlock_ block) (client.path context)
            /\ In binding (AST.transitive_deps (AST.metadata block))
            /\ scope.ref (scope.node binding) = r).
    { split; intros (block & binding & Hin & Hrest);
        exists block, binding; split; try assumption;
        apply collect_parent_each_blocks_spec; assumption. }
    rewrite Hparents.
    destruct collection_id as [id |].
    + rewrite set_add_refs. simpl. tauto.
    + rewrite add_bindings_refs. simpl. tauto.
Qed.

End Facts.

Lemma comment_unless_controlled_witness :
  well_formed Sample.store_each (client.state Sample.store_context) = true
  /\ @independent_flags unit Sample.legacy_imports = true
  /\ exists (l : @Locals unit) effects o',
       @EachBlock unit Sample.legacy_imports Sample.store_each Sample.store_context tt
       = (Ok effects, o')
       /\ push_comment effects = negb (has_flag (flags l) Sample.IS_CONTROLLED).
Proof.
  split; [reflexivity |]. split; [reflexivity |].
  destruct (@comment_unless_controlled unit Sample.legacy_imports Sample.store_each
              Sample.store_context tt eq_refl eq_refl)
    as (l & effects & o' & _ & Heach & Hpush & _).
  exists l, effects, o'. split; assumption.
Defined.

Lemma store_to_invalidate_is_the_root_witness :
  well_formed Sample.store_each (client.state Sample.store_context) = true
  /\ exists l o',
       @lower unit Sample.legacy_imports Sample.store_each Sample.store_context tt
       = (Ok l, o')
       /\ existsb (is_call_of "$.invalidate_store") (sequence l)
          = negb (String.eqb (store_to_invalidate l) EmptyString).
Proof.
  split; [reflexivity |].
  destruct (@store_to_invalidate_is_the_root unit Sample.legacy_imports
              Sample.store_each Sample.store_context tt eq_refl)
    as (l & o' & Hlower & _ & Hsequence).
  exists l, o'. split; assumption.
Defined.

End InvalidationFacts.

(** ** The item as an identifier, the fallback and the index alias *)

Module ItemFacts.
Import transformers EachBlockVisitor Notions FlagNotions MoreNotions.
Import FlagProofs LowerProofs VisitorProofs TableProofs.

Ltac run_lower Hwf :=
  match goal with
  | |- context [lower ?node ?c ?o] => destruct (lower_run node c o Hwf)
    as (collection & o1 & collection_id & o2 & child & inner & w1 & tables & w2
        & block & o3 & uses_index & key_function & o4 & key_uses_index
        & fallback & o5 & Hcollection & Hid & Hinner & Hbind & Hblock & Hkey
        & Hfallback & Hlower)
  end.

Section Facts.
Context {O : Type} `{Imports O}.

Lemma visit_reference (table : gmap string (Strategy (O * bool))) name :
  visit_expression table (Identifier name)
  = match lookup_strategy table read name with
    | Some f => f (Identifier name)
    | None => ret (Identifier name)
    end.
Proof. reflexivity. Qed.

Lemma visit_member (table : gmap string (Strategy (O * bool))) o p c :
  visit_expression table (MemberExpression o p c)
  = let* o' := visit_expression table o in
    let* p' := (if c then visit_expression table p else ret p) in
    ret (MemberExpression o' p' c).
Proof. reflexivity. Qed.

Lemma visit_member_assignment (table : gmap string (Strategy (O * bool))) op o p c r :
  visit_expression table (AssignmentExpression op (MemberExpression o p c) r)
  = let* l' := visit_expression table (MemberExpression o p c) in
    let* r' := visit_expression table r in
    match object (MemberExpression o p c) with
    | Some name =>
        match lookup_strategy table mutate name with
        | Some f => f (Identifier name) (AssignmentExpression op l' r')
        | None => ret (AssignmentExpression op l' r')
        end
    | None => ret (AssignmentExpression op l' r')
    end.
Proof. reflexivity. Qed.

(** The set starts with the captured collection and keeps it in front. *)
Lemma set_add_head x s y : exists s', set_add (x :: s) y = x :: s'.
Proof.
  unfold set_add. destruct (existsb _ (x :: s)); [eauto |].
  exists (s ++ [y]). reflexivity.
Qed.

Lemma add_bindings_head bindings :
  forall x s, exists s', add_bindings (x :: s) bindings = x :: s'.
Proof.
  unfold add_bindings.
  induction bindings as [| binding rest IH]; intros x s; simpl; [eauto |].
  destruct (set_add_head x s (scope.node binding)) as [s' ->]. apply IH.
Qed.

Lemma collect_transitive_deps_head node (context : client.ComponentContext O) id :
  exists others, collect_transitive_deps node context (Some id) = id :: others.
Proof.
  unfold collect_transitive_deps.
  assert (Hstart : set_add [] id = [id]) by reflexivity. rewrite Hstart.
  generalize (@nil scope.IdentifierObject).
  induction (collect_parent_each_blocks context) as [| block rest IH];
    intros s; simpl; [eauto |].
  destruct (add_bindings_head (AST.transitive_deps (AST.metadata block)) id s)
    as [s' ->].
  apply IH.
Qed.

(** X7: in legacy mode, when the collection is captured, every write to
    the item invalidates the inner signals, and the first signal read in
    that call is the captured collection, read as a call of its
    identifier. *)
Theorem captured_collection_is_invalidated (node : AST.EachBlock)
  (context : client.ComponentContext O) (o : O) :
  well_formed node (client.state context) = true ->
  client.runes (client.state context) = false ->
  exists l o',
    lower node context o = (Ok l, o')
    /\ forall id,
         collection_id l = Some id ->
         exists others rest,
           sequence l
           = b.call "$.invalidate_inner_signals"
               [Some (b.thunk
                  (b.sequence (b.call (Identifier (scope.name id)) [] :: others))
                  false)]
             :: rest.
Proof.
  intros Hwf Hrunes. run_lower Hwf.
  eexists _, _. split; [exact Hlower |].
  unfold assemble.
  cbn [EachBlockVisitor.collection_id EachBlockVisitor.sequence].
  intros id ->.
  unfold invalidate_inner_signals in Hinner. rewrite Hrunes in Hinner.
  destruct (collect_transitive_deps_head node context id) as [others Hdeps].
  rewrite Hdeps in Hinner.
  cbn [length Nat.ltb Nat.leb map_state] in Hinner.
  unfold bind at 1 2 in Hinner.
  rewrite visit_reference in Hinner. unfold lookup_strategy in Hinner.
  rewrite lookup_insert_eq in Hinner. cbn [read reader ret] in Hinner.
  unfold bind in Hinner.
  destruct (map_state _ others _) as [visited w'].
  inversion Hinner; subst.
  unfold build_sequence.
  destruct (invalidate_store _); simpl; eauto.
Qed.

(** X8: an assignment to a member of an item that is a plain identifier
    is lowered to a sequence that starts with the assignment, in which
    the item is read as any other read of the item, followed by the
    invalidations; it marks the index as used. *)
Theorem item_mutation (node : AST.EachBlock)
  (context : client.ComponentContext O) (o : O) (name : string) :
  well_formed node (client.state context) = true ->
  AST.context node = Some (Identifier name) ->
  exists l o' binding,
    lower node context o = (Ok l, o')
    /\ scope.get (client.scope (client.state context)) name = Some binding
    /\ forall op property value w,
         visit_expression (child_transform l)
           (AssignmentExpression op
              (MemberExpression (Identifier name) property false) value) w
         = let '(value', (o'', _)) :=
             visit_expression (child_transform l) value w in
           (b.sequence
              (AssignmentExpression op
                 (MemberExpression
                    (if scope.reassigned binding
                     then b.member
                            (match collection_id l with
                             | Some id => b.call (Identifier (scope.name id)) []
                             | None => collection l
                             end)
                            (if has_flag (flags l) EACH_INDEX_REACTIVE
                             then get_value (index l) else index l)
                            true
                     else if has_flag (flags l) EACH_ITEM_REACTIVE
                          then get_value (Identifier name)
                          else Identifier name)
                    property false)
                 value'
               :: sequence l),
            (o'', true)).
Proof.
  intros Hwf Hcontext. run_lower Hwf.
  destruct (well_formed_item _ _ _ Hwf Hcontext) as [binding Hget].
  rewrite (bind_item_identifier _ _ _ _ _ _ _ _ _ _ Hcontext Hget) in Hbind.
  inversion Hbind; subst tables. clear Hbind.
  eexists _, _, binding. split; [exact Hlower |]. split; [exact Hget |].
  intros op property value w. unfold assemble.
  cbn [EachBlockVisitor.child_transform EachBlockVisitor.collection_id
         EachBlockVisitor.collection EachBlockVisitor.flags
         EachBlockVisitor.index EachBlockVisitor.sequence child_table].
  rewrite visit_member_assignment, visit_member, visit_reference.
  unfold lookup_strategy. rewrite lookup_insert_eq.
  cbn [read mutate item_strategy object]. unfold bind, ret.
  destruct (visit_expression _ value w) as [value' [o'' cell]].
  rewrite lookup_insert_eq. reflexivity.
Qed.

(** X9: the fallback, if there is one, is lowered with the state of the
    context itself and becomes the sixth and last argument of [$.each],
    a function of the anchor alone; without a fallback the call has five
    arguments. *)
Theorem fallback_is_the_last_argument (node : AST.EachBlock)
  (context : client.ComponentContext O) (o : O) :
  well_formed node (client.state context) = true ->
  exists l o',
    lower node context o = (Ok l, o')
    /\ (AST.fallback node = None -> length (args l) = 5%nat)
    /\ (forall fragment,
          AST.fallback node = Some fragment ->
          exists o4,
            o' = (visit_fragment O (client.state context) fragment o4).2
            /\ args l
               = [client.node (client.state context);
                  b.literal (LNumber (flags l)); thunk l; key_function l;
                  b.arrow (render_args l) (b.block (declarations l ++ block l));
                  b.arrow [b.id "$$anchor"]
                    (b.block
                       (visit_fragment O (client.state context) fragment o4).1)]).
Proof.
  intros Hwf. run_lower Hwf.
  eexists _, _. split; [exact Hlower |].
  unfold lower_fallback in Hfallback. unfold assemble.
  cbn [EachBlockVisitor.args EachBlockVisitor.flags EachBlockVisitor.thunk
         EachBlockVisitor.key_function EachBlockVisitor.render_args
         EachBlockVisitor.declarations EachBlockVisitor.block].
  split.
  - intros Hnone. rewrite Hnone in Hfallback. inversion Hfallback. reflexivity.
  - intros fragment Hsome. rewrite Hsome in Hfallback. unfold bind in Hfallback.
    exists o4.
    destruct (visit_fragment O (client.state context) fragment o4) as [body o6].
    inversion Hfallback; subst. split; reflexivity.
Qed.

Lemma bind_item_without_pattern node state collection collection_id flags sequence
  acc w tables w' :
  match AST.context node with
  | Some pattern => is_Identifier pattern = true
  | None => True
  end ->
  bind_item node state collection collection_id flags sequence acc w
  = (Ok tables, w') ->
  declared tables = declared acc.
Proof.
  unfold bind_item. destruct (AST.context node) as [pattern |].
  - destruct pattern; try discriminate. intros _.
    destruct (scope.get (client.scope state) name); [| discriminate].
    intros Hrun. inversion Hrun. reflexivity.
  - intros _ Hrun. inversion Hrun. reflexivity.
Qed.

(** X10: when the item is a plain identifier, or when there is no item,
    the only declaration that can stand before the body is the alias of
    the index: with a group binding, the parameter of the renderer is the
    unique identifier of the index and the name of the index is declared
    as its alias; without one, the parameter is the index itself and
    nothing is declared. *)
Theorem index_alias_is_the_only_declaration (node : AST.EachBlock)
  (context : client.ComponentContext O) (o : O) :
  well_formed node (client.state context) = true ->
  match AST.context node with
  | Some pattern => is_Identifier pattern = true
  | None => True
  end ->
  exists l o',
    lower node context o = (Ok l, o')
    /\ (forall i,
          AST.index node = Some i ->
          AST.contains_group_binding (AST.metadata node) = true ->
          index l = AST.meta_index (AST.metadata node)
          /\ declarations l
             = [b.let_ (b.id i) (AST.meta_index (AST.metadata node))])
    /\ (forall i,
          AST.index node = Some i ->
          AST.contains_group_binding (AST.metadata node) = false ->
          index l = b.id i /\ declarations l = [])
    /\ (AST.index node = None ->
        index l = AST.meta_index (AST.metadata node) /\ declarations l = []).
Proof.
  intros Hwf Hitem. run_lower Hwf.
  pose proof (bind_item_without_pattern _ _ _ _ _ _ _ _ _ _ Hitem Hbind) as Hdeclared.
  simpl in Hdeclared.
  eexists _, _. split; [exact Hlower |].
  unfold assemble.
  cbn [EachBlockVisitor.index EachBlockVisitor.declarations].
  rewrite Hdeclared. unfold index_of.
  split; [| split].
  - intros i -> ->. split; reflexivity.
  - intros i -> ->. split; reflexivity.
  - intros ->. split; reflexivity.
Qed.


(** The legacy branch leaves every strategy but the one of the captured
    collection as it is. *)
Lemma invalidate_inner_signals_table node (context : client.ComponentContext O)
  collection_id table w child inner w' x :
  invalidate_inner_signals node context collection_id table w = ((child, inner), w') ->
  (forall id, collection_id = Some id -> scope.name id <> x) ->
  child !! x = table !! x.
Proof.
  unfold invalidate_inner_signals. intros Hrun Hfresh.
  destruct (client.runes (client.state context)).
  { inversion Hrun. reflexivity. }
  assert (Htable :
    match collection_id with
    | Some id => <[scope.name id := reader (fun node => ret (b.call node []))]> table
    | None => table
    end !! x = table !! x).
  { destruct collection_id as [id |]; [| reflexivity].
    apply lookup_insert_ne. apply Hfresh. reflexivity. }
  destruct (0 <? length _)%nat.
  - unfold bind in Hrun. destruct (map_state _ _ w) as [visited w''].
    inversion Hrun; subst. exact Htable.
  - inversion Hrun; subst. exact Htable.
Qed.

(** X11: when the item is a plain identifier, a reference to the index
    in the body is lowered to [$.get(index)] if the block is keyed and
    is left as it is otherwise, and either way it marks the index as
    used.  (The identifier of a captured collection is taken to differ
    from the name of the index.) *)
Theorem index_read (node : AST.EachBlock)
  (context : client.ComponentContext O) (o : O) (name i : string) :
  well_formed node (client.state context) = true ->
  independent_flags = true ->
  AST.context node = Some (Identifier name) ->
  AST.index node = Some i ->
  i <> name ->
  exists l o',
    lower node context o = (Ok l, o')
    /\ ((forall id, collection_id l = Some id -> scope.name id <> i) ->
        forall w,
          visit_expression (child_transform l) (Identifier i) w
          = (if AST.keyed (AST.metadata node)
             then b.call "$.get" [Some (Identifier i)] else Identifier i,
             (w.1, true))).
Proof.
  intros Hwf Hind Hcontext Hindex Hne. apply independent_flags_facts in Hind.
  run_lower Hwf.
  destruct (well_formed_item _ _ _ Hwf Hcontext) as [binding Hget].
  rewrite (bind_item_identifier _ _ _ _ _ _ _ _ _ _ Hcontext Hget) in Hbind.
  inversion Hbind; subst tables. clear Hbind.
  eexists _, _. split; [exact Hlower |].
  unfold assemble.
  cbn [EachBlockVisitor.child_transform EachBlockVisitor.collection_id child_table].
  intros Hfresh w. rewrite visit_reference. unfold lookup_strategy.
  rewrite lookup_insert_ne by congruence.
  rewrite (invalidate_inner_signals_table _ _ _ _ _ _ _ _ i Hinner Hfresh).
  unfold with_index. rewrite Hindex, lookup_insert_eq.
  cbn [read index_strategy reader].
  rewrite has_index_reactive by assumption.
  unfold index_reactive_when. rewrite Hindex.
  destruct w as [o' cell]. unfold bind, set_cell, ret, get_value. simpl.
  rewrite andb_true_r. reflexivity.
Qed.

End Facts.

Lemma captured_collection_is_invalidated_witness :
  well_formed shadow_each (client.state shadow_context) = true
  /\ client.runes (client.state shadow_context) = false
  /\ exists l o',
       @lower unit Sample.legacy_imports shadow_each shadow_context tt = (Ok l, o')
       /\ forall id,
            collection_id l = Some id ->
            exists others rest,
              sequence l
              = b.call "$.invalidate_inner_signals"
                  [Some (b.thunk
                     (b.sequence (b.call (Identifier (scope.name id)) [] :: others))
                     false)]
                :: rest.
Proof.
  split; [reflexivity |]. split; [reflexivity |].
  exact (@captured_collection_is_invalidated unit Sample.legacy_imports shadow_each
           shadow_context tt eq_refl eq_refl).
Defined.

Lemma item_mutation_witness :
  well_formed Sample.store_each (client.state Sample.store_context) = true
  /\ AST.context Sample.store_each = Some (Identifier "item")
  /\ exists l o' binding,
       @lower unit Sample.legacy_imports Sample.store_each Sample.store_context tt
       = (Ok l, o')
       /\ scope.get (client.scope (client.state Sample.store_context)) "item"
          = Some binding.
Proof.
  split; [reflexivity |]. split; [reflexivity |].
  destruct (@item_mutation unit Sample.legacy_imports Sample.store_each
              Sample.store_context tt "item" eq_refl eq_refl)
    as (l & o' & binding & Hlower & Hget & _).
  exists l, o', binding. split; assumption.
Defined.

Lemma fallback_is_the_last_argument_witness :
  well_formed Sample.store_each (client.state Sample.store_context) = true
  /\ exists l o',
       @lower unit Sample.legacy_imports Sample.store_each Sample.store_context tt
       = (Ok l, o')
       /\ length (args l) = 5%nat.
Proof.
  split; [reflexivity |].
  destruct (@fallback_is_the_last_argument unit Sample.legacy_imports
              Sample.store_each Sample.store_context tt eq_refl)
    as (l & o' & Hlower & Hnone & _).
  exists l, o'. split; [assumption |]. apply Hnone. reflexivity.
Defined.

Lemma index_alias_is_the_only_declaration_witness :
  well_formed Sample.store_each (client.state Sample.store_context) = true
  /\ exists l o',
       @lower unit Sample.legacy_imports Sample.store_each Sample.store_context tt
       = (Ok l, o')
       /\ index l = b.id "i"
       /\ declarations l = [].
Proof.
  split; [reflexivity |].
  destruct (@index_alias_is_the_only_declaration unit Sample.legacy_imports
              Sample.store_each Sample.store_context tt eq_refl eq_refl)
    as (l & o' & Hlower & _ & Hplain & _).
  exists l, o'. split; [assumption |]. apply (Hplain "i"); reflexivity.
Defined.

Lemma index_read_witness :
  well_formed Sample.store_each (client.state Sample.store_context) = true
  /\ @independent_flags unit Sample.legacy_imports = true
  /\ AST.index Sample.store_each = Some "i"
  /\ exists l o',
       @lower unit Sample.legacy_imports Sample.store_each Sample.store_context tt
       = (Ok l, o')
       /\ ((forall id, collection_id l = Some id -> scope.name id <> "i") ->
           forall w,
             visit_expression (child_transform l) (Identifier "i") w
             = (Identifier "i", (w.1, true))).
Proof.
  split; [reflexivity |]. split; [reflexivity |]. split; [reflexivity |].
  assert (Hne : "i" <> "item") by discriminate.
  exact (@index_read unit Sample.legacy_imports Sample.store_each
           Sample.store_context tt "item" "i" eq_refl eq_refl eq_refl eq_refl Hne).
Defined.

End ItemFacts.

(** ** A destructuring pattern as item, and the key *)

Module PatternFacts.
Import transformers EachBlockVisitor Notions FlagNotions MoreNotions.
Import LowerProofs VisitorProofs TableProofs.

Ltac run_lower Hwf :=
  match goal with
  | |- context [lower ?node ?c ?o] => destruct (lower_run node c o Hwf)
    as (collection & o1 & collection_id & o2 & child & inner & w1 & tables & w2
        & block & o3 & uses_index & key_function & o4 & key_uses_index
        & fallback & o5 & Hcollection & Hid & Hinner & Hbind & Hblock & Hkey
        & Hfallback & Hlower)
  end.

Section Facts.
Context {O : Type} `{Imports O}.

(** The strategies of the leaves, when no two leaves share a name. *)
Lemma declare_paths_table paths names sequence :
  forall acc w acc' w',
    declare_paths paths names sequence acc w = (acc', w') ->
    List.NoDup (path_names paths) ->
    (forall path,
       In path paths ->
       child_table acc' !! destructuring.name_of (destructuring.node path)
       = Some (path_strategy names path (leaf_read path) sequence))
    /\ (forall name,
          ~ In name (path_names paths) ->
          child_table acc' !! name = child_table acc !! name).
Proof.
  induction paths as [| path rest IH]; intros acc w acc' w' Hrun Hnodup.
  - inversion Hrun; subst. split; [intros path [] | reflexivity].
  - simpl in Hrun. unfold bind in Hrun.
    destruct (visit_expression _ _ w) as [v w1].
    change (path_names (path :: rest))
      with (destructuring.name_of (destructuring.node path) :: path_names rest)
      in Hnodup |- *.
    inversion Hnodup as [| ? ? Hfresh Hrest]; subst.
    destruct (IH _ _ _ _ Hrun Hrest) as (Hleaf & Hother).
    cbn [child_table] in Hother. split.
    + intros p [<- | Hin]; [| apply Hleaf; assumption].
      rewrite (Hother _ Hfresh), lookup_insert_eq. f_equal.
      unfold leaf_read.
      destruct (destructuring.has_default_value path); reflexivity.
    + intros name Hnot. rewrite Hother by (intros Hin; apply Hnot; right; assumption).
      apply lookup_insert_ne. intros <-. apply Hnot. left. reflexivity.
Qed.

(** The names of the identifier objects of the inserts, when every
    insert has an object of its own. *)
Lemma set_names_other entries :
  forall names r,
    ~ In r (entries.*1) ->
    destructuring.set_names entries names r = names r.
Proof.
  unfold destructuring.set_names.
  induction entries as [| [r0 g0] rest IH]; intros names r Hnot; [reflexivity |].
  simpl. rewrite IH by (intros Hin; apply Hnot; right; assumption).
  unfold destructuring.set_name.
  destruct (Nat.eqb_spec r r0) as [-> | Hne]; [| reflexivity].
  exfalso. apply Hnot. left. reflexivity.
Qed.

Lemma fst_zip_ids (inserts : list destructuring.Insert) :
  forall given : list string,
    length given = length inserts ->
    (zip (destructuring.id <$> inserts) given).*1 = destructuring.id <$> inserts.
Proof.
  intros given Hlength. apply fst_zip. rewrite length_fmap. lia.
Qed.

Lemma derived_variables_named (inserts : list destructuring.Insert) :
  forall (given : list string) (inits : list Node) names,
    List.NoDup (destructuring.id <$> inserts) ->
    length given = length inserts ->
    zip_with
      (fun name e => b.var (Identifier name) (b.call "$.derived" [Some e]))
      given inits
    = zip_with
        (fun insert e =>
           b.var
             (Identifier
                (destructuring.set_names (zip (destructuring.id <$> inserts) given)
                   names (destructuring.id insert)))
             (b.call "$.derived" [Some e]))
        inserts inits.
Proof.
  induction inserts as [| insert rest IH];
    intros [| name given] inits names Hnodup Hlength; try discriminate;
    [reflexivity |].
  destruct inits as [| init inits]; [reflexivity |].
  rewrite fmap_cons in Hnodup. inversion Hnodup as [| ? ? Hfresh Hrest]; subst.
  simpl in Hlength. injection Hlength as Hlength.
  cbn [zip_with]. f_equal.
  - rewrite fmap_cons. cbn [zip zip_with].
    change (destructuring.set_names
              ((destructuring.id insert, name)
               :: zip (destructuring.id <$> rest) given) names)
      with (destructuring.set_names (zip (destructuring.id <$> rest) given)
              (destructuring.set_name (destructuring.id insert) name names)).
    rewrite set_names_other by (rewrite fst_zip_ids; assumption).
    unfold destructuring.set_name. rewrite Nat.eqb_refl. reflexivity.
  - rewrite (IH given inits
               (destructuring.set_name (destructuring.id insert) name names)
               Hrest Hlength).
    reflexivity.
Qed.

(** Both loops over a pattern: the declarations, and the strategy each
    leaf is left with. *)
Lemma bind_item_leaves node state collection collection_id flags sequence acc w
  tables w' pattern inserts paths :
  AST.context node = Some pattern ->
  is_Identifier pattern = false ->
  extract_paths pattern
    (if has_flag flags EACH_ITEM_REACTIVE
     then b.call "$.get" [Some (item_of node)] else item_of node)
  = (inserts, paths) ->
  bind_item node state collection collection_id flags sequence acc w
  = (Ok tables, w') ->
  exists given inits visited,
    length given = length inserts
    /\ length inits = length inserts
    /\ length visited = length paths
    /\ declared tables
       = declared acc
         ++ zip_with
              (fun name e => b.var (Identifier name) (b.call "$.derived" [Some e]))
              given inits
         ++ concat (zip_with (fun path v => leaf_statements path (b.thunk v false))
                      paths visited)
    /\ (List.NoDup (path_names paths) ->
        forall path,
          In path paths ->
          child_table tables !! destructuring.name_of (destructuring.node path)
          = Some (path_strategy
                    (destructuring.set_names
                       (zip (destructuring.id <$> inserts) given)
                       destructuring.unnamed)
                    path (leaf_read path) sequence)).
Proof.
  intros Hcontext Hpattern Hextract. unfold bind_item. rewrite Hcontext.
  destruct pattern; try discriminate;
    rewrite Hextract; unfold bind;
    destruct (declare_inserts _ _ _ _) as [[names acc1] w1] eqn:Hinserts;
    destruct (declare_paths _ _ _ _ _) as [acc2 w2] eqn:Hpaths;
    intros Hrun; inversion Hrun; subst;
    apply declare_inserts_names in Hinserts;
    destruct Hinserts as (given & inits & Hgiven & Hinits & Hnames & Hdeclared1);
    pose proof (declare_paths_declared _ _ _ _ _ _ _ Hpaths)
      as (visited & Hvisited & Hdeclared2);
    exists given, inits, visited;
    (split; [assumption |]); (split; [assumption |]); (split; [assumption |]);
    (split; [rewrite Hdeclared2, Hdeclared1, <- app_assoc; reflexivity |]);
    intros Hnodup path Hin;
    destruct (declare_paths_table _ _ _ _ _ _ _ Hpaths Hnodup) as [Hleaf _];
    rewrite <- Hnames; apply Hleaf; assumption.
Qed.

Lemma derived_variables_declare (given : list string) :
  forall inits : list Node,
    Forall (fun d => declares_call "$.derived" d = true)
      (zip_with
         (fun name e => b.var (Identifier name) (b.call "$.derived" [Some e]))
         given inits).
Proof.
  induction given as [| name given IH]; intros [| init inits]; try constructor.
  - reflexivity.
  - apply IH.
Qed.

(** X12: a leaf of a destructuring pattern is read in the body as a call
    of its name, or through [$.get] when it has a default value; the read
    leaves everything else as it is. *)
Theorem leaf_is_read_as_a_call (node : AST.EachBlock)
  (context : client.ComponentContext O) (o : O) (pattern : Node)
  (inserts : list destructuring.Insert) (paths : list destructuring.Path)
  (path : destructuring.Path) :
  well_formed node (client.state context) = true ->
  AST.context node = Some pattern ->
  is_Identifier pattern = false ->
  extract_paths pattern
    (if has_flag (each_flags node (client.state context)) EACH_ITEM_REACTIVE
     then b.call "$.get" [Some (item_of node)] else item_of node)
  = (inserts, paths) ->
  List.NoDup (path_names paths) ->
  In path paths ->
  exists l o',
    lower node context o = (Ok l, o')
    /\ forall w,
         visit_expression (child_transform l)
           (Identifier (destructuring.name_of (destructuring.node path))) w
         = (if destructuring.has_default_value path
            then b.call "$.get"
                   [Some (Identifier (destructuring.name_of (destructuring.node path)))]
            else b.call (Identifier (destructuring.name_of (destructuring.node path))) [],
            w).
Proof.
  intros Hwf Hcontext Hpattern Hextract Hnodup Hin. run_lower Hwf.
  destruct (bind_item_leaves _ _ _ _ _ _ _ _ _ _ _ _ _
              Hcontext Hpattern Hextract Hbind)
    as (given & inits & visited & _ & _ & _ & _ & Hleaves).
  pose proof (Hleaves Hnodup path Hin) as Hleaf.
  eexists _, _. split; [exact Hlower |].
  intros w. unfold assemble. cbn [EachBlockVisitor.child_transform].
  cbn [visit_expression]. unfold lookup_strategy. rewrite Hleaf.
  cbn [read path_strategy]. unfold ret, leaf_read.
  destruct (destructuring.has_default_value path); reflexivity.
Qed.

(** X13: for a destructured item, a plain assignment to a leaf is
    lowered to a sequence: the assignment of the lowered value to the
    place in the item the leaf was taken from, which is the update
    expression of its path read with the names under which the inserts
    are declared, followed by the invalidations.  An assignment to a
    member of a leaf, with any operator, is lowered to the assignment
    with the leaf in its read form, followed by the invalidations.
    Unlike a write to an item that is an identifier, the write itself
    does not mark the index as used. *)
Theorem leaf_write (node : AST.EachBlock)
  (context : client.ComponentContext O) (o : O) (pattern : Node)
  (inserts : list destructuring.Insert) (paths : list destructuring.Path)
  (path : destructuring.Path) :
  well_formed node (client.state context) = true ->
  AST.context node = Some pattern ->
  is_Identifier pattern = false ->
  extract_paths pattern
    (if has_flag (each_flags node (client.state context)) EACH_ITEM_REACTIVE
     then b.call "$.get" [Some (item_of node)] else item_of node)
  = (inserts, paths) ->
  List.NoDup (path_names paths) ->
  List.NoDup (destructuring.id <$> inserts) ->
  In path paths ->
  exists l o' (names : destructuring.Names) (inits rest : list Node),
    lower node context o = (Ok l, o')
    /\ length inits = length inserts
    /\ declarations l
       = zip_with
           (fun insert e =>
              b.var (Identifier (names (destructuring.id insert)))
                (b.call "$.derived" [Some e]))
           inserts inits
         ++ rest
    /\ (forall r, ~ In r (destructuring.id <$> inserts) -> names r = "#")
    /\ (forall value w,
          visit_expression (child_transform l)
            (AssignmentExpression "="
               (Identifier (destructuring.name_of (destructuring.node path))) value) w
          = let '(value', w') := visit_expression (child_transform l) value w in
            (b.sequence
               (b.assignment "=" (destructuring.update_expression path names) value'
                :: sequence l),
             w'))
    /\ (forall op property value w,
          visit_expression (child_transform l)
            (AssignmentExpression op
               (MemberExpression
                  (Identifier (destructuring.name_of (destructuring.node path)))
                  property false)
               value) w
          = let '(value', w') := visit_expression (child_transform l) value w in
            (b.sequence
               (AssignmentExpression op
                  (MemberExpression
                     (leaf_read path
                        (Identifier (destructuring.name_of (destructuring.node path))))
                     property false)
                  value'
                :: sequence l),
             w')).
Proof.
  intros Hwf Hcontext Hpattern Hextract Hnodup Hids Hin. run_lower Hwf.
  destruct (bind_item_leaves _ _ _ _ _ _ _ _ _ _ _ _ _
              Hcontext Hpattern Hextract Hbind)
    as (given & inits & visited & Hgiven & Hinits & _ & Hdeclared & Hleaves).
  pose proof (Hleaves Hnodup path Hin) as Hleaf.
  eexists _, _,
    (destructuring.set_names (zip (destructuring.id <$> inserts) given)
       destructuring.unnamed),
    inits, _.
  split; [exact Hlower |]. split; [exact Hinits |].
  unfold assemble.
  cbn [EachBlockVisitor.child_transform EachBlockVisitor.sequence
         EachBlockVisitor.declarations].
  split.
  { rewrite Hdeclared. cbn [declared app].
    rewrite (derived_variables_named inserts given inits destructuring.unnamed)
      by assumption.
    rewrite <- app_assoc. reflexivity. }
  split.
  { intros r Hnot. rewrite set_names_other; [reflexivity |].
    rewrite fst_zip_ids by assumption. exact Hnot. }
  split.
  - intros value w. cbn [visit_expression]. unfold lookup_strategy, bind.
    destruct (visit_expression _ value w) as [value' w'].
    rewrite Hleaf. reflexivity.
  - intros op property value w.
    change (visit_expression (child_table tables)
              (AssignmentExpression op
                 (MemberExpression
                    (Identifier (destructuring.name_of (destructuring.node path)))
                    property false) value) w)
      with ((let* l' := visit_expression (child_table tables)
                          (MemberExpression
                             (Identifier (destructuring.name_of (destructuring.node path)))
                             property false) in
             let* r' := visit_expression (child_table tables) value in
             match lookup_strategy (child_table tables) mutate
                     (destructuring.name_of (destructuring.node path)) with
             | Some f =>
                 f (Identifier (destructuring.name_of (destructuring.node path)))
                   (AssignmentExpression op l' r')
             | None => ret (AssignmentExpression op l' r')
             end) w).
    cbn [visit_expression]. unfold lookup_strategy, bind. rewrite Hleaf.
    cbn [read mutate path_strategy]. unfold ret.
    destruct (visit_expression _ value w) as [value' w'].
    reflexivity.
Qed.

(** X14: the declarations that stand before the body of a destructured
    item come in this order: one [$.derived] variable for each insert,
    then, leaf by leaf in the order of the pattern, the declaration of
    the leaf, followed in a development build by a statement that reads
    the leaf at once, and last the alias of the index. *)
Theorem destructured_declarations_in_order (node : AST.EachBlock)
  (context : client.ComponentContext O) (o : O) (pattern : Node)
  (inserts : list destructuring.Insert) (paths : list destructuring.Path) :
  well_formed node (client.state context) = true ->
  AST.context node = Some pattern ->
  is_Identifier pattern = false ->
  extract_paths pattern
    (if has_flag (each_flags node (client.state context)) EACH_ITEM_REACTIVE
     then b.call "$.get" [Some (item_of node)] else item_of node)
  = (inserts, paths) ->
  exists l o' derived visited,
    lower node context o = (Ok l, o')
    /\ length derived = length inserts
    /\ Forall (fun d => declares_call "$.derived" d = true) derived
    /\ length visited = length paths
    /\ declarations l
       = derived
         ++ concat (zip_with (fun path v => leaf_statements path (b.thunk v false))
                      paths visited)
         ++ index_alias node.
Proof.
  intros Hwf Hcontext Hpattern Hextract. run_lower Hwf.
  destruct (bind_item_leaves _ _ _ _ _ _ _ _ _ _ _ _ _
              Hcontext Hpattern Hextract Hbind)
    as (given & inits & visited & Hgiven & Hinits & Hvisited & Hdeclared & _).
  eexists _, _, _, visited. split; [exact Hlower |].
  split; [| split; [apply (derived_variables_declare given inits) |
            split; [exact Hvisited |]]].
  - rewrite length_zip_with. lia.
  - unfold assemble. cbn [EachBlockVisitor.declarations].
    rewrite Hdeclared. cbn [declared app]. rewrite <- app_assoc. reflexivity.
Qed.

(** A table whose strategies, at the names [n] refers to, are at most
    the one of the index in the key state, gives [n] back. *)
Lemma map_state_verbatim (f : Node -> State (O * bool) Node) (l : list Node) :
  Forall (fun n => forall w, (f n w).1 = n) l ->
  forall w, (map_state f l w).1 = l.
Proof.
  induction 1 as [| n l Hn Hl IH]; intros w; [reflexivity |].
  simpl. unfold bind. specialize (Hn w).
  destruct (f n w) as [n' w1]. simpl in Hn. subst n'.
  specialize (IH w1). destruct (map_state f l w1) as [l' w2].
  simpl in IH. subst l'. reflexivity.
Qed.

Lemma Forall_flat_map (P : Node -> Prop) (Q : string -> Prop) (l : list Node) :
  Forall (fun n => (forall name, In name (references n) -> Q name) -> P n) l ->
  (forall name, In name (List.flat_map references l) -> Q name) ->
  Forall P l.
Proof.
  induction 1 as [| n l Hn Hl IH]; intros Hall; constructor.
  - apply Hn. intros name Hin. apply Hall. simpl. apply in_or_app. auto.
  - apply IH. intros name Hin. apply Hall. simpl. apply in_or_app. auto.
Qed.

Lemma object_references (n : Node) (name : string) :
  object n = Some name -> In name (references n).
Proof.
  induction n using Node_nested_ind; try discriminate.
  - simpl. intros Hname. inversion Hname. auto.
  - simpl. intros Hname. apply in_or_app. auto.
Qed.

Lemma mutation_verbatim (table : gmap string (Strategy (O * bool))) op l r :
  (forall w, (visit_expression table l w).1 = l) ->
  (forall w, (visit_expression table r w).1 = r) ->
  (forall name,
     In name (references l) ->
     table !! name = None \/ table !! name = Some key_index_strategy) ->
  forall w,
    ((let* l' := visit_expression table l in
      let* r' := visit_expression table r in
      match object l with
      | Some name =>
          match lookup_strategy table mutate name with
          | Some f => f (Identifier name) (AssignmentExpression op l' r')
          | None => ret (AssignmentExpression op l' r')
          end
      | None => ret (AssignmentExpression op l' r')
      end) w).1
    = AssignmentExpression op l r.
Proof.
  intros Hl Hr Hnames w. unfold bind. specialize (Hl w).
  destruct (visit_expression table l w) as [l' w1]. simpl in Hl. subst l'.
  specialize (Hr w1).
  destruct (visit_expression table r w1) as [r' w2]. simpl in Hr. subst r'.
  destruct (object l) as [name |] eqn:Hobject; [| reflexivity].
  unfold lookup_strategy.
  destruct (Hnames name (object_references _ _ Hobject)) as [-> | ->]; reflexivity.
Qed.

(** A table that has, for a name, no strategy or the one of the index
    in the key state, is such a table inside a function or a block. *)
Lemma shadow_verbatim (table : gmap string (Strategy (O * bool))) names name :
  table !! name = None \/ table !! name = Some key_index_strategy ->
  shadow names table !! name = None
  \/ shadow names table !! name = Some key_index_strategy.
Proof.
  intros Hname. rewrite lookup_shadow.
  destruct (existsb (String.eqb name) names); [left; reflexivity | exact Hname].
Qed.

Lemma verbatim_all (table : gmap string (Strategy (O * bool))) (l : list Node) :
  Forall
    (fun n =>
       forall table : gmap string (Strategy (O * bool)),
         (forall name,
            In name (references n) ->
            table !! name = None \/ table !! name = Some key_index_strategy) ->
         forall w, (visit_expression table n w).1 = n) l ->
  (forall name,
     In name (List.flat_map references l) ->
     table !! name = None \/ table !! name = Some key_index_strategy) ->
  forall w, (map_state (visit_expression table) l w).1 = l.
Proof.
  intros Hall Hnames. apply map_state_verbatim.
  refine (Forall_flat_map
            (fun n => forall w, (visit_expression table n w).1 = n)
            (fun name => table !! name = None \/ table !! name = Some key_index_strategy)
            l _ Hnames).
  eapply Forall_impl; [exact Hall |]. intros n Hn. apply Hn.
Qed.

Ltac visit_list table Hnames w :=
  match goal with
  | Hall : Forall _ ?l |- _ =>
      let Hl := fresh "Hl" in
      pose proof (verbatim_all table l Hall Hnames w) as Hl;
      destruct (map_state (visit_expression table) l w);
      simpl in Hl; subst; reflexivity
  end.

Lemma visit_verbatim (n : Node) :
  forall table : gmap string (Strategy (O * bool)),
    (forall name,
       In name (references n) ->
       table !! name = None \/ table !! name = Some key_index_strategy) ->
    forall w, (visit_expression table n w).1 = n.
Proof.
  induction n using Node_nested_ind; intros table Hnames w.
  - simpl. unfold lookup_strategy.
    destruct (Hnames name (or_introl eq_refl)) as [-> | ->];
      [reflexivity | destruct w; reflexivity].
  - reflexivity.
  - simpl in *. unfold bind.
    specialize (IHn1 table
                  (fun name Hin => Hnames name (in_or_app _ _ _ (or_introl Hin))) w).
    destruct (visit_expression table n1 w) as [o' w1]. simpl in IHn1. subst o'.
    destruct c; [| reflexivity].
    specialize (IHn2 table
                  (fun name Hin => Hnames name (in_or_app _ _ _ (or_intror Hin))) w1).
    destruct (visit_expression table n2 w1) as [p' w2]. simpl in IHn2. subst p'.
    reflexivity.
  - rewrite visit_expression_call. simpl in Hnames. unfold bind.
    specialize (IHn table
                  (fun name Hin => Hnames name (in_or_app _ _ _ (or_introl Hin))) w).
    destruct (visit_expression table n w) as [f' w1]. simpl in IHn. subst f'.
    assert (Hrest := fun name Hin => Hnames name (in_or_app _ _ _ (or_intror Hin))).
    visit_list table Hrest w1.
  - cbn [visit_expression]. unfold bind.
    specialize (IHn (shadow (parameter_names ps) table)
                  (fun name Hin => shadow_verbatim table _ name (Hnames name Hin)) w).
    destruct (visit_expression (shadow (parameter_names ps) table) n w)
      as [body' w1].
    simpl in IHn. subst body'. reflexivity.
  - rewrite visit_expression_sequence. simpl in Hnames. unfold bind.
    visit_list table Hnames w.
  - assert (Hl : forall w, (visit_expression table n1 w).1 = n1).
    { apply IHn1. intros name Hin. apply Hnames. simpl. apply in_or_app. auto. }
    assert (Hr : forall w, (visit_expression table n2 w).1 = n2).
    { apply IHn2. intros name Hin. apply Hnames. simpl. apply in_or_app. auto. }
    assert (Hleft : forall name, In name (references n1) ->
              table !! name = None \/ table !! name = Some key_index_strategy).
    { intros name Hin. apply Hnames. simpl. apply in_or_app. auto. }
    destruct n1; try (apply mutation_verbatim; assumption).
    simpl. unfold bind, lookup_strategy. specialize (Hr w).
    destruct (visit_expression table n2 w) as [value w1]. simpl in Hr. subst value.
    destruct (Hleft name (or_introl eq_refl)) as [-> | ->]; reflexivity.
  - simpl in *. unfold bind. specialize (IHn table Hnames w).
    destruct (visit_expression table n w) as [a' w1]. simpl in IHn. subst a'.
    reflexivity.
  - simpl in *. unfold bind. specialize (IHn table Hnames w).
    destruct (visit_expression table n w) as [a' w1]. simpl in IHn. subst a'.
    reflexivity.
  - rewrite visit_expression_array. simpl in Hnames. unfold bind.
    visit_list table Hnames w.
  - reflexivity.
  - reflexivity.
  - reflexivity.
  - reflexivity.
  - reflexivity.
  - rewrite visit_expression_block. simpl in Hnames. unfold bind.
    assert (Hinner := fun name Hin =>
              shadow_verbatim table (declared_names body) name (Hnames name Hin)).
    visit_list (shadow (declared_names body) table) Hinner w.
  - simpl in *. unfold bind. specialize (IHn table Hnames w).
    destruct (visit_expression table n w) as [a' w1]. simpl in IHn. subst a'.
    reflexivity.
  - simpl in *. unfold bind. specialize (IHn2 table Hnames w).
    destruct (visit_expression table n2 w) as [a' w1]. simpl in IHn2. subst a'.
    reflexivity.
  - rewrite visit_expression_other. simpl in Hnames. unfold bind.
    visit_list table Hnames w.
Qed.

(** X15: the key is lowered with the names of the item taken out of the
    inherited strategies: a key that refers only to names of the item, to
    the index and to names without a strategy of their own becomes the
    body of the key function as it is written, whatever the flags say
    about the item in the body. *)
Theorem key_is_lowered_verbatim (node : AST.EachBlock)
  (context : client.ComponentContext O) (o : O) (key : Node) :
  well_formed node (client.state context) = true ->
  AST.keyed (AST.metadata node) = true ->
  AST.key node = Some key ->
  (forall name,
     In name (references key) ->
     In name (item_names node (client.state context))
     \/ AST.index node = Some name
     \/ client.transform (client.state context) !! name = None) ->
  exists l o' pattern,
    lower node context o = (Ok l, o')
    /\ AST.context node = Some pattern
    /\ key_function l
       = b.arrow (if key_uses_index l then [pattern; index l] else [pattern]) key.
Proof.
  intros Hwf Hkeyed Hkey_node Hnames. run_lower Hwf.
  destruct (well_formed_keyed _ _ Hwf Hkeyed) as (key' & pattern & Hkey' & Hcontext).
  assert (key' = key) by congruence. subst key'.
  eexists _, _, pattern. split; [exact Hlower |]. split; [exact Hcontext |].
  unfold assemble.
  cbn [EachBlockVisitor.key_function EachBlockVisitor.key_uses_index
         EachBlockVisitor.index].
  rewrite (build_key_function_keyed _ _ _ _ key pattern) in Hkey by assumption.
  pose proof (bind_item_key_table _ _ _ _ _ _ _ _ _ Hbind) as Hlookup.
  cbn [key_table] in Hlookup.
  assert (Hverbatim :
    (visit_expression (key_table tables) key (o3, false)).1 = key).
  { apply visit_verbatim. intros name Hin. rewrite Hlookup.
    destruct (bool_decide (name ∈ item_names node (client.state context))) eqn:Hitem;
      [left; reflexivity |].
    apply bool_decide_eq_false_1 in Hitem.
    unfold with_index.
    destruct (AST.index node) as [i |] eqn:Hindex.
    - destruct (decide (i = name)) as [-> | Hne].
      + right. apply lookup_insert_eq.
      + left. rewrite lookup_insert_ne by assumption.
        destruct (Hnames name Hin) as [Hitem' | [Hi | Hnone]].
        * exfalso. apply Hitem. apply list_elem_of_In. assumption.
        * congruence.
        * rewrite lookup_fmap, Hnone. reflexivity.
    - left. destruct (Hnames name Hin) as [Hitem' | [Hi | Hnone]].
      + exfalso. apply Hitem. apply list_elem_of_In. assumption.
      + discriminate.
      + rewrite lookup_fmap, Hnone. reflexivity. }
  destruct (visit_expression (key_table tables) key (o3, false))
    as [expression [o6 cell]].
  simpl in Hverbatim. subst expression.
  inversion Hkey; subst. reflexivity.
Qed.

End Facts.

Lemma leaf_is_read_as_a_call_witness :
  well_formed Sample.destructured_each (client.state Sample.pattern_context) = true
  /\ AST.context Sample.destructured_each = Some Sample.pattern
  /\ exists l o',
       @lower unit Sample.pattern_imports Sample.destructured_each
         Sample.pattern_context tt = (Ok l, o')
       /\ forall w,
            visit_expression (child_transform l) (Identifier "b") w
            = (b.call "$.get" [Some (Identifier "b")], w).
Proof.
  split; [reflexivity |]. split; [reflexivity |].
  refine (@leaf_is_read_as_a_call unit Sample.pattern_imports
            Sample.destructured_each Sample.pattern_context tt Sample.pattern
            (Sample.pattern_paths Sample.pattern
               (b.call "$.get" [Some (b.id "$$item")])).1
            (Sample.pattern_paths Sample.pattern
               (b.call "$.get" [Some (b.id "$$item")])).2
            {| destructuring.node := Identifier "b";
               destructuring.is_rest := false;
               destructuring.has_default_value := true;
               destructuring.expression := fun _ =>
                 b.call "$.fallback"
                   [Some (b.member (b.call "$.get" [Some (b.id "$$item")])
                            (b.id "b") false);
                    Some (b.thunk (estree.CallExpression (Identifier "f") []) false)];
               destructuring.update_expression := fun _ =>
                 b.member (b.call "$.get" [Some (b.id "$$item")]) (b.id "b") false |}
            eq_refl eq_refl eq_refl eq_refl _ _).
  - simpl. repeat constructor; simpl; intuition discriminate.
  - simpl. right. left. reflexivity.
Defined.

Lemma leaf_write_witness :
  well_formed Sample.array_each (client.state Sample.array_context) = true
  /\ AST.context Sample.array_each = Some (ArrayPattern [Identifier "a"])
  /\ exists l o' (names : destructuring.Names) (inits rest : list Node),
       @lower unit Sample.array_imports Sample.array_each Sample.array_context tt
       = (Ok l, o')
       /\ length inits = 1%nat
       /\ declarations l
          = zip_with
              (fun insert e =>
                 b.var (Identifier (names (destructuring.id insert)))
                   (b.call "$.derived" [Some e]))
              (Sample.array_paths (ArrayPattern [Identifier "a"])
                 (b.call "$.get" [Some (b.id "$$item")])).1
              inits
            ++ rest
       /\ forall value w,
            visit_expression (child_transform l)
              (AssignmentExpression "=" (Identifier "a") value) w
            = let '(value', w') := visit_expression (child_transform l) value w in
              (b.sequence
                 (b.assignment "="
                    (b.member (Identifier (names 0%nat)) (b.literal (LNumber 0)) true)
                    value'
                  :: sequence l), w').
Proof.
  split; [reflexivity |]. split; [reflexivity |].
  assert (Hnodup : List.NoDup
            (path_names
               (Sample.array_paths (ArrayPattern [Identifier "a"])
                  (b.call "$.get" [Some (b.id "$$item")])).2)).
  { simpl. repeat constructor; simpl; intuition discriminate. }
  assert (Hids : List.NoDup
            (destructuring.id
               <$> (Sample.array_paths (ArrayPattern [Identifier "a"])
                      (b.call "$.get" [Some (b.id "$$item")])).1)).
  { simpl. repeat constructor; simpl; intuition discriminate. }
  destruct (@leaf_write unit Sample.array_imports
              Sample.array_each Sample.array_context tt
              (ArrayPattern [Identifier "a"])
              (Sample.array_paths (ArrayPattern [Identifier "a"])
                 (b.call "$.get" [Some (b.id "$$item")])).1
              (Sample.array_paths (ArrayPattern [Identifier "a"])
                 (b.call "$.get" [Some (b.id "$$item")])).2
              {| destructuring.node := Identifier "a";
                 destructuring.is_rest := false;
                 destructuring.has_default_value := false;
                 destructuring.expression := fun names =>
                   b.member (Identifier (names 0%nat)) (b.literal (LNumber 0)) true;
                 destructuring.update_expression := fun names =>
                   b.member (Identifier (names 0%nat)) (b.literal (LNumber 0)) true |}
              eq_refl eq_refl eq_refl eq_refl Hnodup Hids (or_introl eq_refl))
    as (l & o' & names & inits & rest & Hlower & Hinits & Hdeclared & _ & Hassign & _).
  exists l, o', names, inits, rest.
  split; [assumption |]. split; [assumption |]. split; [assumption |].
  exact Hassign.
Defined.

Lemma destructured_declarations_in_order_witness :
  well_formed Sample.array_each (client.state Sample.array_context) = true
  /\ AST.context Sample.array_each = Some (ArrayPattern [Identifier "a"])
  /\ exists l o' (derived visited : list Node),
       @lower unit Sample.array_imports Sample.array_each Sample.array_context tt
       = (Ok l, o')
       /\ length derived = 1%nat
       /\ length visited = 1%nat.
Proof.
  split; [reflexivity |]. split; [reflexivity |].
  destruct (@destructured_declarations_in_order unit Sample.array_imports
              Sample.array_each Sample.array_context tt
              (ArrayPattern [Identifier "a"])
              (Sample.array_paths (ArrayPattern [Identifier "a"])
                 (b.call "$.get" [Some (b.id "$$item")])).1
              (Sample.array_paths (ArrayPattern [Identifier "a"])
                 (b.call "$.get" [Some (b.id "$$item")])).2
              eq_refl eq_refl eq_refl eq_refl)
    as (l & o' & derived & visited & Hlower & Hderived & _ & Hvisited & _).
  exists l, o', derived, visited. repeat split; assumption.
Defined.

Lemma key_is_lowered_verbatim_witness :
  well_formed (Sample.keyed_each false) (client.state Sample.keyed_context) = true
  /\ AST.keyed (AST.metadata (Sample.keyed_each false)) = true
  /\ exists l o',
       @lower unit Sample.legacy_imports (Sample.keyed_each false)
         Sample.keyed_context tt = (Ok l, o')
       /\ key_function l
          = b.arrow
              (if key_uses_index l then [Identifier "item"; index l]
               else [Identifier "item"])
              (estree.CallExpression (Identifier "key")
                 [Identifier "item"; Identifier "i"]).
Proof.
  split; [reflexivity |]. split; [reflexivity |].
  assert (Hnames : forall name,
    In name (references
               (estree.CallExpression (Identifier "key")
                  [Identifier "item"; Identifier "i"])) ->
    In name (@item_names unit Sample.legacy_imports (Sample.keyed_each false)
               (client.state Sample.keyed_context))
    \/ AST.index (Sample.keyed_each false) = Some name
    \/ client.transform (client.state Sample.keyed_context) !! name = None).
  { intros name Hin. simpl in Hin.
    destruct Hin as [<- | [<- | [<- | []]]].
    - right. right. reflexivity.
    - left. left. reflexivity.
    - right. left. reflexivity. }
  destruct (@key_is_lowered_verbatim unit Sample.legacy_imports
              (Sample.keyed_each false) Sample.keyed_context tt
              (estree.CallExpression (Identifier "key")
                 [Identifier "item"; Identifier "i"])
              eq_refl eq_refl eq_refl Hnames)
    as (l & o' & pattern & Hlower & Hcontext & Hfunction).
  exists l, o'. split; [assumption |].
  inversion Hcontext. subst pattern. exact Hfunction.
Defined.

(** In [{#each items as [[a], b]}] the array inside the item is taken
    from the variable of the item, not from its own: each insert has
    an identifier of its own, and a name of its own. *)
Lemma nested_inserts_are_named_apart :
  exists l,
    (@lower nat counting_imports nested_pattern_each nested_pattern_context 0%nat).1
    = Ok l
    /\ declarations l
       = [b.var (Identifier "$$array")
            (b.call "$.derived"
               [Some (b.thunk
                  (b.call "$.to_array"
                     [Some (get_value (b.id "$$item")); Some (b.literal (LNumber 2))])
                  false)]);
          b.var (Identifier "$$array_1")
            (b.call "$.derived"
               [Some (b.thunk
                  (b.call "$.to_array"
                     [Some (b.member (get_value (Identifier "$$array"))
                              (b.literal (LNumber 0)) true);
                      Some (b.literal (LNumber 1))])
                  false)]);
          b.let_ (Identifier "a")
            (b.thunk
               (b.member (get_value (Identifier "$$array_1"))
                  (b.literal (LNumber 0)) true)
               false);
          b.let_ (Identifier "b")
            (b.thunk
               (b.member (get_value (Identifier "$$array"))
                  (b.literal (LNumber 1)) true)
               false)].
Proof.
  eexists. split; [vm_compute; reflexivity |].
  vm_compute. reflexivity.
Qed.

End PatternFacts.

(** ** The statements that are pushed *)

Module EmittedFacts.
Import transformers EachBlockVisitor Notions FlagNotions MoreNotions.
Import LowerProofs VisitorProofs TableProofs.

Ltac run_lower Hwf :=
  match goal with
  | |- context [lower ?node ?c ?o] => destruct (lower_run node c o Hwf)
    as (collection & o1 & collection_id & o2 & child & inner & w1 & tables & w2
        & block & o3 & uses_index & key_function & o4 & key_uses_index
        & fallback & o5 & Hcollection & Hid & Hinner & Hbind & Hblock & Hkey
        & Hfallback & Hlower)
  end.

(** A call that is given all its arguments keeps them as they are. *)
Lemma call_arguments_all (l : list Node) : b.call_arguments (Some <$> l) = l.
Proof.
  induction l as [| x rest IH]; [reflexivity |].
  rewrite fmap_cons. cbn [b.call_arguments]. rewrite IH.
  destruct rest; reflexivity.
Qed.

Section Facts.
Context {O : Type} `{Imports O}.

(** X16: when the collection is not awaited, what is pushed onto the
    initialisation of the component is the [$.each] call, whose
    arguments are the node, the flags, the collection thunk, the key
    function, the item renderer and the fallback, if there is one; in a
    development build a keyed block has the validation of its keys pushed
    before the call, and the validation is given the collection thunk and
    the key function of the call. *)
Theorem pushed_statements (node : AST.EachBlock)
  (context : client.ComponentContext O) (o : O) :
  well_formed node (client.state context) = true ->
  AST.has_await (AST.meta_expression (AST.metadata node)) = false ->
  exists l effects o' fallback,
    lower node context o = (Ok l, o')
    /\ EachBlock node context o = (Ok effects, o')
    /\ (length fallback <= 1)%nat
    /\ (fallback = [] <-> AST.fallback node = None)
    /\ init effects
       = (if dev && AST.keyed (AST.metadata node)
          then [b.stmt
                  (CallExpression (Identifier "$.validate_each_keys")
                     [b.thunk (collection l) false; key_function l])]
          else [])
         ++ [add_svelte_meta
               (CallExpression (Identifier "$.each")
                  ([client.node (client.state context);
                    Literal (LNumber (flags l));
                    b.thunk (collection l) false;
                    key_function l;
                    b.arrow (render_args l) (b.block (declarations l ++ block l))]
                   ++ fallback))
               node "each"].
Proof.
  intros Hwf Hawait. run_lower Hwf.
  eexists _, _, _, fallback. split; [exact Hlower |].
  split; [unfold EachBlock, bind; rewrite Hlower; reflexivity |].
  assert (Hshape :
    (length fallback <= 1)%nat /\ (fallback = [] <-> AST.fallback node = None)).
  { unfold lower_fallback in Hfallback.
    destruct (AST.fallback node) as [fragment |].
    - unfold bind in Hfallback.
      destruct (visit_fragment O (client.state context) fragment o4) as [body o6].
      inversion Hfallback; subst. simpl. split; [lia |]. split; discriminate.
    - inversion Hfallback; subst. simpl. split; [lia |]. split; reflexivity. }
  destruct Hshape as [Hlength Hnone].
  split; [exact Hlength |]. split; [exact Hnone |].
  cbn [init]. rewrite Hawait. unfold assemble.
  cbn [EachBlockVisitor.statements EachBlockVisitor.collection
         EachBlockVisitor.flags EachBlockVisitor.key_function
         EachBlockVisitor.render_args EachBlockVisitor.declarations
         EachBlockVisitor.block].
  rewrite Hawait. unfold b.call at 1 2. rewrite call_arguments_all.
  reflexivity.
Qed.

(** X17: when a name of the block shadows a name of an ancestor scope,
    the item renderer always takes four parameters, the anchor, the
    item, the index and the captured collection, whether or not the
    body uses the index. *)
Theorem captured_collection_parameters (node : AST.EachBlock)
  (context : client.ComponentContext O) (o : O) :
  well_formed node (client.state context) = true ->
  shadows_ancestor (client.scope (client.state context)) ->
  exists l o' id,
    lower node context o = (Ok l, o')
    /\ collection_id l = Some id
    /\ render_args l
       = [b.id "$$anchor"; item l; index l; Identifier (scope.name id)].
Proof.
  intros Hwf Hshadow. run_lower Hwf.
  apply allocate_collection_id_spec in Hid.
  apply Hid in Hshadow. destruct Hshadow as [id ->].
  eexists _, _, id. split; [exact Hlower |].
  unfold assemble.
  cbn [EachBlockVisitor.collection_id EachBlockVisitor.render_args
         EachBlockVisitor.item EachBlockVisitor.index].
  split; [reflexivity |].
  unfold build_render_args, identifier_of. simpl. rewrite orb_true_r. reflexivity.
Qed.

End Facts.

Lemma pushed_statements_witness :
  well_formed (Sample.keyed_each false) (client.state Sample.keyed_context) = true
  /\ AST.has_await (AST.meta_expression (AST.metadata (Sample.keyed_each false)))
     = false
  /\ exists (l : @Locals unit) effects o',
       @EachBlock unit Sample.legacy_imports (Sample.keyed_each false)
         Sample.keyed_context tt = (Ok effects, o')
       /\ init effects
          = [b.stmt
               (estree.CallExpression (Identifier "$.each")
                  [b.id "node";
                   Literal (LNumber (flags l));
                   b.thunk (collection l) false;
                   key_function l;
                   b.arrow (render_args l) (b.block (declarations l ++ block l))])].
Proof.
  split; [reflexivity |]. split; [reflexivity |].
  destruct (@pushed_statements unit Sample.legacy_imports (Sample.keyed_each false)
              Sample.keyed_context tt eq_refl eq_refl)
    as (l & effects & o' & fallback & _ & Heach & _ & Hnone & Hinit).
  exists l, effects, o'. split; [assumption |].
  rewrite Hinit. rewrite (proj2 Hnone eq_refl). reflexivity.
Defined.

Lemma captured_collection_parameters_witness :
  well_formed shadow_each (client.state shadow_context) = true
  /\ shadows_ancestor (client.scope (client.state shadow_context))
  /\ exists l o' id,
       @lower unit Sample.legacy_imports shadow_each shadow_context tt = (Ok l, o')
       /\ render_args l
          = [b.id "$$anchor"; item l; index l; Identifier (scope.name id)].
Proof.
  assert (Hshadow : shadows_ancestor (client.scope (client.state shadow_context))).
  { exists "x", (Sample.binding scope.each true 10 "x" 1), Sample.instance_scope,
      Sample.x_binding.
    split; [left; reflexivity |]. split; reflexivity. }
  split; [reflexivity |]. split; [exact Hshadow |].
  destruct (@captured_collection_parameters unit Sample.legacy_imports shadow_each
              shadow_context tt eq_refl Hshadow)
    as (l & o' & id & Hlower & _ & Hargs).
  exists l, o', id. split; assumption.
Defined.

End EmittedFacts.

(** ** The runes of [CallExpression] *)

Module CallFacts.
Import CallExpressionVisitor CallNotions.

Section Facts.
Context {O : Type} `{Imports O}.

Lemma rune_is_other (rune : option string) (name : string) :
  (forall r, rune = Some r -> ~ In r recognized_runes) ->
  In name recognized_runes ->
  rune_is rune name = false.
Proof.
  intros Hnot Hin. destruct rune as [r |]; [| reflexivity]. simpl.
  apply String.eqb_neq. intros ->. exact (Hnot name eq_refl Hin).
Qed.

(** X18: the visitor hands the call on with [context.next()] exactly
    when the call matches none of the runes of the [switch] and is not a
    console call to capture; a call of one of those runes is never
    handed on, whatever its callee looks like. *)
Theorem next_only_for_other_calls (node : CallNode) (scope : scope.Scope) (o : O) :
  (CallExpression node scope o).1 = Next
  <-> (forall r, get_rune node scope = Some r -> ~ In r recognized_runes)
      /\ logs_state node scope = None.
Proof.
  split.
  - intros Hnext.
    assert (Hnot : forall r, get_rune node scope = Some r -> ~ In r recognized_runes).
    { intros r Hr Hin. revert Hnext. unfold CallExpression, bind, ret. rewrite Hr.
      simpl in Hin.
      repeat (destruct Hin as [<- | Hin];
              [simpl;
               repeat match goal with
                 | |- context [match ?x with _ => _ end] => destruct x
                 end;
               simpl; discriminate |]).
      destruct Hin. }
    split; [exact Hnot |].
    revert Hnext. unfold CallExpression.
    rewrite !(rune_is_other _ _ Hnot) by (simpl; tauto). simpl.
    destruct (logs_state node scope); [| reflexivity].
    unfold bind, ret. destruct (map_state visit (arguments node) o). discriminate.
  - intros [Hnot Hlogs]. unfold CallExpression.
    rewrite !(rune_is_other _ _ Hnot) by (simpl; tauto). simpl.
    rewrite Hlogs. reflexivity.
Qed.

(** X19: [$derived(e)] is lowered to [$.derived(() => e')], where [e']
    is [e] lowered inside a derived; [$derived.by(f)] is lowered to
    [$.derived(f')], where [f'] is [f] lowered outside of one.  Only the
    first argument is looked at. *)
Theorem derived_declaration (node : CallNode) (scope : scope.Scope) (o : O)
  (arg : Node) (rest : list Node) :
  arguments node = arg :: rest ->
  (get_rune node scope = Some "$derived" ->
   CallExpression node scope o
   = let '(fn, o') := visit_in_derived true arg o in
     (Return (estree.CallExpression (Identifier "$.derived") [b.thunk fn false]), o'))
  /\ (get_rune node scope = Some "$derived.by" ->
      CallExpression node scope o
      = let '(fn, o') := visit_in_derived false arg o in
        (Return (estree.CallExpression (Identifier "$.derived") [fn]), o')).
Proof.
  intros Harguments. unfold CallExpression, bind, ret. rewrite Harguments.
  split; intros ->; simpl; destruct (visit_in_derived _ arg o); reflexivity.
Qed.

(** X20: [$effect.root(...)] is lowered to a call of [$.effect_root]
    with every argument of the call lowered, in the order of the call
    and from left to right; no argument is dropped. *)
Theorem effect_root_arguments (node : CallNode) (scope : scope.Scope) (o : O) :
  get_rune node scope = Some "$effect.root" ->
  exists args o',
    map_state visit (arguments node) o = (args, o')
    /\ length args = length (arguments node)
    /\ CallExpression node scope o
       = (Return (estree.CallExpression (Identifier "$.effect_root") args), o').
Proof.
  intros Hrune. unfold CallExpression, bind, ret. rewrite Hrune. simpl.
  destruct (map_state visit (arguments node) o) as [args o'] eqn:Hvisit.
  exists args, o'. split; [reflexivity |]. split.
  - clear Hrune. revert o args o' Hvisit.
    induction (arguments node) as [| x l IH]; intros o args o' Hvisit.
    + inversion Hvisit. reflexivity.
    + simpl in Hvisit. unfold bind in Hvisit.
      destruct (visit x o) as [x' o1].
      destruct (map_state visit l o1) as [l' o2] eqn:Hl.
      inversion Hvisit; subst. simpl. f_equal. eapply IH. eassumption.
  - unfold b.call. rewrite EmittedFacts.call_arguments_all. reflexivity.
Qed.

(** X21: [$state.snapshot(value)] is lowered to [$.snapshot] called with
    the lowered value alone, or with a second argument [true] exactly
    when the warning about values that cannot be cloned is ignored at the
    call. *)
Theorem snapshot_arguments (node : CallNode) (scope : scope.Scope) (o : O)
  (arg : Node) (rest : list Node) :
  get_rune node scope = Some "$state.snapshot" ->
  arguments node = arg :: rest ->
  CallExpression node scope o
  = let '(value, o') := visit arg o in
    (Return
       (estree.CallExpression (Identifier "$.snapshot")
          (if is_ignored node "state_snapshot_uncloneable"
           then [value; Literal (LBoolean true)] else [value])),
     o').
Proof.
  intros Hrune Harguments. unfold CallExpression, bind, ret.
  rewrite Hrune, Harguments. simpl.
  destruct (visit arg o) as [value o'].
  destruct (is_ignored node "state_snapshot_uncloneable"); reflexivity.
Qed.

End Facts.

Lemma derived_declaration_witness :
  arguments MoreNotions.derived_call = [Identifier "count"]
  /\ @get_rune unit (Sample.call_imports false) MoreNotions.derived_call
       Sample.instance_scope = Some "$derived"
  /\ @CallExpression unit (Sample.call_imports false) MoreNotions.derived_call
       Sample.instance_scope tt
     = (Return
          (estree.CallExpression (Identifier "$.derived")
             [b.thunk (Identifier "count") false]), tt).
Proof.
  split; [reflexivity |]. split; [reflexivity |].
  destruct (@derived_declaration unit (Sample.call_imports false)
              MoreNotions.derived_call Sample.instance_scope tt
              (Identifier "count") [] eq_refl) as [Hderived _].
  exact (Hderived eq_refl).
Defined.

Lemma effect_root_arguments_witness :
  @get_rune unit (Sample.call_imports false) MoreNotions.effect_root_call
    Sample.instance_scope = Some "$effect.root"
  /\ exists args o',
       length args = 2%nat
       /\ @CallExpression unit (Sample.call_imports false)
            MoreNotions.effect_root_call Sample.instance_scope tt
          = (Return (estree.CallExpression (Identifier "$.effect_root") args), o').
Proof.
  split; [reflexivity |].
  destruct (@effect_root_arguments unit (Sample.call_imports false)
              MoreNotions.effect_root_call Sample.instance_scope tt eq_refl)
    as (args & o' & _ & Hlength & Hcall).
  exists args, o'. split; assumption.
Defined.

Lemma snapshot_arguments_witness :
  @get_rune unit (Sample.call_imports false) MoreNotions.snapshot_call
    Sample.instance_scope = Some "$state.snapshot"
  /\ @CallExpression unit (Sample.call_imports false) MoreNotions.snapshot_call
       Sample.instance_scope tt
     = (Return
          (estree.CallExpression (Identifier "$.snapshot") [Identifier "value"]), tt).
Proof.
  split; [reflexivity |].
  exact (@snapshot_arguments unit (Sample.call_imports false)
           MoreNotions.snapshot_call Sample.instance_scope tt
           (Identifier "value") [] eq_refl eq_refl).
Defined.

End CallFacts.
